(** * audiodedupe: the fingerprint index, its scan, its pruning, its cache,
      its report and its command line

    A shallow embedding of [audiodedupe.py].  The class [AudioDedupe] becomes a
    record, its methods become computations in a small state-and-exception
    monad over the instance and the world around it (the filesystem and the
    list of fingerprint commands spawned so far).

    What the program only calls is taken from outside and never looked into:
    the fingerprint command, [os.walk], [os.path.abspath], [shutil.which] and
    the host's processor count are the fields of [Env]; every theorem holds
    for all of them.  The standard library pieces the program's behaviour
    hangs on are modelled by what they do: dictionary and list iterators
    (with the size check of a dictionary iterator), [list.remove],
    [dict.setdefault], [os.path.join], [re] matching on compiled patterns,
    [argparse]'s store actions and [multiprocessing.Pool.map]. *)

From Stdlib Require Import ZArith Ascii String Lia.
From Equations Require Import Equations.
From Equations.Prop Require Import Logic.
From stdpp Require Import base option list gmap strings pretty.

Local Open Scope Z_scope.
Local Open Scope string_scope.
Local Open Scope list_scope.

(* ================================================================== *)
(** * Strings, truth values and paths *)

(** Python's truth value of a [str]: every string but the empty one. *)
Definition truthy (s : string) : bool :=
  match s with
  | EmptyString => false
  | String _ _ => true
  end.

Definition ascii_eqb (a b : ascii) : bool := bool_decide (a = b).

Definition newline : ascii := ascii_of_nat 10.

(** ASCII case folding, the folding [re.IGNORECASE] applies to the letters
    of byte file names. *)
Definition lower (c : ascii) : ascii :=
  let n := nat_of_ascii c in
  if ((65 <=? n) && (n <=? 90))%nat then ascii_of_nat (n + 32) else c.

Fixpoint lowercase (s : string) : string :=
  match s with
  | EmptyString => EmptyString
  | String c s' => String (lower c) (lowercase s')
  end.

Fixpoint endswith_sep (s : string) : bool :=
  match s with
  | EmptyString => false
  | String c EmptyString => ascii_eqb c "/"
  | String _ s' => endswith_sep s'
  end.

Definition is_abs (s : string) : bool :=
  match s with
  | String c _ => ascii_eqb c "/"
  | EmptyString => false
  end.

(** [os.path.join a b] (posixpath): an absolute [b] discards [a]; otherwise
    [b] is appended, after a separator unless [a] is empty or ends in one. *)
Definition path_join (a b : string) : string :=
  if is_abs b then b
  else if negb (truthy a) || endswith_sep a then a +:+ b
  else a +:+ "/" +:+ b.

(** [os.path.join a b c]. *)
Definition path_join3 (a b c : string) : string := path_join (path_join a b) c.

(* ================================================================== *)
(** * Compiled patterns and [Pattern.match]

    [re.compile] is the library's; a pattern is held in compiled form: its
    flags (only [IGNORECASE], which the inline group [(?i)] at the head of a
    pattern's text sets, since [_descend] passes no flag of its own) and its
    body.  [re_match] decides whether [Pattern.match] returns a match object:
    some prefix of the name matches the body.  It works by derivatives; [^]
    holds before the first character only and [$] at the end of the name or
    before a newline that ends it.  Names are byte strings, and letter case
    is that of the ASCII letters.

    The patterns held here are those written with ordinary and escaped
    characters, [.], [^], [$], concatenation, [|] and [*], with [(?i)] at the
    head or not at all.  The rest of [re]'s syntax has no compiled form here:
    character classes, counted repetition, groups that switch a flag on or
    off for a part of the pattern (as [(?-i:...)]), and text that
    [re.compile] rejects with [re.error].  Names with characters outside
    ASCII, which [re] folds by Unicode's rules, are not covered either.  The
    statements about [re_match] speak of this fragment only. *)

Inductive regex : Type :=
| Never                       (* matches nothing *)
| Eps                         (* the empty pattern *)
| Lit (c : ascii)             (* an ordinary or escaped character *)
| Dot                         (* [.]: any character but a newline *)
| Bol                         (* [^] *)
| Eol                         (* [$] *)
| Cat (r s : regex)
| Alt (r s : regex)           (* [r|s] *)
| Star (r : regex).           (* [r*] *)

Record Pattern : Type := mkPattern {
  ignorecase : bool;
  body : regex
}.

Definition at_end (rest : string) : bool :=
  match rest with
  | EmptyString => true
  | String c EmptyString => ascii_eqb c newline
  | _ => false
  end.

Definition lit_matches (ic : bool) (a c : ascii) : bool :=
  if ic then ascii_eqb (lower a) (lower c) else ascii_eqb a c.

(** Can [r] match the empty string here?  [first] says that no character has
    been consumed yet, [rest] is what is left of the name. *)
Fixpoint nullable (first : bool) (rest : string) (r : regex) : bool :=
  match r with
  | Never | Lit _ | Dot => false
  | Eps | Star _ => true
  | Bol => first
  | Eol => at_end rest
  | Cat r1 r2 => nullable first rest r1 && nullable first rest r2
  | Alt r1 r2 => nullable first rest r1 || nullable first rest r2
  end.

(** What is left of [r] after it consumed [c], the head of [String c rest]. *)
Fixpoint deriv (ic first : bool) (c : ascii) (rest : string) (r : regex) : regex :=
  match r with
  | Never | Eps | Bol | Eol => Never
  | Lit a => if lit_matches ic a c then Eps else Never
  | Dot => if ascii_eqb c newline then Never else Eps
  | Cat r1 r2 =>
      Alt (Cat (deriv ic first c rest r1) r2)
          (if nullable first (String c rest) r1
           then deriv ic first c rest r2 else Never)
  | Alt r1 r2 => Alt (deriv ic first c rest r1) (deriv ic first c rest r2)
  | Star r1 => Cat (deriv ic first c rest r1) (Star r1)
  end.

Fixpoint match_from (ic first : bool) (r : regex) (s : string) : bool :=
  nullable first s r ||
  match s with
  | EmptyString => false
  | String c rest => match_from ic false (deriv ic first c rest r) rest
  end.

(** [bool(reFilter.match(fileName))]. *)
Definition re_match (p : Pattern) (fileName : string) : bool :=
  match_from (ignorecase p) true (body p) fileName.

Fixpoint word (s : string) : regex :=
  match s with
  | EmptyString => Eps
  | String c s' => Cat (Lit c) (word s')
  end.

(** [DEFAULT_FILES_FILTER = '(?i)^.*\.(mp3|ogg|wav)$'], compiled. *)
Definition DEFAULT_FILES_FILTER : Pattern :=
  {| ignorecase := true;
     body := Cat Bol (Cat (Star Dot) (Cat (Lit ".")
               (Cat (Alt (word "mp3") (Alt (word "ogg") (word "wav"))) Eol))) |}.

(* ================================================================== *)
(** * Exceptions and the execution monad *)

Inductive exn : Type :=
| AudioDedupeException
| FileNotFoundError
| FileExistsError
| IsADirectoryError
| OSError
| TimeoutExpired
| JSONDecodeError
| TypeError
| RuntimeError
| ValueError.

Inductive result (A : Type) : Type :=
| Return (a : A)
| Raise (e : exn).
Arguments Return {A} a.
Arguments Raise {A} e.

(** A computation over a state [S]: it returns or raises, and either way
    leaves the state it reached (an exception does not undo assignments). *)
Definition Exec (S A : Type) : Type := S -> result A * S.

Definition ret {S A : Type} (a : A) : Exec S A := fun s => (Return a, s).

Definition raise {S A : Type} (e : exn) : Exec S A := fun s => (Raise e, s).

Definition bind {S A B : Type} (m : Exec S A) (k : A -> Exec S B) : Exec S B :=
  fun s =>
    match m s with
    | (Return a, s') => k a s'
    | (Raise e, s') => (Raise e, s')
    end.

(** [try: body except Exception as e: handler e]. *)
Definition try_except {S A : Type} (body : Exec S A) (handler : exn -> Exec S A)
  : Exec S A :=
  fun s =>
    match body s with
    | (Return a, s') => (Return a, s')
    | (Raise e, s') => handler e s'
    end.

Definition gets {S A : Type} (f : S -> A) : Exec S A := fun s => (Return (f s), s).

Definition modify {S : Type} (f : S -> S) : Exec S unit := fun s => (Return tt, f s).

Declare Scope exec_scope.
Delimit Scope exec_scope with exec.
Notation "x <- m ;; k" := (bind m (fun x => k))
  (at level 100, m at next level, right associativity) : exec_scope.
Notation "m ;;; k" := (bind m (fun _ => k))
  (at level 100, right associativity) : exec_scope.
Local Open Scope exec_scope.

(* ================================================================== *)
(** * The world: filesystem, spawned commands, outside collaborators

    Paths are keys: a path names a regular file, a directory, or nothing.
    Permissions and parent directories are not tracked, so the operations
    below fail only for the kind of node they find. *)

(** The forward mapping, fingerprint to the files carrying it, as Python's
    insertion-ordered [dict] of lists. *)
Abbreviation Fingerprints := (list (string * list string)).

(** A regular file's content is kept as what [json.load] makes of it: the
    mapping that [json.dump] wrote there, or text on which it raises.  JSON
    of another shape (a list, a number, an object whose values are not lists
    of path names) has no constructor: [loadCache] would take it for the
    mapping, and the loops over the mapping would raise on it.  Statements
    about a cache file speak of the two kinds of content below. *)
Inductive FileContent : Type :=
| JsonDocument (doc : Fingerprints)
| Unparsable.

Inductive Node : Type :=
| RegularFile (content : FileContent)
| Directory.

Record World : Type := mkWorld {
  files : gmap string Node;
  spawned : list (list string)      (* argv of every [subprocess.Popen] *)
}.

(** What the fingerprint command printed, as [json.loads] reads it.  The
    value of the field ['fingerprint'] is a string, as [fpcalc -json] prints
    it.  For JSON that is no object [scanFile] returns [None] whichever way
    it goes, by the membership test or by the [TypeError] of a later line;
    the model takes the second.  A field ['fingerprint'] holding another JSON
    value (a number, a list, [null]) has no constructor; statements about
    what a command prints speak of string fingerprints. *)
Inductive Stdout : Type :=
| NotJson                               (* [json.loads] raises *)
| JsonOther                             (* JSON, but no object *)
| JsonObject (fp_field : option string) (* an object, with or without the
                                           field ['fingerprint'] *).

(** How one invocation of the command ends.  A command that outlives its
    timeout is taken to end at some point: [communicate] does not kill it,
    and [Popen.__exit__] waits for it, without a limit, before
    [TimeoutExpired] reaches the handler.  A command that never ends keeps
    [scanFile] waiting for ever; that run has no outcome here, so statements
    that a scan returns speak of commands that end. *)
Inductive ProcOutcome : Type :=
| PopenError                            (* the process cannot be started *)
| CommunicateTimeout                    (* [communicate] exceeds the timeout *)
| Exited (returncode : Z) (out : Stdout).

(** The collaborators.  The command's outcome is a function of its command
    line, its timeout and the filesystem it reads. *)

Record Env : Type := mkEnv {
  which : string -> bool;      (* [shutil.which cmd is not None] *)
  run_cmd : gmap string Node -> list string -> Z -> ProcOutcome;
  os_walk : gmap string Node -> string -> list (string * list string * list string);
  abspath : string -> string;
  cpu_count : Z;               (* [mp.cpu_count()] *)
  home : string                (* [os.path.expanduser('~')] *)
}.

Definition isfile (fs : gmap string Node) (p : string) : bool :=
  match fs !! p with
  | Some (RegularFile _) => true
  | _ => false
  end.

Definition isdir (fs : gmap string Node) (p : string) : bool :=
  match fs !! p with
  | Some Directory => true
  | _ => false
  end.

(** [os.makedirs p]: refuses a path that exists, and the empty path, for
    which [mkdir] finds nothing to create.  Of the directories it makes only
    [p] itself is recorded: a missing parent, which it would make on the way,
    is not a key of the map (parents are not tracked). *)
Definition os_makedirs (p : string) : Exec World unit :=
  fun w =>
    match files w !! p with
    | Some _ => (Raise FileExistsError, w)
    | None =>
        if negb (truthy p) then (Raise FileNotFoundError, w)
        else (Return tt, mkWorld (<[p := Directory]> (files w)) (spawned w))
    end.

(** [with open(p, 'w') as fd: json.dump(doc, fd)]. *)
Definition write_json (p : string) (doc : Fingerprints) : Exec World unit :=
  fun w =>
    match files w !! p with
    | Some Directory => (Raise IsADirectoryError, w)
    | _ => (Return tt,
            mkWorld (<[p := RegularFile (JsonDocument doc)]> (files w)) (spawned w))
    end.

(** [with open(p, 'r') as fd: json.load(fd)]. *)
Definition read_json (p : string) : Exec World Fingerprints :=
  fun w =>
    match files w !! p with
    | Some (RegularFile (JsonDocument doc)) => (Return doc, w)
    | Some (RegularFile Unparsable) => (Raise JSONDecodeError, w)
    | Some Directory => (Raise IsADirectoryError, w)
    | None => (Raise FileNotFoundError, w)
    end.

Definition os_remove (p : string) : Exec World unit :=
  fun w =>
    match files w !! p with
    | Some (RegularFile _) => (Return tt, mkWorld (delete p (files w)) (spawned w))
    | Some Directory => (Raise IsADirectoryError, w)
    | None => (Raise FileNotFoundError, w)
    end.

(** [subprocess.Popen(argv)] followed by [communicate(timeout)], for a
    command that ends (see [ProcOutcome]). *)
Definition popen (E : Env) (argv : list string) (timeout : Z) : Exec World ProcOutcome :=
  fun w =>
    (Return (run_cmd E (files w) argv timeout),
     mkWorld (files w) (spawned w ++ [argv])).

(* ================================================================== *)
(** * Dictionaries as the program uses them *)

Fixpoint dict_get (d : Fingerprints) (k : string) : option (list string) :=
  match d with
  | [] => None
  | (k', v) :: d' => if decide (k = k') then Some v else dict_get d' k
  end.

(** [d.setdefault(k, [])]: a new key goes last. *)
Definition dict_setdefault (d : Fingerprints) (k : string) : Fingerprints :=
  match dict_get d k with
  | Some _ => d
  | None => d ++ [(k, [])]
  end.

(** [d[k].append(x)]: the list under [k] grows in place. *)
Fixpoint dict_append (d : Fingerprints) (k x : string) : Fingerprints :=
  match d with
  | [] => []
  | (k', v) :: d' =>
      if decide (k = k') then (k', v ++ [x]) :: d' else (k', v) :: dict_append d' k x
  end.

(** [del d[k]]. *)
Fixpoint dict_del (d : Fingerprints) (k : string) : Fingerprints :=
  match d with
  | [] => []
  | (k', v) :: d' => if decide (k = k') then d' else (k', v) :: dict_del d' k
  end.

(** [x in l] for a list of strings. *)
Definition list_contains (l : list string) (x : string) : bool :=
  bool_decide (x ∈ l).

(** [l.remove(x)]: drops the first item equal to [x]. *)
Fixpoint list_remove (l : list string) (x : string) : list string :=
  match l with
  | [] => []
  | y :: l' => if decide (x = y) then l' else y :: list_remove l' x
  end.

(* ================================================================== *)
(** * The class [AudioDedupe] *)

Definition DEFAULT_CACHE_ENABLED : bool := true.
Definition DEFAULT_CACHE_DIR (E : Env) : string :=
  path_join3 (home E) ".cache" "audiodedupe".
Definition DEFAULT_CACHE_FILE_NAME : string := "audiodedupe_cache.json".
Definition DEFAULT_FINGERPRINT_CMD : string := "fpcalc".
Definition DEFAULT_FINGERPRINT_CMD_ARGS : list string := ["-json"].
Definition DEFAULT_FINGERPRINT_CMD_TIMEOUT : Z := 10.
Definition DEFAULT_CONCURRENT_PROCESSES (E : Env) : Z := cpu_count E.

Record AudioDedupe : Type := mkAudioDedupe {
  cacheEnabled : bool;
  cacheDir : string;
  cacheFile : string;
  filesFilter : Pattern;
  fingerprintCmd : string;
  fingerprintCmdArgs : list string;
  fingerprintCmdTimeout : Z;
  concurrentProcesses : Z;
  fingerprints : Fingerprints;                   (* forward: fingerprint -> files *)
  reverseFingerprints : gmap string string       (* reverse: file -> fingerprint *)
}.

Definition set_fingerprints (d : Fingerprints) (a : AudioDedupe) : AudioDedupe :=
  mkAudioDedupe (cacheEnabled a) (cacheDir a) (cacheFile a) (filesFilter a)
    (fingerprintCmd a) (fingerprintCmdArgs a) (fingerprintCmdTimeout a)
    (concurrentProcesses a) d (reverseFingerprints a).

Definition set_reverseFingerprints (r : gmap string string) (a : AudioDedupe)
  : AudioDedupe :=
  mkAudioDedupe (cacheEnabled a) (cacheDir a) (cacheFile a) (filesFilter a)
    (fingerprintCmd a) (fingerprintCmdArgs a) (fingerprintCmdTimeout a)
    (concurrentProcesses a) (fingerprints a) r.

(** A method runs on an instance in a world. *)
Record State : Type := mkState {
  self : AudioDedupe;
  world : World
}.

Definition on_self (f : AudioDedupe -> AudioDedupe) : Exec State unit :=
  modify (fun st => mkState (f (self st)) (world st)).

Definition in_world {A : Type} (m : Exec World A) : Exec State A :=
  fun st => let '(r, w) := m (world st) in (r, mkState (self st) w).

Definition _fingerprintCmdExists (E : Env) : Exec State bool :=
  s <- gets self ;; ret (which E (fingerprintCmd s)).

Definition loadCache : Exec State bool :=
  s <- gets self ;;
  w <- gets world ;;
  if negb (isfile (files w) (cacheFile s)) then ret false
  else
    try_except
      (doc <- in_world (read_json (cacheFile s)) ;;
       on_self (set_fingerprints doc))
      (fun ex => in_world (os_remove (cacheFile s))) ;;;
    ret true.

Definition writeCache : Exec State bool :=
  s <- gets self ;;
  w <- gets world ;;
  (if negb (isdir (files w) (cacheDir s))
   then in_world (os_makedirs (cacheDir s)) else ret tt) ;;;
  in_world (write_json (cacheFile s) (fingerprints s)) ;;;
  ret true.

(** The two loops of [_updateReverseFingerprints]. *)
Definition reverse_of_group (fingerprint : string) (group : list string)
    (rev : gmap string string) : gmap string string :=
  fold_left (fun rev fileName => <[fileName := fingerprint]> rev) group rev.

Definition reverse_of (d : Fingerprints) (rev : gmap string string)
  : gmap string string :=
  fold_left (fun rev '(fingerprint, group) => reverse_of_group fingerprint group rev)
            d rev.

Definition _updateReverseFingerprints : Exec State unit :=
  on_self (fun s =>
    set_reverseFingerprints (reverse_of (fingerprints s) (reverseFingerprints s)) s).

(** The keyword arguments of [AudioDedupe(...)]. *)
Record InitArgs : Type := mkInitArgs {
  arg_cacheEnabled : bool;
  arg_cacheDir : string;
  arg_filesFilter : Pattern;
  arg_fingerprintCmd : string;
  arg_fingerprintCmdArgs : list string;
  arg_fingerprintCmdTimeout : Z;
  arg_concurrentProcesses : Z
}.

(** The attribute assignments that open [__init__]. *)
Definition init_fields (a : InitArgs) : AudioDedupe :=
  {| cacheEnabled := arg_cacheEnabled a;
     cacheDir := arg_cacheDir a;
     cacheFile := path_join (arg_cacheDir a) DEFAULT_CACHE_FILE_NAME;
     filesFilter := arg_filesFilter a;
     fingerprintCmd := arg_fingerprintCmd a;
     fingerprintCmdArgs := arg_fingerprintCmdArgs a;
     fingerprintCmdTimeout := arg_fingerprintCmdTimeout a;
     concurrentProcesses := arg_concurrentProcesses a;
     fingerprints := [];
     reverseFingerprints := ∅ |}.

(** The rest of [__init__]. *)
Definition init_rest (E : Env) : Exec State unit :=
  found <- _fingerprintCmdExists E ;;
  if negb found then raise AudioDedupeException
  else
    s <- gets self ;;
    (if cacheEnabled s then (_ <- loadCache ;; ret tt) else ret tt) ;;;
    _updateReverseFingerprints.

(** Constructing an [AudioDedupe]: the instance, or the exception that left
    [__init__]; the world as construction left it. *)
Definition AudioDedupe_new (E : Env) (a : InitArgs) (w : World)
  : result AudioDedupe * World :=
  match init_rest E (mkState (init_fields a) w) with
  | (Return _, st) => (Return (self st), world st)
  | (Raise e, st) => (Raise e, world st)
  end.

(* ================================================================== *)
(** * Scanning *)

(** The dictionary a worker hands back for one file, by the three keys the
    coordinator reads. *)
Record ScanResult : Type := mkScanResult {
  file : string;
  fingerprint : string;
  success : bool
}.

(** The command line [scanFile] runs for [fileName]. *)
Definition provider_argv (s : AudioDedupe) (fileName : string) : list string :=
  [fingerprintCmd s] ++ fingerprintCmdArgs s ++ [fileName].
Arguments provider_argv : simpl never.

(** The body of [try:] in [scanFile].  The [while True:] around it runs once:
    every path through it returns, and [fileName] is never [None]. *)
Definition scanFile_try (E : Env) (fileName : string) : Exec State (option ScanResult) :=
  s <- gets self ;;
  proc <- in_world (popen E (provider_argv s fileName) (fingerprintCmdTimeout s)) ;;
  match proc with
  | PopenError => raise OSError
  | CommunicateTimeout => raise TimeoutExpired
  | Exited returncode out =>
      if negb (returncode =? 0)%Z then ret None
      else
        match out with
        | NotJson => raise JSONDecodeError
        | JsonOther => raise TypeError
        | JsonObject None => ret None
        | JsonObject (Some fp) =>
            on_self (fun s =>
              set_reverseFingerprints (<[fileName := fp]> (reverseFingerprints s)) s) ;;;
            ret (Some {| file := fileName; fingerprint := fp; success := true |})
        end
  end.

Definition scanFile (E : Env) (fileName : string) : Exec State (option ScanResult) :=
  s <- gets self ;;
  match reverseFingerprints s !! fileName with
  | Some fp => ret (Some {| file := fileName; fingerprint := fp; success := true |})
  | None => try_except (scanFile_try E fileName) (fun e => ret None)
  end.

(** The generator [_descend], run to its end. *)
Definition _descend (E : Env) (directory : string) : Exec State (list string) :=
  s <- gets self ;;
  w <- gets world ;;
  let directory := abspath E directory in
  let reFilter := filesFilter s in
  ret (flat_map
         (fun '(dirName, subdirList, fileList) =>
            map (fun fileName => path_join3 directory dirName fileName)
                (List.filter (re_match reFilter) fileList))
         (os_walk E (files w) directory)).

(** ** [multiprocessing.Pool.map] *)

Fixpoint mapM {S A B : Type} (f : A -> Exec S B) (l : list A) : Exec S (list B) :=
  match l with
  | [] => ret []
  | x :: l' => y <- f x ;; ys <- mapM f l' ;; ret (y :: ys)
  end.

(** [divmod(len, processes * 4)], one more when there is a remainder. *)
Definition chunksize (len : nat) (processes : Z) : nat :=
  let q := (Z.of_nat len / (processes * 4))%Z in
  let extra := (Z.of_nat len mod (processes * 4))%Z in
  Z.to_nat (if (extra =? 0)%Z then q else (q + 1)%Z).

(** [Pool._get_tasks]: the work cut into runs of [size] items. *)
Equations? get_tasks {A : Type} (it : list A) (size : nat) : list (list A)
  by wf (length it) lt :=
  get_tasks [] _ := [];
  get_tasks _ O := [];
  get_tasks (x :: it') (S n) := (x :: take n it') :: get_tasks (drop n it') (S n).
Proof. rewrite length_drop. simpl. lia. Qed.

(** A task runs in a worker process, on the copy of the bound method's
    instance that was pickled with it: the task reads the coordinator's
    attributes as they were, and what it assigns to its copy stays in the
    worker.  The world is the one world. *)
Definition in_worker {A : Type} (task : Exec State A) : Exec State A :=
  fun st => let '(r, st') := task st in (r, mkState (self st) (world st')).

(** [pool.map(func, iterable)] on a pool of [processes] workers: each task
    maps [func] over its run of items, one after the other on one copy; the
    results come back in the order of the items.  Tasks are listed here in
    the order they were cut; nothing below depends on the order in which
    workers get to them. *)
Definition pool_map {A B : Type} (processes : Z) (func : A -> Exec State B)
    (iterable : list A) : Exec State (list B) :=
  let tasks := get_tasks iterable (chunksize (length iterable) processes) in
  batches <- mapM (fun task => in_worker (mapM func task)) tasks ;;
  ret (concat batches).

(** The body of [for res in results:] in [scan]. *)
Definition merge_result (d : Fingerprints) (res : option ScanResult) : Fingerprints :=
  match res with
  | None => d
  | Some res =>
      if negb (success res) then d
      else
        let fileName := file res in
        let fingerprint := fingerprint res in
        if negb (truthy fileName && truthy fingerprint) then d
        else
          let d := dict_setdefault d fingerprint in
          if negb (list_contains (default [] (dict_get d fingerprint)) fileName)
          then dict_append d fingerprint fileName
          else d
  end.

Definition scan (E : Env) (directory : string) : Exec State unit :=
  s <- gets self ;;
  if (concurrentProcesses s <? 1)%Z then raise ValueError
  else
    candidates <- _descend E directory ;;
    results <- pool_map (concurrentProcesses s) (scanFile E) candidates ;;
    on_self (fun s => set_fingerprints (fold_left merge_result results (fingerprints s)) s) ;;;
    if cacheEnabled s then (_ <- writeCache ;; ret tt) else ret tt.

(* ================================================================== *)
(** * Pruning *)

(** [for fileName in files:] with its body.  A list iterator is an index
    into the list it walks; the body may shorten that list under it. *)
Equations? prune_files (fs : gmap string Node) (i : nat) (group : list string)
    (rev : gmap string string) : list string * gmap string string
  by wf (length group - i)%nat lt :=
  prune_files fs i group rev with inspect (group !! i) := {
    | exist _ None _ => (group, rev)
    | exist _ (Some fileName) Hi =>
        if negb (isfile fs fileName)
        then prune_files fs (S i) (list_remove group fileName)
               (if bool_decide (is_Some (rev !! fileName))
                then delete fileName rev else rev)
        else prune_files fs (S i) group rev }.
Proof.
  all: apply lookup_lt_Some in Hi.
  - assert (length (list_remove group fileName) <= length group)%nat; [|lia].
    clear. induction group as [|y l IH]; simpl; [lia|].
    destruct (decide (fileName = y)); simpl; lia.
  - lia.
Qed.

(** [for fingerprint, files in self.fingerprints.items():] with its body.  A
    dictionary iterator is a position [pos] among the entries and the number
    [used] of entries the dictionary had when the loop began; asked for the
    next entry of a dictionary of another size it raises [RuntimeError].
    [files] is the very list the dictionary holds, so what the inner loop
    removes is removed in the dictionary. *)
Equations? prune_groups (fs : gmap string Node) (pos used : nat) (d : Fingerprints)
    (rev : gmap string string) : result unit * Fingerprints * gmap string string
  by wf (length d - pos)%nat lt :=
  prune_groups fs pos used d rev with decide (length d = used) := {
    | right _ => (Raise RuntimeError, d, rev)
    | left _ with inspect (d !! pos) := {
        | exist _ None _ => (Return tt, d, rev)
        | exist _ (Some (fingerprint, group)) Hpos with prune_files fs 0 group rev := {
            | ([], rev') =>
                prune_groups fs (S pos) used
                  (dict_del (<[pos := (fingerprint, [])]> d) fingerprint) rev'
            | (group', rev') =>
                prune_groups fs (S pos) used (<[pos := (fingerprint, group')]> d) rev' } } }.
Proof.
  all: apply lookup_lt_Some in Hpos.
  - assert (forall (l : Fingerprints) k, length (dict_del l k) <= length l)%nat as Hle.
    { clear. intros l k. induction l as [|[k' v] l IH]; simpl; [lia|].
      destruct (decide (k = k')); simpl; lia. }
    match goal with
    | |- context [dict_del ?l ?k] => specialize (Hle l k)
    end.
    rewrite length_insert in Hle. lia.
  - rewrite length_insert. lia.
Qed.

Definition pruneFingerprints : Exec State unit :=
  (fun st =>
     let s := self st in
     let '(r, d, rev) :=
       prune_groups (files (world st)) 0 (length (fingerprints s))
                    (fingerprints s) (reverseFingerprints s) in
     (r, mkState (set_reverseFingerprints rev (set_fingerprints d s)) (world st))) ;;;
  s <- gets self ;;
  if cacheEnabled s then (_ <- writeCache ;; ret tt) else ret tt.

(* ================================================================== *)
(** * The command line

    [argparse] splits the command line; what reaches the program is the
    sequence of options given, each with its converted value, and the
    positional directories.  An option's action decides what its presence
    does to the namespace, and what the namespace holds in its absence. *)

Inductive FlagAction : Type :=
| store_true
| store_false.

(** The value a flag's destination holds when the flag is not given. *)
Definition flag_default (a : FlagAction) : bool :=
  match a with
  | store_true => false
  | store_false => true
  end.

(** The value the flag stores when it is given. *)
Definition flag_const (a : FlagAction) : bool :=
  match a with
  | store_true => true
  | store_false => false
  end.

Inductive CliOption : Type :=
| opt_files_filter (v : Pattern)            (* [----files-filter] *)
| opt_disable_cache                         (* [--disable-cache] *)
| opt_cache_dir (v : string)                (* [--cache-dir] *)
| opt_reset_cache                           (* [--reset-cache] *)
| opt_fingerprint_cmd (v : string)          (* [--fingerprint-cmd] *)
| opt_fingerprint_cmd_args (v : string)     (* [--fingerprint-cmd-args] *)
| opt_fingerprint_cmd_timeout (v : Z)       (* [--fingerprint-cmd-timeout] *)
| opt_concurrent_processes (v : Z).         (* [--concurrent-processes] *)

Record Namespace : Type := mkNamespace {
  dirs : list string;
  files_filter : Pattern;
  disable_cache : bool;
  cache_dir : string;
  reset_cache : bool;
  fingerprint_cmd : string;
  fingerprint_cmd_args : list string;
  fingerprint_cmd_timeout : Z;
  concurrent_processes : Z
}.

(** The namespace before any option is read: every [add_argument]'s default. *)
Definition parser_defaults (E : Env) (positional : list string) : Namespace :=
  {| dirs := positional;
     files_filter := DEFAULT_FILES_FILTER;
     disable_cache := flag_default store_false;
     cache_dir := DEFAULT_CACHE_DIR E;
     reset_cache := flag_default store_true;
     fingerprint_cmd := DEFAULT_FINGERPRINT_CMD;
     fingerprint_cmd_args := DEFAULT_FINGERPRINT_CMD_ARGS;
     fingerprint_cmd_timeout := DEFAULT_FINGERPRINT_CMD_TIMEOUT;
     concurrent_processes := DEFAULT_CONCURRENT_PROCESSES E |}.

(** One option's action on the namespace. *)
Definition apply_option (ns : Namespace) (o : CliOption) : Namespace :=
  match o with
  | opt_files_filter v =>
      mkNamespace (dirs ns) v (disable_cache ns) (cache_dir ns) (reset_cache ns)
        (fingerprint_cmd ns) (fingerprint_cmd_args ns) (fingerprint_cmd_timeout ns)
        (concurrent_processes ns)
  | opt_disable_cache =>
      mkNamespace (dirs ns) (files_filter ns) (flag_const store_false) (cache_dir ns)
        (reset_cache ns) (fingerprint_cmd ns) (fingerprint_cmd_args ns)
        (fingerprint_cmd_timeout ns) (concurrent_processes ns)
  | opt_cache_dir v =>
      mkNamespace (dirs ns) (files_filter ns) (disable_cache ns) v (reset_cache ns)
        (fingerprint_cmd ns) (fingerprint_cmd_args ns) (fingerprint_cmd_timeout ns)
        (concurrent_processes ns)
  | opt_reset_cache =>
      mkNamespace (dirs ns) (files_filter ns) (disable_cache ns) (cache_dir ns)
        (flag_const store_true) (fingerprint_cmd ns) (fingerprint_cmd_args ns)
        (fingerprint_cmd_timeout ns) (concurrent_processes ns)
  | opt_fingerprint_cmd v =>
      mkNamespace (dirs ns) (files_filter ns) (disable_cache ns) (cache_dir ns)
        (reset_cache ns) v (fingerprint_cmd_args ns) (fingerprint_cmd_timeout ns)
        (concurrent_processes ns)
  | opt_fingerprint_cmd_args v =>
      mkNamespace (dirs ns) (files_filter ns) (disable_cache ns) (cache_dir ns)
        (reset_cache ns) (fingerprint_cmd ns) (fingerprint_cmd_args ns ++ [v])
        (fingerprint_cmd_timeout ns) (concurrent_processes ns)
  | opt_fingerprint_cmd_timeout v =>
      mkNamespace (dirs ns) (files_filter ns) (disable_cache ns) (cache_dir ns)
        (reset_cache ns) (fingerprint_cmd ns) (fingerprint_cmd_args ns) v
        (concurrent_processes ns)
  | opt_concurrent_processes v =>
      mkNamespace (dirs ns) (files_filter ns) (disable_cache ns) (cache_dir ns)
        (reset_cache ns) (fingerprint_cmd ns) (fingerprint_cmd_args ns)
        (fingerprint_cmd_timeout ns) v
  end.

(** [parser.parse_args()]. *)
Definition parse_args (E : Env) (given : list CliOption) (positional : list string)
  : Namespace :=
  fold_left apply_option given (parser_defaults E positional).

(** The dictionary [adArgs] of the main block. *)
Definition adArgs (args : Namespace) : InitArgs :=
  {| arg_cacheEnabled := disable_cache args;   (* flag is a negation *)
     arg_cacheDir := cache_dir args;
     arg_filesFilter := files_filter args;
     arg_fingerprintCmd := fingerprint_cmd args;
     arg_fingerprintCmdArgs := fingerprint_cmd_args args;
     arg_fingerprintCmdTimeout := fingerprint_cmd_timeout args;
     arg_concurrentProcesses := concurrent_processes args |}.

(** [if args.reset_cache: ...] of the main block. *)
Definition reset_cache_file (args : Namespace) : Exec World unit :=
  if reset_cache args
  then
    let cacheFile := path_join (cache_dir args) DEFAULT_CACHE_FILE_NAME in
    fun w => if isfile (files w) cacheFile then os_remove cacheFile w else (Return tt, w)
  else ret tt.

(** The main block up to the instance it scans with. *)
Definition main_instance (E : Env) (given : list CliOption) (positional : list string)
    (w : World) : result AudioDedupe * World :=
  let args := parse_args E given positional in
  match reset_cache_file args w with
  | (Return _, w') => AudioDedupe_new E (adArgs args) w'
  | (Raise e, w') => (Raise e, w')
  end.

(* ================================================================== *)
(** * The vocabulary of the properties *)

(** [p] is a member of the group of [f]. *)
Definition listed_under (d : Fingerprints) (p f : string) : Prop :=
  ∃ group, (f, group) ∈ d ∧ p ∈ group.

Definition listed (d : Fingerprints) (p : string) : Prop :=
  ∃ f, listed_under d p f.

(** How often [forward[f]] holds [p]. *)
Definition occurrences (d : Fingerprints) (p f : string) : nat :=
  length (List.filter (fun x => bool_decide (x = p)) (default [] (dict_get d f))).

(** The index invariant, in the specification's words: every member of
    [forward[f]] is sent to [f] by [reverse], and every path of [reverse] is a
    member of the group [reverse] sends it to. *)
Definition index_invariant (forward : Fingerprints) (reverse : gmap string string)
  : Prop :=
  (∀ f p, listed_under forward p f → reverse !! p = Some f) ∧
  (∀ p f, reverse !! p = Some f → listed_under forward p f).

(** The paths one scan of [directory] works through. *)
Definition candidates (E : Env) (st : State) (directory : string) : list string :=
  match _descend E directory st with
  | (Return paths, _) => paths
  | (Raise _, _) => []
  end.

(** What the command does for [fileName], run by [s] on the filesystem [fs]. *)
Definition run_for (E : Env) (s : AudioDedupe) (fs : gmap string Node)
    (fileName : string) : ProcOutcome :=
  run_cmd E fs (provider_argv s fileName) (fingerprintCmdTimeout s).

Definition provider (E : Env) (st : State) (fileName : string) : ProcOutcome :=
  run_for E (self st) (files (world st)) fileName.

(** A worker's state: the coordinator's instance [s0] but for the reverse
    mapping [r] of the worker's copy, on the filesystem [fs], with [log] the
    commands spawned so far. *)
Definition worker_state (s0 : AudioDedupe) (fs : gmap string Node)
    (r : gmap string string) (log : list (list string)) : State :=
  mkState (set_reverseFingerprints r s0) (mkWorld fs log).

(** The ways an invocation fails: the process cannot be started, it times
    out, it exits non-zero, its output is no JSON object, or the object has
    no fingerprint field. *)
Definition provider_failed (o : ProcOutcome) : bool :=
  match o with
  | PopenError | CommunicateTimeout => true
  | Exited returncode out =>
      negb (returncode =? 0)%Z ||
      match out with
      | JsonObject (Some _) => false
      | _ => true
      end
  end.

(* ================================================================== *)
(** * A small world to run the program in *)

(** A music directory [/m] with two files of equal fingerprint and a text
    file, a directory [/n] whose files the command cannot fingerprint (one
    prints an empty fingerprint, one times out, one makes it exit 1), and a
    directory [/k] with two names that differ in letter case only. *)
Definition demo_env : Env :=
  {| which := fun cmd => bool_decide (cmd = "fpcalc");
     run_cmd := fun fs argv timeout =>
       match last argv with
       | Some "/m/a.mp3" => Exited 0 (JsonObject (Some "X"))
       | Some "/m/b.mp3" => Exited 0 (JsonObject (Some "X"))
       | Some "/n/e.mp3" => Exited 0 (JsonObject (Some ""))
       | Some "/n/t.ogg" => CommunicateTimeout
       | _ => Exited 1 NotJson
       end;
     os_walk := fun fs directory =>
       if bool_decide (directory = "/m")
       then [("/m", [], ["a.mp3"; "b.mp3"; "notes.txt"])]
       else if bool_decide (directory = "/n")
       then [("/n", [], ["e.mp3"; "t.ogg"; "z.wav"])]
       else if bool_decide (directory = "/k")
       then [("/k", [], ["a.mp3"; "A.MP3"])]
       else [];
     abspath := fun directory => directory;
     cpu_count := 2;
     home := "/home/u" |}.

Definition demo_args (cache : bool) : InitArgs :=
  {| arg_cacheEnabled := cache;
     arg_cacheDir := "/c";
     arg_filesFilter := DEFAULT_FILES_FILTER;
     arg_fingerprintCmd := DEFAULT_FINGERPRINT_CMD;
     arg_fingerprintCmdArgs := DEFAULT_FINGERPRINT_CMD_ARGS;
     arg_fingerprintCmdTimeout := DEFAULT_FINGERPRINT_CMD_TIMEOUT;
     arg_concurrentProcesses := 2 |}.

(** An empty disk but for the cache directory. *)
Definition demo_world : World := mkWorld {[ "/c" := Directory ]} [].

(** A fresh instance, nothing indexed. *)
Definition demo_start (cache : bool) : State :=
  mkState (init_fields (demo_args cache)) demo_world.

(** A result as [scanFile] returns it for a file with an empty fingerprint. *)
Definition demo_empty_result : option ScanResult :=
  Some (mkScanResult "/n/e.mp3" "" true).

(** The index the scan of [/m] leaves, and a disk whose cache file is
    damaged. *)
Definition demo_scanned : State := (scan demo_env "/m" (demo_start true)).2.

Definition demo_corrupt_world : World :=
  mkWorld {[ "/c" := Directory;
             "/c/audiodedupe_cache.json" := RegularFile Unparsable ]} [].



(** Is [--disable-cache] among the options given? *)
Definition disable_cache_given (given : list CliOption) : bool :=
  existsb (fun o => match o with opt_disable_cache => true | _ => false end) given.

(** A later run: the cache of an earlier one lists three files under one
    fingerprint, and two of them have since been deleted. *)
Definition stale_world : World :=
  mkWorld {[ "/c" := Directory;
             "/c/audiodedupe_cache.json" :=
               RegularFile (JsonDocument [("X", ["/m/a.mp3"; "/m/b.mp3"; "/m/c.mp3"])]);
             "/m/c.mp3" := RegularFile Unparsable ]} [].

(** The same, with a cache that lists one file, now deleted. *)
Definition emptied_world : World :=
  mkWorld {[ "/c" := Directory;
             "/c/audiodedupe_cache.json" :=
               RegularFile (JsonDocument [("X", ["/m/a.mp3"])]) ]} [].

(** Does the inner loop empty this group?  Only a group with no member, or
    with one member that is not on the disk. *)
Definition emptied (fs : gmap string Node) (group : list string) : bool :=
  match group with
  | [] => true
  | [p] => negb (isfile fs p)
  | _ => false
  end.

(** What the inner loop leaves of a group. *)
Definition pruned_group (fs : gmap string Node) (group : list string) : list string :=
  (prune_files fs 0 group ∅).1.

(** An index of four files under two fingerprints, on a disk where one of
    them, [/m/b.mp3], listed between two that are there, has been deleted. *)
Definition gap_world : World :=
  mkWorld {[ "/c" := Directory;
             "/m/a.mp3" := RegularFile Unparsable;
             "/m/c.mp3" := RegularFile Unparsable;
             "/m/d.mp3" := RegularFile Unparsable ]} [].

Definition gap_index : Fingerprints :=
  [("X", ["/m/a.mp3"; "/m/b.mp3"; "/m/c.mp3"]); ("Y", ["/m/d.mp3"])].

Definition gap_state : State :=
  mkState (set_reverseFingerprints (reverse_of gap_index ∅)
             (set_fingerprints gap_index (init_fields (demo_args false))))
          gap_world.

(** A worker's copy [r] of the reverse mapping [rev0] of the coordinator:
    it holds what [rev0] holds, and besides only fingerprints the command
    printed. *)
Definition copy_of (E : Env) (s0 : AudioDedupe) (fs : gmap string Node)
    (rev0 r : gmap string string) : Prop :=
  (∀ q f, rev0 !! q = Some f → r !! q = Some f) ∧
  (∀ q f, r !! q = Some f →
     rev0 !! q = Some f ∨ run_for E s0 fs q = Exited 0 (JsonObject (Some f))).


(** The instance [s] has the configuration the arguments [a] ask for. *)
Definition configured (a : InitArgs) (s : AudioDedupe) : Prop :=
  cacheEnabled s = arg_cacheEnabled a ∧
  cacheDir s = arg_cacheDir a ∧
  cacheFile s = path_join (arg_cacheDir a) DEFAULT_CACHE_FILE_NAME ∧
  filesFilter s = arg_filesFilter a ∧
  fingerprintCmd s = arg_fingerprintCmd a ∧
  fingerprintCmdArgs s = arg_fingerprintCmdArgs a ∧
  fingerprintCmdTimeout s = arg_fingerprintCmdTimeout a ∧
  concurrentProcesses s = arg_concurrentProcesses a.

(* ================================================================== *)
(** * Reporting, and the main block *)










(** Is [--reset-cache] among the options given? *)
Definition reset_cache_given (given : list CliOption) : bool :=
  existsb (fun o => match o with opt_reset_cache => true | _ => false end) given.

(** The values given with [--fingerprint-cmd-args], in the order given. *)
Definition fingerprint_cmd_args_given (given : list CliOption) : list string :=
  flat_map (fun o => match o with opt_fingerprint_cmd_args v => [v] | _ => [] end) given.

(** No character of [s] is a newline. *)
Fixpoint no_newline (s : string) : bool :=
  match s with
  | EmptyString => true
  | String c s' => negb (ascii_eqb c newline) && no_newline s'
  end.

(** What a pattern matches, read off the pattern: [Matches ic first r u rest]
    says that [r] matches exactly [u] where [rest] follows [u] in the name,
    and [first] that nothing precedes [u].  [re_match] is checked against
    it below. *)
Inductive Matches (ic : bool) : bool -> regex -> string -> string -> Prop :=
| M_Eps first rest : Matches ic first Eps "" rest
| M_Lit first a c rest :
    lit_matches ic a c = true -> Matches ic first (Lit a) (String c "") rest
| M_Dot first c rest :
    ascii_eqb c newline = false -> Matches ic first Dot (String c "") rest
| M_Bol rest : Matches ic true Bol "" rest
| M_Eol first rest : at_end rest = true -> Matches ic first Eol "" rest
| M_Cat first r1 r2 u1 u2 rest :
    Matches ic first r1 u1 (u2 +:+ rest) ->
    Matches ic (first && negb (truthy u1)) r2 u2 rest ->
    Matches ic first (Cat r1 r2) (u1 +:+ u2) rest
| M_AltL first r1 r2 u rest :
    Matches ic first r1 u rest -> Matches ic first (Alt r1 r2) u rest
| M_AltR first r1 r2 u rest :
    Matches ic first r2 u rest -> Matches ic first (Alt r1 r2) u rest
| M_StarNil first r rest : Matches ic first (Star r) "" rest
| M_StarCons first r c u1 u2 rest :
    Matches ic first r (String c u1) (u2 +:+ rest) ->
    Matches ic false (Star r) u2 rest ->
    Matches ic first (Star r) (String c u1 +:+ u2) rest.

(** A command that fingerprints a file holding audio data (text that is no
    JSON) and exits 1 on a file that holds anything else, with a walker that
    finds [a.mp3] in [/m] as long as it is a file; a disk with such an audio
    file; and what becomes of a state when, between two scans, something
    else overwrites that file with a JSON text. *)
Definition decoder_env : Env :=
  {| which := fun cmd => bool_decide (cmd = "fpcalc");
     run_cmd := fun fs argv timeout =>
       match last argv with
       | Some p =>
           match fs !! p with
           | Some (RegularFile Unparsable) => Exited 0 (JsonObject (Some "X"))
           | _ => Exited 1 NotJson
           end
       | None => Exited 1 NotJson
       end;
     os_walk := fun fs directory =>
       if bool_decide (directory = "/m") && isfile fs "/m/a.mp3"
       then [("/m", [], ["a.mp3"])]
       else [];
     abspath := fun directory => directory;
     cpu_count := 2;
     home := "/home/u" |}.

Definition audio_world : World :=
  mkWorld {[ "/c" := Directory; "/m/a.mp3" := RegularFile Unparsable ]} [].

Definition audio_start : State := mkState (init_fields (demo_args true)) audio_world.

Definition overwritten (st : State) : State :=
  mkState (self st)
    (mkWorld (<["/m/a.mp3" := RegularFile (JsonDocument [])]> (files (world st)))
             (spawned (world st))).

(* ================================================================== *)
(** * Records, dictionaries and the reverse mapping: basic facts *)

Lemma set_reverse_id s : set_reverseFingerprints (reverseFingerprints s) s = s.
Proof. by destruct s. Qed.

Lemma set_fingerprints_id s : set_fingerprints (fingerprints s) s = s.
Proof. by destruct s. Qed.

Lemma provider_argv_set_reverse r s p :
  provider_argv (set_reverseFingerprints r s) p = provider_argv s p.
Proof. reflexivity. Qed.

Lemma worker_state_start st :
  st = worker_state (self st) (files (world st)) (reverseFingerprints (self st))
         (spawned (world st)).
Proof. unfold worker_state. rewrite set_reverse_id. by destruct st as [? []]. Qed.

Lemma listed_under_setdefault d k p f :
  listed_under (dict_setdefault d k) p f → listed_under d p f.
Proof.
  unfold dict_setdefault. destruct (dict_get d k); [done|].
  intros (group & Hin & Hp). apply elem_of_app in Hin as [Hin|Hin].
  - by exists group.
  - apply list_elem_of_singleton in Hin. injection Hin as -> ->. by apply elem_of_nil in Hp.
Qed.

Lemma listed_under_append d k x p f :
  listed_under (dict_append d k x) p f → listed_under d p f ∨ (p = x ∧ f = k).
Proof.
  induction d as [|[k' v] d IH]; simpl.
  - intros (group & Hin & _). by apply elem_of_nil in Hin.
  - destruct (decide (k = k')) as [<-|Hne]; intros (group & Hin & Hp).
    + apply elem_of_cons in Hin as [Heq|Hin].
      * injection Heq as -> ->. apply elem_of_app in Hp as [Hp|Hp].
        -- left. exists v. split; [left|done].
        -- apply list_elem_of_singleton in Hp. by right.
      * left. exists group. split; [by right|done].
    + apply elem_of_cons in Hin as [Heq|Hin].
      * injection Heq as -> ->. left. exists v. split; [left|done].
      * destruct IH as [(g & Hg & Hpg)|?]; [by exists group| |by right].
        left. exists g. split; [by right|done].
Qed.

(** What merging one result can add to the forward mapping. *)
Lemma merge_result_listed d res p f :
  listed_under (merge_result d res) p f →
  listed_under d p f ∨
  ∃ x, res = Some x ∧ success x = true ∧ file x = p ∧ fingerprint x = f ∧
       truthy p = true ∧ truthy f = true.
Proof.
  destruct res as [x|]; simpl; [|by left].
  destruct (success x) eqn:Hs; simpl; [|by left].
  destruct (truthy (file x)) eqn:Hp; simpl; [|by left].
  destruct (truthy (fingerprint x)) eqn:Hf; simpl; [|by left].
  destruct (negb _).
  - intros H. apply listed_under_append in H as [H|[-> ->]].
    + left. by eapply listed_under_setdefault.
    + right. by exists x.
  - intros H. left. by eapply listed_under_setdefault.
Qed.

Lemma merge_results_listed results : ∀ d p f,
  listed_under (fold_left merge_result results d) p f →
  listed_under d p f ∨
  ∃ x, Some x ∈ results ∧ success x = true ∧ file x = p ∧ fingerprint x = f ∧
       truthy p = true ∧ truthy f = true.
Proof.
  induction results as [|res results IH]; simpl; intros d p f H; [by left|].
  apply IH in H as [H|(x & Hx & ?)].
  - apply merge_result_listed in H as [H|(x & -> & ?)]; [by left|].
    right. exists x. split; [left|done].
  - right. exists x. split; [by right|done].
Qed.

(** ** Cutting the work into tasks *)

Lemma concat_get_tasks {A : Type} (l : list A) (n : nat) :
  concat (get_tasks l n) = match n with O => [] | S _ => l end.
Proof.
  funelim (get_tasks l n); simp get_tasks; simpl; try done.
  - by destruct size.
  - match goal with IH : concat _ = _ |- _ => rewrite IH end.
    by rewrite take_drop.
Qed.

Lemma chunksize_pos (len : nat) (processes : Z) :
  (1 <= processes)%Z → len ≠ O → chunksize len processes ≠ O.
Proof.
  intros Hp Hlen. unfold chunksize.
  assert (0 < processes * 4)%Z as Hd by lia.
  pose proof (Z.div_mod (Z.of_nat len) (processes * 4) ltac:(lia)) as Hdm.
  pose proof (Z.div_pos (Z.of_nat len) (processes * 4) ltac:(lia) Hd) as Hq.
  destruct (Z.eqb_spec (Z.of_nat len mod (processes * 4)) 0) as [H0|H0]; [|lia].
  rewrite H0 in Hdm.
  assert (0 < Z.of_nat len / (processes * 4))%Z by nia. lia.
Qed.

(* ================================================================== *)
(** * One file, one task, one pool *)

Section Scanning.
Variable E : Env.

Lemma scanFile_hit st p f :
  reverseFingerprints (self st) !! p = Some f →
  scanFile E p st = (Return (Some (mkScanResult p f true)), st).
Proof.
  intros H. unfold scanFile, bind, gets, ret. simpl. by rewrite H.
Qed.

(** One call of [scanFile] in a worker: it returns, never raises; it keeps
    what the copy's reverse mapping held and adds at most the file it was
    given, under the fingerprint the command printed; it spawns the command
    exactly when the file is not in the copy's reverse mapping. *)
Lemma scanFile_step s0 fs r log p :
  ∃ res r' new,
    scanFile E p (worker_state s0 fs r log)
      = (Return res, worker_state s0 fs r' (log ++ new)) ∧
    (∀ q f, r !! q = Some f → r' !! q = Some f) ∧
    (∀ q f, r' !! q = Some f →
       r !! q = Some f ∨ (q = p ∧ run_for E s0 fs p = Exited 0 (JsonObject (Some f)))) ∧
    (∀ x, res = Some x → file x = p ∧ success x = true ∧ r' !! p = Some (fingerprint x)) ∧
    (is_Some (r !! p) → new = []) ∧
    (r !! p = None → new = [provider_argv s0 p]).
Proof.
  destruct (r !! p) as [f|] eqn:Hr.
  - exists (Some (mkScanResult p f true)), r, [].
    rewrite app_nil_r. split_and!; try done; eauto.
    + by apply scanFile_hit.
    + by intros x [= <-].
  - assert (∀ new : list (list string),
      new = [provider_argv s0 p] →
      (∀ q f, r !! q = Some f → r !! q = Some f) ∧
      (∀ q f, r !! q = Some f →
         r !! q = Some f ∨ (q = p ∧ run_for E s0 fs p = Exited 0 (JsonObject (Some f)))) ∧
      (∀ x, @None ScanResult = Some x →
         file x = p ∧ success x = true ∧ r !! p = Some (fingerprint x)) ∧
      (is_Some (@None string) → new = []) ∧
      (@None string = None → new = [provider_argv s0 p])) as Hfail.
    { intros new ->. split_and!; eauto; try done. }
    unfold scanFile, bind, gets, ret, try_except, scanFile_try, bind, gets, in_world,
      popen, worker_state.
    cbn. rewrite Hr. cbn.
    rewrite provider_argv_set_reverse. unfold run_for in *.
    destruct (run_cmd E fs (provider_argv s0 p) (fingerprintCmdTimeout s0))
      as [| |rc out] eqn:Hrun; simpl.
    1,2: by exists None, r, [provider_argv s0 p]; split; [|apply Hfail].
    destruct (rc =? 0)%Z eqn:Hrc; simpl.
    2: by exists None, r, [provider_argv s0 p]; split; [|apply Hfail].
    apply Z.eqb_eq in Hrc. subst rc.
    destruct out as [| |[fp|]]; simpl.
    1,2,4: by exists None, r, [provider_argv s0 p]; split; [|apply Hfail].
    exists (Some (mkScanResult p fp true)), (<[p := fp]> r), [provider_argv s0 p].
    split_and!; try done.
    + intros q f Hq. rewrite lookup_insert_ne; [done|]. intros ->. congruence.
    + intros q f Hq. destruct (decide (p = q)) as [->|Hne].
      * rewrite lookup_insert_eq in Hq. injection Hq as <-. by right.
      * rewrite lookup_insert_ne in Hq; [by left|done].
    + intros x [= <-]. simpl. by rewrite lookup_insert_eq.
Qed.

(** One task: [scanFile] over a run of files, on one copy. *)
Lemma worker_task s0 fs chunk : ∀ r log,
  ∃ results r' new,
    mapM (scanFile E) chunk (worker_state s0 fs r log)
      = (Return results, worker_state s0 fs r' (log ++ new)) ∧
    (∀ q f, r !! q = Some f → r' !! q = Some f) ∧
    (∀ q f, r' !! q = Some f →
       r !! q = Some f ∨
       (q ∈ chunk ∧ run_for E s0 fs q = Exited 0 (JsonObject (Some f)))) ∧
    (∀ x, Some x ∈ results →
       file x ∈ chunk ∧ success x = true ∧ r' !! file x = Some (fingerprint x)) ∧
    ((∀ q, q ∈ chunk → is_Some (r !! q)) → new = []) ∧
    (∀ q, q ∈ chunk → r !! q = None → provider_argv s0 q ∈ new).
Proof.
  induction chunk as [|p chunk IH]; intros r log.
  - exists [], r, []. rewrite app_nil_r. split_and!; try done; eauto.
    + intros x Hx. by apply elem_of_nil in Hx.
    + intros q Hq. by apply elem_of_nil in Hq.
  - destruct (scanFile_step s0 fs r log p)
      as (res & r1 & new1 & Hrun1 & Hgrow1 & Hsound1 & Hres1 & Hhit1 & Hmiss1).
    destruct (IH r1 (log ++ new1))
      as (results & r2 & new2 & Hrun2 & Hgrow2 & Hsound2 & Hres2 & Hhit2 & Hmiss2).
    exists (res :: results), r2, (new1 ++ new2).
    split_and!.
    + simpl. unfold bind at 1. rewrite Hrun1. unfold bind at 1. rewrite Hrun2.
      unfold ret. by rewrite app_assoc.
    + eauto.
    + intros q f Hq. apply Hsound2 in Hq as [Hq|[Hq ?]].
      * apply Hsound1 in Hq as [Hq|[-> ?]]; [by left|].
        right. split; [left|done].
      * right. split; [by right|done].
    + intros x Hx. apply elem_of_cons in Hx as [Hx|Hx].
      * symmetry in Hx. apply Hres1 in Hx as (<- & ? & ?).
        split_and!; [left|done|eauto].
      * apply Hres2 in Hx as (? & ? & ?). split_and!; [by right|done|done].
    + intros Hall. rewrite Hhit1, Hhit2; [done| |].
      * intros q Hq. destruct (Hall q) as [f Hf]; [by right|]. eauto.
      * apply Hall. left.
    + intros q Hq Hnone. apply elem_of_app.
      destruct (decide (q = p)) as [->|Hne].
      * left. rewrite Hmiss1; [left|done].
      * right. apply elem_of_cons in Hq as [?|Hq]; [done|].
        apply Hmiss2; [done|].
        destruct (r1 !! q) as [f|] eqn:Hr1; [|done].
        apply Hsound1 in Hr1 as [?|[? _]]; congruence.
Qed.

(** All the tasks of one [pool.map]: each starts from the coordinator's
    reverse mapping, and the coordinator's instance is what it was. *)
Lemma pool_tasks s0 fs tasks : ∀ log,
  ∃ batches new,
    mapM (fun task => in_worker (mapM (scanFile E) task)) tasks
         (mkState s0 (mkWorld fs log))
      = (Return batches, mkState s0 (mkWorld fs (log ++ new))) ∧
    (∀ x, Some x ∈ concat batches →
       file x ∈ concat tasks ∧ success x = true ∧
       (reverseFingerprints s0 !! file x = Some (fingerprint x) ∨
        run_for E s0 fs (file x) = Exited 0 (JsonObject (Some (fingerprint x))))) ∧
    ((∀ q, q ∈ concat tasks → is_Some (reverseFingerprints s0 !! q)) → new = []) ∧
    (∀ q, q ∈ concat tasks → reverseFingerprints s0 !! q = None →
       provider_argv s0 q ∈ new).
Proof.
  induction tasks as [|task tasks IH]; intros log.
  - exists [], []. rewrite app_nil_r. split_and!; try done.
    + intros x Hx. by apply elem_of_nil in Hx.
    + intros q Hq. by apply elem_of_nil in Hq.
  - destruct (worker_task s0 fs task (reverseFingerprints s0) log)
      as (results & r' & new1 & Hrun1 & _ & Hsound1 & Hres1 & Hhit1 & Hmiss1).
    destruct (IH (log ++ new1)) as (batches & new2 & Hrun2 & Hres2 & Hhit2 & Hmiss2).
    exists (results :: batches), (new1 ++ new2). split_and!.
    + simpl. unfold bind at 1, in_worker at 1.
      replace (mkState s0 (mkWorld fs log))
        with (worker_state s0 fs (reverseFingerprints s0) log)
        by (unfold worker_state; by rewrite set_reverse_id).
      rewrite Hrun1. cbn [self world worker_state files spawned].
      rewrite set_reverse_id.
      unfold bind at 1. rewrite Hrun2. unfold ret. by rewrite app_assoc.
    + simpl. intros x Hx. apply elem_of_app in Hx as [Hx|Hx].
      * apply Hres1 in Hx as (Hin & ? & Hr'). split_and!; [|done|].
        -- apply elem_of_app. by left.
        -- apply Hsound1 in Hr' as [?|[_ ?]]; [by left|by right].
      * apply Hres2 in Hx as (Hin & ? & ?). split_and!; [|done|done].
        apply elem_of_app. by right.
    + simpl. intros Hall. rewrite Hhit1, Hhit2; [done| |].
      * intros q Hq. apply Hall, elem_of_app. by right.
      * intros q Hq. apply Hall, elem_of_app. by left.
    + simpl. intros q Hq Hnone. apply elem_of_app.
      apply elem_of_app in Hq as [Hq|Hq]; [left|right]; eauto.
Qed.

(** [pool.map(self.scanFile, paths)] as the coordinator sees it. *)
Lemma pool_map_scanFile st (paths : list string) :
  ∃ results new,
    pool_map (concurrentProcesses (self st)) (scanFile E) paths st
      = (Return results,
         mkState (self st) (mkWorld (files (world st)) (spawned (world st) ++ new))) ∧
    (∀ x, Some x ∈ results →
       file x ∈ paths ∧ success x = true ∧
       (reverseFingerprints (self st) !! file x = Some (fingerprint x) ∨
        provider E st (file x) = Exited 0 (JsonObject (Some (fingerprint x))))) ∧
    ((∀ q, q ∈ paths → is_Some (reverseFingerprints (self st) !! q)) → new = []) ∧
    ((1 <= concurrentProcesses (self st))%Z →
     ∀ q, q ∈ paths → reverseFingerprints (self st) !! q = None →
       provider_argv (self st) q ∈ new).
Proof.
  destruct st as [s0 [fs log]]. cbn [self world files spawned]. unfold provider.
  cbn [self world files spawned].
  set (tasks := get_tasks paths (chunksize (length paths) (concurrentProcesses s0))).
  destruct (pool_tasks s0 fs tasks log) as (batches & new & Hrun & Hres & Hhit & Hmiss).
  assert (∀ q, q ∈ concat tasks → q ∈ paths) as Hsub.
  { unfold tasks. rewrite concat_get_tasks. intros q.
    destruct (chunksize _ _); [|done]. intros Hq. by apply elem_of_nil in Hq. }
  exists (concat batches), new. split_and!.
  - unfold pool_map. fold tasks. unfold bind. rewrite Hrun. done.
  - intros x Hx. apply Hres in Hx as (? & ? & ?). eauto.
  - intros Hall. apply Hhit. eauto.
  - intros Hproc q Hq Hnone. apply Hmiss; [|done].
    unfold tasks. rewrite concat_get_tasks.
    destruct (chunksize _ _) eqn:Hc; [|done].
    exfalso. revert Hc. apply chunksize_pos; [done|].
    destruct paths; [by apply elem_of_nil in Hq|done].
Qed.

End Scanning.

(** Five paths on a pool of one worker are cut into three tasks.  A path
    repeated within a task is answered from the worker's copy; the same path
    in a later task is fingerprinted again; the coordinator's reverse mapping
    stays empty. *)
Example pool_map_runs_on_copies :
  let paths := ["/m/a.mp3"; "/m/a.mp3"; "/m/b.mp3"; "/m/b.mp3"; "/m/a.mp3"] in
  let st := (pool_map 1 (scanFile demo_env) paths (demo_start false)).2 in
  get_tasks paths (chunksize 5 1)
    = [["/m/a.mp3"; "/m/a.mp3"]; ["/m/b.mp3"; "/m/b.mp3"]; ["/m/a.mp3"]] ∧
  spawned (world st)
    = [["fpcalc"; "-json"; "/m/a.mp3"]; ["fpcalc"; "-json"; "/m/b.mp3"];
       ["fpcalc"; "-json"; "/m/a.mp3"]] ∧
  reverseFingerprints (self st) = ∅.
Proof. split_and!; vm_compute; reflexivity. Qed.

(* ================================================================== *)
(** * The cache file and the derived reverse mapping *)

Lemma writeCache_spec st :
  ∃ r st',
    writeCache st = (r, st') ∧
    self st' = self st ∧
    spawned (world st') = spawned (world st) ∧
    ((r = Return true ∧
      files (world st') !! cacheFile (self st)
        = Some (RegularFile (JsonDocument (fingerprints (self st))))) ∨
     (r = Raise FileExistsError ∧ isdir (files (world st)) (cacheDir (self st)) = false) ∨
     (r = Raise FileNotFoundError ∧ isdir (files (world st)) (cacheDir (self st)) = false) ∨
     r = Raise IsADirectoryError).
Proof.
  destruct st as [s [fs log]].
  unfold writeCache, bind, gets, ret, in_world, os_makedirs, write_json. cbn.
  destruct (isdir fs (cacheDir s)) eqn:Hd; cbn.
  - destruct (fs !! cacheFile s) as [[c|]|] eqn:Hf; cbn;
      eexists _, _; (split; [reflexivity|]); split_and!; try done;
      try (left; split; [done|]; cbn; by rewrite lookup_insert_eq); by right; right; right.
  - destruct (fs !! cacheDir s) as [n|] eqn:Hc; cbn.
    + eexists _, _. split; [reflexivity|]. split_and!; try done. right. by left.
    + destruct (truthy (cacheDir s)); cbn.
      * destruct (<[cacheDir s:=Directory]> fs !! cacheFile s) as [[c|]|] eqn:Hf; cbn;
          eexists _, _; (split; [reflexivity|]); split_and!; try done;
          try (left; split; [done|]; cbn; by rewrite lookup_insert_eq);
          by right; right; right.
      * eexists _, _. split; [reflexivity|]. split_and!; try done. right. right. by left.
Qed.

(** The cache is written when its directory is there and no directory sits
    where the file goes. *)
Lemma writeCache_ok st :
  isdir (files (world st)) (cacheDir (self st)) = true →
  files (world st) !! cacheFile (self st) ≠ Some Directory →
  ∃ st', writeCache st = (Return true, st').
Proof.
  destruct st as [s [fs log]]. cbn. intros Hd Hf.
  unfold writeCache, bind, gets, ret, in_world, os_makedirs, write_json. cbn.
  rewrite Hd. cbn.
  destruct (fs !! cacheFile s) as [[c|]|] eqn:Hc; cbn; try done; by eexists.
Qed.

Lemma loadCache_absent st :
  isfile (files (world st)) (cacheFile (self st)) = false →
  loadCache st = (Return false, st).
Proof.
  intros H. unfold loadCache, bind, gets, ret. cbn. by rewrite H.
Qed.

Lemma loadCache_json st doc :
  files (world st) !! cacheFile (self st) = Some (RegularFile (JsonDocument doc)) →
  loadCache st = (Return true, mkState (set_fingerprints doc (self st)) (world st)).
Proof.
  intros H. destruct st as [s [fs log]]. cbn in H.
  unfold loadCache, bind, gets, ret, try_except, in_world, read_json, on_self, modify,
    isfile. cbn. rewrite H. cbn. by rewrite H.
Qed.

Lemma loadCache_unparsable st :
  files (world st) !! cacheFile (self st) = Some (RegularFile Unparsable) →
  loadCache st =
    (Return true,
     mkState (self st)
       (mkWorld (delete (cacheFile (self st)) (files (world st))) (spawned (world st)))).
Proof.
  intros H. destruct st as [s [fs log]]. cbn in H.
  unfold loadCache, bind, gets, ret, try_except, in_world, read_json, os_remove,
    isfile. cbn. rewrite H. cbn. rewrite H. cbn. by rewrite H.
Qed.

Lemma reverse_of_group_lookup f group : ∀ rev p,
  reverse_of_group f group rev !! p
    = if bool_decide (p ∈ group) then Some f else rev !! p.
Proof.
  unfold reverse_of_group.
  induction group as [|x group IH]; intros rev p; simpl; [done|].
  rewrite IH. destruct (decide (p = x)) as [->|Hne].
  - rewrite lookup_insert_eq. rewrite (bool_decide_eq_true_2 (x ∈ x :: group)); [|left].
    by destruct (bool_decide (x ∈ group)).
  - rewrite lookup_insert_ne; [|done].
    destruct (bool_decide (p ∈ group)) eqn:Hin.
    + apply bool_decide_eq_true_1 in Hin.
      rewrite bool_decide_eq_true_2; [done|by right].
    + apply bool_decide_eq_false_1 in Hin.
      rewrite bool_decide_eq_false_2; [done|].
      intros [?|?]%elem_of_cons; done.
Qed.

(** Every entry of the rebuilt reverse mapping was there before or points to
    a group that lists its path. *)
Lemma reverse_of_sound d : ∀ rev p f,
  reverse_of d rev !! p = Some f → rev !! p = Some f ∨ listed_under d p f.
Proof.
  unfold reverse_of.
  induction d as [|[k group] d IH]; intros rev p f; simpl; [by left|].
  intros H. apply IH in H as [H|(g & Hg & Hp)].
  - rewrite reverse_of_group_lookup in H.
    destruct (bool_decide (p ∈ group)) eqn:Hin; [|by left].
    apply bool_decide_eq_true_1 in Hin. injection H as <-.
    right. exists group. split; [left|done].
  - right. exists g. split; [by right|done].
Qed.

Lemma reverse_of_keeps d : ∀ rev p,
  is_Some (rev !! p) → is_Some (reverse_of d rev !! p).
Proof.
  unfold reverse_of.
  induction d as [|[k group] d IH]; intros rev p H; simpl; [done|].
  apply IH. rewrite reverse_of_group_lookup. by destruct (bool_decide _).
Qed.

(** Every listed path is in the rebuilt reverse mapping. *)
Lemma reverse_of_listed d : ∀ rev p,
  listed d p → is_Some (reverse_of d rev !! p).
Proof.
  induction d as [|[k group] d IH]; intros rev p (f & g & Hg & Hp).
  - by apply elem_of_nil in Hg.
  - apply elem_of_cons in Hg as [Heq|Hg].
    + injection Heq as -> ->. cbn. apply reverse_of_keeps.
      rewrite reverse_of_group_lookup. by rewrite bool_decide_eq_true_2.
    + cbn. apply IH. by exists f, g.
Qed.

(** Where no path is listed under two fingerprints, the rebuilt mapping is
    the inverse of the forward mapping. *)
Lemma reverse_of_inverse d :
  (∀ p f f', listed_under d p f → listed_under d p f' → f = f') →
  index_invariant d (reverse_of d ∅).
Proof.
  intros Huniq. split.
  - intros f p H.
    destruct (reverse_of_listed d ∅ p) as [f' Hf']; [by exists f|].
    rewrite Hf'. f_equal.
    apply reverse_of_sound in Hf' as [Hf'|Hf']; [by rewrite lookup_empty in Hf'|].
    by eapply Huniq.
  - intros p f H. apply reverse_of_sound in H as [H|H]; [|done].
    by rewrite lookup_empty in H.
Qed.

Section Construction.
Variable E : Env.

Lemma new_without_cache a w :
  arg_cacheEnabled a = false →
  which E (arg_fingerprintCmd a) = true →
  AudioDedupe_new E a w = (Return (init_fields a), w).
Proof.
  intros Hc Hw. unfold AudioDedupe_new, init_rest, _fingerprintCmdExists, bind, gets, ret,
    _updateReverseFingerprints, on_self, modify. cbn. rewrite Hw. cbn. rewrite Hc. cbn.
  by destruct w.
Qed.

Lemma new_with_cache a w doc :
  arg_cacheEnabled a = true →
  which E (arg_fingerprintCmd a) = true →
  files w !! path_join (arg_cacheDir a) DEFAULT_CACHE_FILE_NAME
    = Some (RegularFile (JsonDocument doc)) →
  AudioDedupe_new E a w =
    (Return (set_reverseFingerprints (reverse_of doc ∅)
               (set_fingerprints doc (init_fields a))), w).
Proof.
  intros Hc Hw Hf.
  pose proof (loadCache_json (mkState (init_fields a) w) doc Hf) as Hl.
  unfold AudioDedupe_new, init_rest, _fingerprintCmdExists, bind, gets, ret.
  cbn [self init_fields fingerprintCmd]. rewrite Hw. cbn [negb self init_fields cacheEnabled].
  rewrite Hc.
  rewrite Hl. unfold _updateReverseFingerprints, on_self, modify. by destruct w.
Qed.

Lemma new_unparsable_cache a w :
  arg_cacheEnabled a = true →
  which E (arg_fingerprintCmd a) = true →
  files w !! path_join (arg_cacheDir a) DEFAULT_CACHE_FILE_NAME
    = Some (RegularFile Unparsable) →
  AudioDedupe_new E a w =
    (Return (init_fields a),
     mkWorld (delete (path_join (arg_cacheDir a) DEFAULT_CACHE_FILE_NAME) (files w))
             (spawned w)).
Proof.
  intros Hc Hw Hf.
  pose proof (loadCache_unparsable (mkState (init_fields a) w) Hf) as Hl.
  unfold AudioDedupe_new, init_rest, _fingerprintCmdExists, bind, gets, ret.
  cbn [self init_fields fingerprintCmd]. rewrite Hw. cbn [negb self init_fields cacheEnabled].
  rewrite Hc.
  rewrite Hl. unfold _updateReverseFingerprints, on_self, modify. done.
Qed.

End Construction.

(* ================================================================== *)
(** * A scan, from the coordinator's side *)

Section Scan.
Variable E : Env.

Lemma descend_candidates st directory :
  _descend E directory st = (Return (candidates E st directory), st).
Proof. reflexivity. Qed.

Lemma scan_no_pool st directory :
  (concurrentProcesses (self st) < 1)%Z →
  scan E directory st = (Raise ValueError, st).
Proof.
  intros H. unfold scan, bind, gets, raise. cbn.
  destruct (Z.ltb_spec (concurrentProcesses (self st)) 1); [done|lia].
Qed.

(** What a scan does, with a pool to run it: the results are those of cache
    hits and of successful invocations, the coordinator's forward mapping is
    the old one with the results merged in, its other attributes are what they
    were, and the scan ends as its save ends. *)
Lemma scan_spec st directory :
  (1 <= concurrentProcesses (self st))%Z →
  ∃ results new r st1,
    scan E directory st = (r, st1) ∧
    self st1 = set_fingerprints
                 (fold_left merge_result results (fingerprints (self st))) (self st) ∧
    spawned (world st1) = spawned (world st) ++ new ∧
    (∀ x, Some x ∈ results →
       file x ∈ candidates E st directory ∧ success x = true ∧
       (reverseFingerprints (self st) !! file x = Some (fingerprint x) ∨
        provider E st (file x) = Exited 0 (JsonObject (Some (fingerprint x))))) ∧
    ((∀ q, q ∈ candidates E st directory →
        is_Some (reverseFingerprints (self st) !! q)) → new = []) ∧
    (∀ q, q ∈ candidates E st directory → reverseFingerprints (self st) !! q = None →
       provider_argv (self st) q ∈ new) ∧
    (cacheEnabled (self st) = false →
       r = Return tt ∧ files (world st1) = files (world st)) ∧
    (cacheEnabled (self st) = true →
       (r = Return tt ∧
        files (world st1) !! cacheFile (self st)
          = Some (RegularFile (JsonDocument (fingerprints (self st1))))) ∨
       r = Raise FileExistsError ∨ r = Raise FileNotFoundError ∨
       r = Raise IsADirectoryError) ∧
    (isdir (files (world st)) (cacheDir (self st)) = true →
     files (world st) !! cacheFile (self st) ≠ Some Directory →
     r = Return tt).
Proof.
  intros Hproc.
  destruct (pool_map_scanFile E st (candidates E st directory))
    as (results & new & Hpool & Hres & Hhit & Hmiss).
  set (merged := mkState
         (set_fingerprints (fold_left merge_result results (fingerprints (self st)))
                           (self st))
         (mkWorld (files (world st)) (spawned (world st) ++ new))).
  assert (scan E directory st
          = (if cacheEnabled (self st) then (_ <- writeCache ;; ret tt) else ret tt) merged)
    as Hscan.
  { unfold scan. unfold bind at 1, gets at 1.
    destruct (Z.ltb_spec (concurrentProcesses (self st)) 1); [lia|].
    unfold bind at 1. rewrite descend_candidates.
    unfold bind at 1. rewrite Hpool.
    unfold bind at 1, on_self, modify. done. }
  destruct (cacheEnabled (self st)) eqn:Hc.
  - destruct (writeCache_spec merged) as (r & st1 & Hw & Hself & Hlog & Hout).
    exists results, new,
      (match r with Return _ => Return tt | Raise e => Raise e end), st1.
    split_and!; try done.
    + rewrite Hscan. unfold bind. rewrite Hw. by destruct r.
    + by apply Hmiss.
    + intros _.
      destruct Hout as [[-> Hf]|[[-> _]|[[-> _]| ->]]];
        [left|right; left|right; right; left|right; right; right]; try done.
      split; [done|]. by rewrite Hself.
    + intros Hd Hf. destruct (writeCache_ok merged Hd Hf) as [st' Hst'].
      rewrite Hw in Hst'. by injection Hst' as -> _.
  - exists results, new, (Return tt), merged. split_and!; try done. by apply Hmiss.
Qed.

(** The coordinator's reverse mapping after a scan is the one before it. *)
Lemma scan_reverse st directory :
  reverseFingerprints (self (scan E directory st).2) = reverseFingerprints (self st).
Proof.
  destruct (Z.ltb_spec (concurrentProcesses (self st)) 1) as [Hlt|Hge].
  - by rewrite scan_no_pool.
  - destruct (scan_spec st directory Hge) as (? & ? & ? & st1 & Hscan & Hself & _).
    rewrite Hscan. cbn. by rewrite Hself.
Qed.

(** A path listed after a scan was listed before it, or the scan had a result
    for it with a fingerprint that counts as true. *)
Lemma scan_listed st directory p f :
  listed_under (fingerprints (self (scan E directory st).2)) p f →
  listed_under (fingerprints (self st)) p f ∨
  (truthy f = true ∧ p ∈ candidates E st directory ∧
   (reverseFingerprints (self st) !! p = Some f ∨
    provider E st p = Exited 0 (JsonObject (Some f)))).
Proof.
  destruct (Z.ltb_spec (concurrentProcesses (self st)) 1) as [Hlt|Hge].
  - rewrite scan_no_pool; [|done]. by left.
  - destruct (scan_spec st directory Hge)
      as (results & ? & ? & st1 & Hscan & Hself & _ & Hres & _).
    rewrite Hscan. cbn. rewrite Hself. cbn.
    intros H.
    apply merge_results_listed in H as [H|(res & Hin & _ & <- & <- & _ & Hf)];
      [by left|].
    right. apply Hres in Hin as (? & _ & ?). done.
Qed.

End Scan.

(* ================================================================== *)
(** * Cache hits, provider failures, empty fingerprints *)

(** A path that is in the reverse mapping of the instance is answered from
    it: [scanFile] returns the cached fingerprint, spawns no command and
    changes nothing.  Hence a scan all of whose files are in the reverse
    mapping spawns no command; and when a scan with caching enabled has
    ended, an instance constructed afterwards on the same cache directory
    holds the forward mapping that scan left, and its scan of a directory all
    of whose files the first scan had indexed spawns no command.  What the
    instance that did the scanning does on a second scan is another matter,
    settled further down on the instance that scans [/m] twice. *)
Lemma cache_hit_skips_provider (E : Env) (st : State) :
  (∀ p f, reverseFingerprints (self st) !! p = Some f →
     scanFile E p st = (Return (Some (mkScanResult p f true)), st)) ∧
  (∀ directory,
     (∀ p, p ∈ candidates E st directory →
        is_Some (reverseFingerprints (self st) !! p)) →
     spawned (world (scan E directory st).2) = spawned (world st)) ∧
  (∀ directory st1 a,
     cacheEnabled (self st) = true →
     scan E directory st = (Return tt, st1) →
     arg_cacheEnabled a = true →
     path_join (arg_cacheDir a) DEFAULT_CACHE_FILE_NAME = cacheFile (self st) →
     which E (arg_fingerprintCmd a) = true →
     ∃ s2, AudioDedupe_new E a (world st1) = (Return s2, world st1) ∧
           fingerprints s2 = fingerprints (self st1) ∧
           ∀ directory2,
             (∀ p, p ∈ candidates E (mkState s2 (world st1)) directory2 →
                listed (fingerprints (self st1)) p) →
             spawned (world (scan E directory2 (mkState s2 (world st1))).2)
               = spawned (world st1)).
Proof.
  assert (∀ st directory,
     (∀ p, p ∈ candidates E st directory →
        is_Some (reverseFingerprints (self st) !! p)) →
     spawned (world (scan E directory st).2) = spawned (world st)) as Hall.
  { clear st. intros st directory Hhit.
    destruct (Z.ltb_spec (concurrentProcesses (self st)) 1) as [Hlt|Hge].
    - by rewrite scan_no_pool.
    - destruct (scan_spec E st directory Hge)
        as (? & new & ? & st1 & Hscan & _ & Hlog & _ & Hnew & _).
      rewrite Hscan. cbn. rewrite Hlog, (Hnew Hhit). by rewrite app_nil_r. }
  split_and!.
  - intros p f. apply scanFile_hit.
  - apply Hall.
  - intros directory st1 a Hc Hscan Ha Hfile Hwhich.
    destruct (Z.ltb_spec (concurrentProcesses (self st)) 1) as [Hlt|Hge].
    { rewrite scan_no_pool in Hscan; done. }
    destruct (scan_spec E st directory Hge)
      as (? & ? & r & st1' & Hscan' & Hself & _ & _ & _ & _ & _ & Hsave & _).
    rewrite Hscan in Hscan'. injection Hscan' as <- <-.
    destruct (Hsave Hc) as [[_ Hdoc]|[?|[?|?]]]; [|done..].
    rewrite <- Hfile in Hdoc.
    eexists. split_and!.
    + by apply new_with_cache.
    + done.
    + intros directory2 Hlisted. rewrite Hall; [done|].
      intros p Hp. cbn. by apply reverse_of_listed, Hlisted.
Qed.

(** A candidate that is in neither mapping and on which the command fails,
    in whichever way, is in neither mapping after the scan.  The command was
    spawned for it.  The scan does not raise on its account: it returns,
    unless caching is enabled and the cache cannot be written, and it does
    return when the cache directory exists and no directory sits where the
    cache file goes.  A later scan that meets the path spawns the command for
    it again.  A candidate that an earlier scan of the instance has put in
    the forward mapping is another matter, settled further down on a file
    that is overwritten between two scans. *)
Lemma provider_failure_not_recorded (E : Env) (st : State) (directory p : string) :
  (1 <= concurrentProcesses (self st))%Z →
  p ∈ candidates E st directory →
  reverseFingerprints (self st) !! p = None →
  ¬ listed (fingerprints (self st)) p →
  provider_failed (provider E st p) = true →
  ∃ r st1 new,
    scan E directory st = (r, st1) ∧
    ¬ listed (fingerprints (self st1)) p ∧
    reverseFingerprints (self st1) !! p = None ∧
    spawned (world st1) = spawned (world st) ++ new ∧
    provider_argv (self st) p ∈ new ∧
    (r = Return tt ∨
     cacheEnabled (self st) = true ∧
     (r = Raise FileExistsError ∨ r = Raise FileNotFoundError ∨
      r = Raise IsADirectoryError)) ∧
    (cacheEnabled (self st) = false ∨
     (isdir (files (world st)) (cacheDir (self st)) = true ∧
      files (world st) !! cacheFile (self st) ≠ Some Directory) →
     r = Return tt) ∧
    (∀ directory2, p ∈ candidates E st1 directory2 →
       ∃ r2 st2 new2,
         scan E directory2 st1 = (r2, st2) ∧
         spawned (world st2) = spawned (world st1) ++ new2 ∧
         provider_argv (self st) p ∈ new2).
Proof.
  intros Hproc Hcand Hrev Hnot Hfail.
  pose proof (scan_listed E st directory p) as Hlisted.
  pose proof (scan_reverse E st directory) as Hreverse.
  destruct (scan_spec E st directory Hproc)
    as (results & new & r & st1 & Hscan & Hself & Hlog & _ & _ & Hmiss
        & Hoff & Hon & Hok).
  rewrite Hscan in Hlisted, Hreverse. cbn in Hlisted, Hreverse.
  assert (reverseFingerprints (self st1) !! p = None) as Hrev1 by by rewrite Hreverse.
  exists r, st1, new. split_and!; try done.
  - intros (f & Hf). apply Hlisted in Hf as [Hf|(_ & _ & [Hf|Hf])].
    + apply Hnot. by exists f.
    + congruence.
    + rewrite Hf in Hfail. done.
  - by apply Hmiss.
  - destruct (cacheEnabled (self st)) eqn:Hc.
    + destruct (Hon eq_refl) as [[? _]|[?|[?|?]]]; [by left|right..]; eauto.
    + left. by apply Hoff.
  - intros [Hc|[Hd Hf]]; [by apply Hoff|by apply Hok].
  - intros directory2 Hcand2.
    assert (1 <= concurrentProcesses (self st1))%Z as Hproc1 by by rewrite Hself.
    destruct (scan_spec E st1 directory2 Hproc1)
      as (? & new2 & r2 & st2 & Hscan2 & _ & Hlog2 & _ & _ & Hmiss2 & _).
    exists r2, st2, new2. split_and!; try done.
    replace (provider_argv (self st) p) with (provider_argv (self st1) p)
      by by rewrite Hself.
    by apply Hmiss2.
Qed.

(** C10.  For a file that is not in the reverse mapping and for which the
    command exits 0 printing an empty fingerprint: [scanFile] returns a
    successful result and has set the reverse entry of the instance it ran
    on to the empty string; merging that result leaves every forward mapping
    as it is; and after the scan the file is a member of no group it was not
    a member of before. *)
Theorem empty_fingerprint_not_recorded (E : Env) (st : State) (directory p : string) :
  reverseFingerprints (self st) !! p = None →
  provider E st p = Exited 0 (JsonObject (Some "")) →
  (∃ st', scanFile E p st = (Return (Some (mkScanResult p "" true)), st') ∧
          reverseFingerprints (self st') !! p = Some "") ∧
  (∀ d, merge_result d (Some (mkScanResult p "" true)) = d) ∧
  (∀ f, listed_under (fingerprints (self (scan E directory st).2)) p f →
        listed_under (fingerprints (self st)) p f).
Proof.
  intros Hrev Hrun. split_and!.
  - unfold provider, run_for in Hrun.
    unfold scanFile, bind, gets, ret, try_except, scanFile_try, bind, gets, in_world,
      popen. cbn. rewrite Hrev. cbn. rewrite Hrun. cbn.
    eexists. split; [reflexivity|]. cbn. by rewrite lookup_insert_eq.
  - intros d. cbn. by destruct (truthy p).
  - intros f H. apply scan_listed in H as [H|(Hf & _ & [H|H])]; [done|congruence|].
    rewrite Hrun in H. injection H as <-. done.
Qed.

Lemma provider_failure_witness :
  ∃ r st1 new,
    scan demo_env "/n" (demo_start true) = (r, st1) ∧
    ¬ listed (fingerprints (self st1)) "/n/t.ogg" ∧
    reverseFingerprints (self st1) !! "/n/t.ogg" = None ∧
    spawned (world st1) = spawned (world (demo_start true)) ++ new ∧
    provider_argv (self (demo_start true)) "/n/t.ogg" ∈ new ∧
    (r = Return tt ∨
     cacheEnabled (self (demo_start true)) = true ∧
     (r = Raise FileExistsError ∨ r = Raise FileNotFoundError ∨
      r = Raise IsADirectoryError)) ∧
    (cacheEnabled (self (demo_start true)) = false ∨
     (isdir (files (world (demo_start true))) (cacheDir (self (demo_start true))) = true ∧
      files (world (demo_start true)) !! cacheFile (self (demo_start true))
        ≠ Some Directory) →
     r = Return tt) ∧
    (∀ directory2, "/n/t.ogg" ∈ candidates demo_env st1 directory2 →
       ∃ r2 st2 new2,
         scan demo_env directory2 st1 = (r2, st2) ∧
         spawned (world st2) = spawned (world st1) ++ new2 ∧
         provider_argv (self (demo_start true)) "/n/t.ogg" ∈ new2).
Proof.
  apply (provider_failure_not_recorded demo_env (demo_start true) "/n" "/n/t.ogg").
  - vm_compute. discriminate.
  - vm_compute. apply list_elem_of_In. simpl. tauto.
  - vm_compute. reflexivity.
  - intros (f & g & H & _). vm_compute in H. inversion H.
  - vm_compute. reflexivity.
Defined.

Lemma empty_fingerprint_witness :
  (∃ st', scanFile demo_env "/n/e.mp3" (demo_start true)
            = (Return (Some (mkScanResult "/n/e.mp3" "" true)), st') ∧
          reverseFingerprints (self st') !! "/n/e.mp3" = Some "") ∧
  (∀ d, merge_result d (Some (mkScanResult "/n/e.mp3" "" true)) = d) ∧
  (∀ f, listed_under (fingerprints (self (scan demo_env "/n" (demo_start true)).2))
          "/n/e.mp3" f →
        listed_under (fingerprints (self (demo_start true))) "/n/e.mp3" f).
Proof.
  apply (empty_fingerprint_not_recorded demo_env (demo_start true) "/n" "/n/e.mp3").
  - vm_compute. reflexivity.
  - vm_compute. reflexivity.
Defined.

Lemma cache_hit_witness :
  ∃ s2,
    AudioDedupe_new demo_env (demo_args true) (world (scan demo_env "/m" (demo_start true)).2)
      = (Return s2, world (scan demo_env "/m" (demo_start true)).2) ∧
    fingerprints s2 = fingerprints (self (scan demo_env "/m" (demo_start true)).2) ∧
    spawned (world (scan demo_env "/m"
                      (mkState s2 (world (scan demo_env "/m" (demo_start true)).2))).2)
      = spawned (world (scan demo_env "/m" (demo_start true)).2).
Proof.
  destruct (proj2 (proj2 (cache_hit_skips_provider demo_env (demo_start true)))
              "/m" (scan demo_env "/m" (demo_start true)).2 (demo_args true))
    as (s2 & Hnew & Hfp & Hscan).
  - vm_compute. reflexivity.
  - vm_compute. reflexivity.
  - vm_compute. reflexivity.
  - vm_compute. reflexivity.
  - vm_compute. reflexivity.
  - exists s2. split_and!; [done|done|].
    apply Hscan. intros p Hp.
    vm_compute in Hnew. injection Hnew as <-.
    vm_compute in Hp.
    exists "X", ["/m/a.mp3"; "/m/b.mp3"]. split; [vm_compute; left|exact Hp].
Defined.

(* ================================================================== *)
(** * Recording a result *)

Lemma dict_get_app d1 d2 k :
  dict_get (d1 ++ d2) k
    = match dict_get d1 k with Some v => Some v | None => dict_get d2 k end.
Proof.
  induction d1 as [|[k' v] d1 IH]; simpl; [done|].
  by destruct (decide (k = k')).
Qed.

Lemma dict_get_setdefault d k :
  dict_get (dict_setdefault d k) k = Some (default [] (dict_get d k)).
Proof.
  unfold dict_setdefault. destruct (dict_get d k) as [v|] eqn:H; [done|].
  rewrite dict_get_app, H. simpl. by destruct (decide (k = k)).
Qed.

Lemma dict_setdefault_present d k :
  is_Some (dict_get d k) → dict_setdefault d k = d.
Proof. intros [v H]. unfold dict_setdefault. by rewrite H. Qed.

Lemma dict_get_append d k x :
  dict_get (dict_append d k x) k = (λ l, l ++ [x]) <$> dict_get d k.
Proof.
  induction d as [|[k' v] d IH]; simpl; [done|].
  destruct (decide (k = k')) as [->|Hne]; simpl.
  - by destruct (decide (k' = k')).
  - by destruct (decide (k = k')).
Qed.

Lemma count_absent (l : list string) p :
  p ∉ l → List.filter (λ x, bool_decide (x = p)) l = [].
Proof.
  induction l as [|y l IH]; simpl; [done|]. intros Hnot.
  rewrite bool_decide_eq_false_2.
  - apply IH. intros ?. apply Hnot. by right.
  - intros ->. apply Hnot. left.
Qed.

Lemma count_present (l : list string) p :
  p ∈ l → (1 <= length (List.filter (λ x, bool_decide (x = p)) l))%nat.
Proof.
  induction l as [|y l IH]; simpl.
  - intros H. by apply elem_of_nil in H.
  - intros H. destruct (decide (y = p)) as [->|Hne].
    + rewrite bool_decide_eq_true_2; [|done]. simpl. lia.
    + rewrite bool_decide_eq_false_2; [|done]. apply IH.
      apply elem_of_cons in H as [?|?]; [congruence|done].
Qed.

(** Merging a result a second time changes nothing, whatever the result. *)
Lemma merge_result_idempotent d res :
  merge_result (merge_result d res) res = merge_result d res.
Proof.
  destruct res as [x|]; [|done]. unfold merge_result.
  destruct (success x); cbn [negb]; [|done].
  destruct (truthy (file x)); cbn [negb andb]; [|done].
  destruct (truthy (fingerprint x)); cbn [negb andb]; [|done].
  set (f := fingerprint x). set (p := file x).
  set (g := default [] (dict_get d f)).
  rewrite (dict_get_setdefault d f). cbn [default from_option id]. fold g.
  unfold list_contains.
  destruct (bool_decide (p ∈ g)) eqn:Hin; cbn [negb].
  - rewrite (dict_setdefault_present (dict_setdefault d f) f);
      [|by rewrite dict_get_setdefault].
    rewrite dict_get_setdefault. cbn [default from_option id]. fold g. by rewrite Hin.
  - rewrite (dict_setdefault_present (dict_append (dict_setdefault d f) f p) f);
      [|by rewrite dict_get_append, dict_get_setdefault].
    rewrite dict_get_append, dict_get_setdefault. cbn [fmap option_fmap option_map default from_option id].
    fold g. rewrite bool_decide_eq_true_2; [done|]. apply elem_of_app. right. left.
Qed.

(** C5, as the code has it.  For a path and a fingerprint that are not empty
    and a forward mapping whose group of [f] holds [p] at most once, merging
    the successful result for [(p, f)] twice leaves exactly one occurrence of
    [p] in the group of [f], and the second merge changes nothing.  Merging
    is a total function: it raises nothing. *)
Theorem record_twice_once (d : Fingerprints) (p f : string) :
  truthy p = true →
  truthy f = true →
  (occurrences d p f <= 1)%nat →
  let res := Some (mkScanResult p f true) in
  occurrences (merge_result (merge_result d res) res) p f = 1%nat ∧
  merge_result (merge_result d res) res = merge_result d res.
Proof.
  intros Hp Hf Hocc res. split; [|apply merge_result_idempotent].
  rewrite merge_result_idempotent. unfold res, occurrences, merge_result in *.
  cbn [success file fingerprint negb]. rewrite Hp, Hf. cbn [negb andb].
  set (g := default [] (dict_get d f)) in *.
  rewrite (dict_get_setdefault d f). cbn [default from_option id]. fold g. unfold list_contains.
  destruct (bool_decide (p ∈ g)) eqn:Hin; cbn [negb].
  - rewrite dict_get_setdefault. fold g. cbn [default from_option id].
    apply bool_decide_eq_true_1 in Hin. apply count_present in Hin. lia.
  - rewrite dict_get_append, dict_get_setdefault.
    cbn [fmap option_fmap option_map default from_option id]. fold g.
    apply bool_decide_eq_false_1 in Hin.
    rewrite List.filter_app, length_app, (count_absent g p Hin). simpl.
    by rewrite bool_decide_eq_true_2.
Qed.

Lemma record_twice_witness :
  occurrences
    (merge_result (merge_result [("X", ["/m/a.mp3"])]
                     (Some (mkScanResult "/m/b.mp3" "X" true)))
                  (Some (mkScanResult "/m/b.mp3" "X" true)))
    "/m/b.mp3" "X" = 1%nat ∧
  merge_result (merge_result [("X", ["/m/a.mp3"])]
                  (Some (mkScanResult "/m/b.mp3" "X" true)))
               (Some (mkScanResult "/m/b.mp3" "X" true))
    = merge_result [("X", ["/m/a.mp3"])] (Some (mkScanResult "/m/b.mp3" "X" true)).
Proof.
  apply (record_twice_once [("X", ["/m/a.mp3"])] "/m/b.mp3" "X").
  - reflexivity.
  - reflexivity.
  - vm_compute. lia.
Defined.

(** C5, as stated, fails for the empty fingerprint: the result is passed
    over both times and no group holds the path. *)
Lemma record_twice_empty_fingerprint :
  success (mkScanResult "/n/e.mp3" "" true) = true ∧
  occurrences (merge_result (merge_result [] demo_empty_result) demo_empty_result)
              "/n/e.mp3" "" ≠ 1%nat.
Proof. split; [done|]. vm_compute. discriminate. Qed.

(* ================================================================== *)
(** * Saving, loading, and a cache file that cannot be read *)

Section Cache.
Variable E : Env.

Lemma new_absent_cache a w :
  which E (arg_fingerprintCmd a) = true →
  isfile (files w) (path_join (arg_cacheDir a) DEFAULT_CACHE_FILE_NAME) = false →
  AudioDedupe_new E a w = (Return (init_fields a), w).
Proof.
  intros Hw Hf.
  pose proof (loadCache_absent (mkState (init_fields a) w) Hf) as Hl.
  unfold AudioDedupe_new, init_rest, _fingerprintCmdExists, bind, gets, ret.
  cbn [self init_fields fingerprintCmd]. rewrite Hw. cbn [negb self init_fields cacheEnabled].
  destruct (arg_cacheEnabled a).
  - rewrite Hl. unfold _updateReverseFingerprints, on_self, modify. by destruct w.
  - unfold _updateReverseFingerprints, on_self, modify. by destruct w.
Qed.

(** C6.  When [writeCache] has returned, [loadCache] on the saving
    instance returns and leaves it as it is, and an instance constructed on
    the same cache directory with caching enabled holds the forward mapping
    that was saved; its reverse mapping is the one derived from it: an entry
    for every listed path and no other, each pointing to a group that lists
    its path; where no path is listed under two fingerprints, that is the
    inverse of the forward mapping. *)
Theorem save_then_load (st st' : State) (a : InitArgs) :
  writeCache st = (Return true, st') →
  arg_cacheEnabled a = true →
  path_join (arg_cacheDir a) DEFAULT_CACHE_FILE_NAME = cacheFile (self st) →
  which E (arg_fingerprintCmd a) = true →
  loadCache st' = (Return true, st') ∧
  ∃ s2,
    AudioDedupe_new E a (world st') = (Return s2, world st') ∧
    fingerprints s2 = fingerprints (self st) ∧
    reverseFingerprints s2 = reverse_of (fingerprints (self st)) ∅ ∧
    (∀ p f, reverseFingerprints s2 !! p = Some f →
       listed_under (fingerprints (self st)) p f) ∧
    (∀ p, listed (fingerprints (self st)) p → is_Some (reverseFingerprints s2 !! p)) ∧
    ((∀ p f f', listed_under (fingerprints (self st)) p f →
                listed_under (fingerprints (self st)) p f' → f = f') →
     index_invariant (fingerprints s2) (reverseFingerprints s2)).
Proof.
  intros Hsave Hc Hfile Hwhich.
  destruct (writeCache_spec st) as (r & st1 & Hw & Hself & _ & Hout).
  rewrite Hsave in Hw. injection Hw as <- <-.
  destruct Hout as [[_ Hdoc]|[[? _]|[[? _]|?]]]; [|done..].
  split.
  { rewrite <- Hself in Hdoc. rewrite (loadCache_json _ _ Hdoc).
    rewrite set_fingerprints_id. by destruct st'. }
  rewrite <- Hfile in Hdoc.
  eexists. split_and!.
  - by apply new_with_cache.
  - done.
  - done.
  - cbn. intros p f H. apply reverse_of_sound in H as [H|H]; [|done].
    by rewrite lookup_empty in H.
  - cbn. intros p. apply reverse_of_listed.
  - cbn. apply reverse_of_inverse.
Qed.

(** C7.  A cache file on which [json.load] raises: [loadCache] returns,
    leaves the instance as it was and removes the file.  So construction with
    caching enabled returns an instance with both mappings empty (an index the
    invariant holds of), no exception leaves it, and on the disk it leaves
    the file is gone: [loadCache] then finds no cache, and a second
    construction returns the same empty instance and changes nothing. *)
Theorem corrupt_cache_discarded (a : InitArgs) (w : World) :
  arg_cacheEnabled a = true →
  which E (arg_fingerprintCmd a) = true →
  files w !! path_join (arg_cacheDir a) DEFAULT_CACHE_FILE_NAME
    = Some (RegularFile Unparsable) →
  let cache := path_join (arg_cacheDir a) DEFAULT_CACHE_FILE_NAME in
  let w' := mkWorld (delete cache (files w)) (spawned w) in
  loadCache (mkState (init_fields a) w) = (Return true, mkState (init_fields a) w') ∧
  AudioDedupe_new E a w = (Return (init_fields a), w') ∧
  fingerprints (init_fields a) = [] ∧
  reverseFingerprints (init_fields a) = ∅ ∧
  index_invariant (fingerprints (init_fields a)) (reverseFingerprints (init_fields a)) ∧
  isfile (files w') cache = false ∧
  loadCache (mkState (init_fields a) w') = (Return false, mkState (init_fields a) w') ∧
  AudioDedupe_new E a w' = (Return (init_fields a), w').
Proof.
  intros Hc Hwhich Hf cache w'.
  assert (isfile (files w') cache = false) as Hgone.
  { unfold isfile, w'. cbn. by rewrite lookup_delete_eq. }
  split_and!; try done.
  - by apply (loadCache_unparsable (mkState (init_fields a) w)).
  - by apply new_unparsable_cache.
  - split.
    + intros f p (g & Hg & _). by apply elem_of_nil in Hg.
    + intros p f H. cbn in H. by rewrite lookup_empty in H.
  - by apply loadCache_absent.
  - by apply new_absent_cache.
Qed.

End Cache.

Lemma save_then_load_witness :
  loadCache (writeCache demo_scanned).2 = (Return true, (writeCache demo_scanned).2) ∧
  ∃ s2,
    AudioDedupe_new demo_env (demo_args true) (world (writeCache demo_scanned).2)
      = (Return s2, world (writeCache demo_scanned).2) ∧
    fingerprints s2 = fingerprints (self demo_scanned) ∧
    reverseFingerprints s2 = reverse_of (fingerprints (self demo_scanned)) ∅ ∧
    (∀ p f, reverseFingerprints s2 !! p = Some f →
       listed_under (fingerprints (self demo_scanned)) p f) ∧
    (∀ p, listed (fingerprints (self demo_scanned)) p →
       is_Some (reverseFingerprints s2 !! p)) ∧
    ((∀ p f f', listed_under (fingerprints (self demo_scanned)) p f →
                listed_under (fingerprints (self demo_scanned)) p f' → f = f') →
     index_invariant (fingerprints s2) (reverseFingerprints s2)).
Proof.
  apply (save_then_load demo_env demo_scanned (writeCache demo_scanned).2 (demo_args true)).
  - vm_compute. reflexivity.
  - reflexivity.
  - vm_compute. reflexivity.
  - vm_compute. reflexivity.
Defined.

Lemma corrupt_cache_witness :
  let cache := path_join (arg_cacheDir (demo_args true)) DEFAULT_CACHE_FILE_NAME in
  let w' := mkWorld (delete cache (files demo_corrupt_world)) (spawned demo_corrupt_world) in
  loadCache (mkState (init_fields (demo_args true)) demo_corrupt_world)
    = (Return true, mkState (init_fields (demo_args true)) w') ∧
  AudioDedupe_new demo_env (demo_args true) demo_corrupt_world
    = (Return (init_fields (demo_args true)), w') ∧
  fingerprints (init_fields (demo_args true)) = [] ∧
  reverseFingerprints (init_fields (demo_args true)) = ∅ ∧
  index_invariant (fingerprints (init_fields (demo_args true)))
                  (reverseFingerprints (init_fields (demo_args true))) ∧
  isfile (files w') cache = false ∧
  loadCache (mkState (init_fields (demo_args true)) w')
    = (Return false, mkState (init_fields (demo_args true)) w') ∧
  AudioDedupe_new demo_env (demo_args true) w' = (Return (init_fields (demo_args true)), w').
Proof.
  apply (corrupt_cache_discarded demo_env (demo_args true) demo_corrupt_world).
  - reflexivity.
  - vm_compute. reflexivity.
  - vm_compute. reflexivity.
Defined.

(* ================================================================== *)
(** * The walker and its filter *)










(* ================================================================== *)
(** * The [--disable-cache] flag *)

Lemma apply_options_disable_cache given : ∀ ns,
  disable_cache (fold_left apply_option given ns)
    = disable_cache ns && negb (disable_cache_given given).
Proof.
  induction given as [|o given IH]; intros ns; simpl.
  - by rewrite andb_true_r.
  - rewrite IH. destruct o; simpl; try done.
    by rewrite andb_false_r.
Qed.

(** [loadCache] returns, whatever the cache file holds, and leaves the
    instance's configuration alone. *)
Lemma loadCache_returns st :
  ∃ b st', loadCache st = (Return b, st') ∧
           cacheEnabled (self st') = cacheEnabled (self st).
Proof.
  destruct (files (world st) !! cacheFile (self st)) as [[[doc|]|]|] eqn:Hf.
  - eexists _, _. split; [by apply loadCache_json|done].
  - eexists _, _. split; [by apply loadCache_unparsable|done].
  - eexists _, _. split; [apply loadCache_absent; unfold isfile; by rewrite Hf|done].
  - eexists _, _. split; [apply loadCache_absent; unfold isfile; by rewrite Hf|done].
Qed.

Lemma pruneFingerprints_no_cache st :
  cacheEnabled (self st) = false →
  world (pruneFingerprints st).2 = world st.
Proof.
  intros Hc. unfold pruneFingerprints, bind, gets, ret.
  destruct (prune_groups _ _ _ _ _) as [[[u|e] d] rev]; cbn; [|done].
  by rewrite Hc.
Qed.

Lemma scan_no_cache E st directory :
  cacheEnabled (self st) = false →
  files (world (scan E directory st).2) = files (world st).
Proof.
  intros Hc. destruct (Z.ltb_spec (concurrentProcesses (self st)) 1) as [Hlt|Hge].
  - by rewrite scan_no_pool.
  - destruct (scan_spec E st directory Hge)
      as (? & ? & ? & st1 & Hscan & _ & _ & _ & _ & _ & Hoff & _).
    rewrite Hscan. by apply Hoff.
Qed.

(** C9.  The instance the main block constructs has caching disabled exactly
    when [--disable-cache] was given.  With the flag, construction loads
    nothing (the instance is the one the attribute assignments make, both
    mappings empty, and the disk is as the reset left it), and neither a scan
    nor a pruning writes to the disk. *)
Theorem disable_cache_flag (E : Env) (given : list CliOption) (positional : list string)
    (w w' : World) (s : AudioDedupe) :
  main_instance E given positional w = (Return s, w') →
  cacheEnabled s = negb (disable_cache_given given) ∧
  (disable_cache_given given = true →
     s = init_fields (adArgs (parse_args E given positional)) ∧
     (reset_cache_file (parse_args E given positional) w).2 = w' ∧
     ∀ st, self st = s →
       (∀ directory, files (world (scan E directory st).2) = files (world st)) ∧
       world (pruneFingerprints st).2 = world st).
Proof.
  unfold main_instance. set (args := parse_args E given positional).
  destruct (reset_cache_file args w) as [[u|e] w1] eqn:Hreset; [|done].
  intros Hnew.
  assert (arg_cacheEnabled (adArgs args) = negb (disable_cache_given given)) as Hflag.
  { unfold args, parse_args. cbn. by rewrite apply_options_disable_cache. }
  assert (which E (arg_fingerprintCmd (adArgs args)) = true) as Hwhich.
  { revert Hnew. unfold AudioDedupe_new, init_rest, _fingerprintCmdExists, bind, gets,
      ret, raise. cbn. by destruct (which E (fingerprint_cmd args)). }
  assert (cacheEnabled s = arg_cacheEnabled (adArgs args)) as Hs.
  { revert Hnew. unfold AudioDedupe_new, init_rest, _fingerprintCmdExists, bind, gets, ret.
    cbn [self init_fields fingerprintCmd]. rewrite Hwhich.
    cbn [negb self init_fields cacheEnabled].
    destruct (arg_cacheEnabled (adArgs args)) eqn:Hc.
    - destruct (loadCache_returns (mkState (init_fields (adArgs args)) w1))
        as (b & st1 & -> & Hsame).
      unfold _updateReverseFingerprints, on_self, modify. intros [= <- _].
      cbn. by rewrite Hsame.
    - unfold _updateReverseFingerprints, on_self, modify. by intros [= <- _]. }
  split; [by rewrite Hs|].
  intros Hgiven. rewrite Hgiven in Hflag. cbn in Hflag.
  rewrite new_without_cache in Hnew; [|done..]. injection Hnew as <- <-.
  split_and!; try done.
  intros st Hst. split.
  - intros directory. apply scan_no_cache. by rewrite Hst.
  - apply pruneFingerprints_no_cache. by rewrite Hst.
Qed.

Lemma disable_cache_flag_witness :
  cacheEnabled (init_fields (adArgs (parse_args demo_env [opt_disable_cache] ["/m"])))
    = negb (disable_cache_given [opt_disable_cache]) ∧
  (disable_cache_given [opt_disable_cache] = true →
     init_fields (adArgs (parse_args demo_env [opt_disable_cache] ["/m"]))
       = init_fields (adArgs (parse_args demo_env [opt_disable_cache] ["/m"])) ∧
     (reset_cache_file (parse_args demo_env [opt_disable_cache] ["/m"]) demo_world).2
       = demo_world ∧
     ∀ st, self st = init_fields (adArgs (parse_args demo_env [opt_disable_cache] ["/m"])) →
       (∀ directory, files (world (scan demo_env directory st).2) = files (world st)) ∧
       world (pruneFingerprints st).2 = world st).
Proof.
  apply (disable_cache_flag demo_env [opt_disable_cache] ["/m"] demo_world demo_world).
  vm_compute. reflexivity.
Defined.

Lemma enabled_cache_example :
  ∃ s w', main_instance demo_env [opt_cache_dir "/c"] ["/m"] demo_corrupt_world
            = (Return s, w') ∧ cacheEnabled s = true.
Proof. eexists _, _. split; [vm_compute; reflexivity|reflexivity]. Qed.

(* ================================================================== *)
(** * Where the code departs from its specification *)

(** C1.  The instance loads a cache that lists [/m/a.mp3], [/m/b.mp3] and
    [/m/c.mp3] under one fingerprint; only [/m/c.mp3] is still on the disk.
    [pruneFingerprints] returns, and [/m/b.mp3], which does not exist, is
    still a member of the group and still in the reverse mapping: removing
    [/m/a.mp3] moved it under the list iterator, which stepped over it. *)
Theorem prune_keeps_missing_file :
  ∃ s st',
    AudioDedupe_new demo_env (demo_args true) stale_world = (Return s, stale_world) ∧
    pruneFingerprints (mkState s stale_world) = (Return tt, st') ∧
    isfile (files stale_world) "/m/b.mp3" = false ∧
    fingerprints (self st') = [("X", ["/m/b.mp3"; "/m/c.mp3"])] ∧
    reverseFingerprints (self st') !! "/m/b.mp3" = Some "X".
Proof.
  eexists _, _. split_and!.
  - vm_compute. reflexivity.
  - vm_compute. reflexivity.
  - vm_compute. reflexivity.
  - vm_compute. reflexivity.
  - vm_compute. reflexivity.
Qed.

(** The same loop, when a group loses its last member: the entry is deleted
    from the dictionary that is being iterated, and the iterator's next step
    raises.  [pruneFingerprints] does not return and writes no cache. *)
Example prune_emptied_group_raises :
  ∃ s st',
    AudioDedupe_new demo_env (demo_args true) emptied_world = (Return s, emptied_world) ∧
    pruneFingerprints (mkState s emptied_world) = (Raise RuntimeError, st') ∧
    fingerprints (self st') = [] ∧
    world st' = emptied_world.
Proof.
  eexists _, _. split_and!.
  - vm_compute. reflexivity.
  - vm_compute. reflexivity.
  - vm_compute. reflexivity.
  - vm_compute. reflexivity.
Qed.

(** C2.  A fresh instance, its index empty (the invariant holds), scans
    [/m].  The scan returns with [/m/a.mp3] a member of the group of ["X"],
    and the coordinator's reverse mapping has no entry for it: the entry was
    made in the worker's copy.  The invariant does not hold any more. *)
Theorem scan_leaves_reverse_behind :
  index_invariant (fingerprints (self (demo_start false)))
                  (reverseFingerprints (self (demo_start false))) ∧
  ∃ st1,
    scan demo_env "/m" (demo_start false) = (Return tt, st1) ∧
    fingerprints (self st1) = [("X", ["/m/a.mp3"; "/m/b.mp3"])] ∧
    reverseFingerprints (self st1) = ∅ ∧
    ¬ index_invariant (fingerprints (self st1)) (reverseFingerprints (self st1)).
Proof.
  split.
  - split.
    + intros f p (g & Hg & _). by apply elem_of_nil in Hg.
    + intros p f H. cbn in H. by rewrite lookup_empty in H.
  - eexists. split_and!.
    + vm_compute. reflexivity.
    + reflexivity.
    + reflexivity.
    + intros [Hfwd _].
      assert (listed_under [("X", ["/m/a.mp3"; "/m/b.mp3"])] "/m/a.mp3" "X") as Hlisted
        by (exists ["/m/a.mp3"; "/m/b.mp3"]; split; left).
      apply Hfwd in Hlisted. vm_compute in Hlisted. discriminate Hlisted.
Qed.

(** What follows from it within one run: the instance that has just scanned
    [/m] scans it again, and the command is spawned for both files a second
    time. *)
Example rescan_in_same_run_spawns_again :
  spawned (world demo_scanned)
    = [provider_argv (self demo_scanned) "/m/a.mp3";
       provider_argv (self demo_scanned) "/m/b.mp3"] ∧
  spawned (world (scan demo_env "/m" demo_scanned).2)
    = spawned (world demo_scanned)
      ++ [provider_argv (self demo_scanned) "/m/a.mp3";
          provider_argv (self demo_scanned) "/m/b.mp3"].
Proof. split; vm_compute; reflexivity. Qed.

(** C3.  The first half of the claim holds of the instance a path is scanned
    on: a path in its reverse mapping is answered from it and no command is
    spawned ([cache_hit_skips_provider]).  The consequence drawn from it fails
    on the instance that did the first scan.  A fresh instance with caching
    enabled scans [/m]: the scan returns, the cache file holds the index and
    both files of [/m] are indexed.  It scans [/m] a second time: every
    candidate is listed in its forward mapping, none is in its reverse
    mapping, and the command is spawned for both files again.  The entries
    [scanFile] made, it made in the workers' copies. *)
Theorem second_scan_invokes_provider_again :
  cacheEnabled (self (demo_start true)) = true ∧
  ∃ st1 st2,
    scan demo_env "/m" (demo_start true) = (Return tt, st1) ∧
    files (world st1) !! cacheFile (self st1)
      = Some (RegularFile (JsonDocument (fingerprints (self st1)))) ∧
    candidates demo_env st1 "/m" = ["/m/a.mp3"; "/m/b.mp3"] ∧
    (∀ p, p ∈ candidates demo_env st1 "/m" → listed (fingerprints (self st1)) p) ∧
    (∀ p, p ∈ candidates demo_env st1 "/m" →
       reverseFingerprints (self st1) !! p = None) ∧
    scan demo_env "/m" st1 = (Return tt, st2) ∧
    spawned (world st2)
      = spawned (world st1)
        ++ [provider_argv (self st1) "/m/a.mp3"; provider_argv (self st1) "/m/b.mp3"] ∧
    fingerprints (self st2) = fingerprints (self st1).
Proof.
  split; [reflexivity|].
  eexists _, _. split_and!.
  - vm_compute. reflexivity.
  - vm_compute. reflexivity.
  - vm_compute. reflexivity.
  - intros p Hp. exists "X", ["/m/a.mp3"; "/m/b.mp3"]. split; [vm_compute; left|].
    vm_compute in Hp. exact Hp.
  - intros p Hp. vm_compute in Hp. apply list_elem_of_In in Hp. simpl in Hp.
    destruct Hp as [<-|[<-|[]]]; vm_compute; reflexivity.
  - vm_compute. reflexivity.
  - vm_compute. reflexivity.
  - vm_compute. reflexivity.
Qed.

(** C4.  For a candidate that is in neither mapping the claim holds
    ([provider_failure_not_recorded]).  It fails for a candidate that an
    earlier scan of the same instance has indexed.  The instance scans [/m]
    and indexes [/m/a.mp3] under ["X"]; its reverse mapping gets no entry.
    The file is then overwritten.  The instance scans [/m] again: the file is
    a candidate, it is not in the reverse mapping, so the command is spawned
    for it, and the command fails.  The scan returns, and the path is still a
    member of the group of ["X"], in the instance and in the cache file. *)
Theorem failed_rescan_keeps_path :
  ∃ st1 st2,
    scan decoder_env "/m" audio_start = (Return tt, st1) ∧
    listed_under (fingerprints (self st1)) "/m/a.mp3" "X" ∧
    reverseFingerprints (self st1) !! "/m/a.mp3" = None ∧
    "/m/a.mp3" ∈ candidates decoder_env (overwritten st1) "/m" ∧
    provider_failed (provider decoder_env (overwritten st1) "/m/a.mp3") = true ∧
    scan decoder_env "/m" (overwritten st1) = (Return tt, st2) ∧
    spawned (world st2)
      = spawned (world (overwritten st1)) ++ [provider_argv (self st1) "/m/a.mp3"] ∧
    listed_under (fingerprints (self st2)) "/m/a.mp3" "X" ∧
    files (world st2) !! cacheFile (self st2)
      = Some (RegularFile (JsonDocument [("X", ["/m/a.mp3"])])).
Proof.
  eexists _, _. split_and!.
  - vm_compute. reflexivity.
  - exists ["/m/a.mp3"]. split; [vm_compute|]; left.
  - vm_compute. reflexivity.
  - vm_compute. left.
  - vm_compute. reflexivity.
  - vm_compute. reflexivity.
  - vm_compute. reflexivity.
  - exists ["/m/a.mp3"]. split; [vm_compute|]; left.
  - vm_compute. reflexivity.
Qed.

(* ================================================================== *)
(** * The pruning loops, in general *)

Lemma prune_files_step fs i group rev :
  prune_files fs i group rev =
    match group !! i with
    | None => (group, rev)
    | Some fileName =>
        if negb (isfile fs fileName)
        then prune_files fs (S i) (list_remove group fileName)
               (if bool_decide (is_Some (rev !! fileName))
                then delete fileName rev else rev)
        else prune_files fs (S i) group rev
    end.
Proof.
  funelim (prune_files fs i group rev).
  - by rewrite Hi.
  - match goal with H : group !! i = None |- _ => by rewrite H end.
Qed.

Lemma prune_groups_step fs pos used d rev :
  prune_groups fs pos used d rev =
    if decide (length d = used)
    then match d !! pos with
         | None => (Return tt, d, rev)
         | Some (fingerprint, group) =>
             match prune_files fs 0 group rev with
             | ([], rev') =>
                 prune_groups fs (S pos) used
                   (dict_del (<[pos := (fingerprint, [])]> d) fingerprint) rev'
             | (group', rev') =>
                 prune_groups fs (S pos) used (<[pos := (fingerprint, group')]> d) rev'
             end
         end
    else (Raise RuntimeError, d, rev).
Proof.
  funelim (prune_groups fs pos used d rev).
  all: repeat match goal with
       | H : length ?d = ?u |- context [decide (length ?d = ?u)] =>
           destruct (decide (length d = u)); [|done]
       | H : length ?d ≠ ?u |- context [decide (length ?d = ?u)] =>
           destruct (decide (length d = u)); [done|]
       | H : ?d !! ?pos = _ |- context [?d !! ?pos] => rewrite H
       | H : prune_files _ _ _ _ = _ |- _ => rewrite H
       end.
  all: try done.
Qed.

Lemma list_remove_elem (l : list string) x y :
  y ∈ list_remove l x → y ∈ l.
Proof.
  induction l as [|z l IH]; simpl; [done|].
  destruct (decide (x = z)); intros H; [by right|].
  apply elem_of_cons in H as [->|H]; [left|right; eauto].
Qed.

Lemma list_remove_other (l : list string) x y :
  y ≠ x → y ∈ l → y ∈ list_remove l x.
Proof.
  intros Hne. induction l as [|z l IH]; simpl; [done|].
  intros H. apply elem_of_cons in H as [->|H].
  - destruct (decide (x = z)); [congruence|left].
  - destruct (decide (x = z)); [done|right; eauto].
Qed.

Lemma list_remove_length (l : list string) x :
  x ∈ l → S (length (list_remove l x)) = length l.
Proof.
  induction l as [|z l IH]; simpl.
  - intros H. by apply elem_of_nil in H.
  - intros H. destruct (decide (x = z)); [done|]. simpl. f_equal. apply IH.
    apply elem_of_cons in H as [?|?]; [congruence|done].
Qed.

(** The inner loop removes only files that are not on the disk, from the
    group and from the reverse mapping alike. *)
Lemma prune_files_spec fs i group rev :
  let '(group', rev') := prune_files fs i group rev in
  (∀ x, x ∈ group' → x ∈ group) ∧
  (∀ x, x ∈ group → isfile fs x = true → x ∈ group') ∧
  (∀ x f, rev' !! x = Some f → rev !! x = Some f) ∧
  (∀ x, isfile fs x = true → rev' !! x = rev !! x).
Proof.
  funelim (prune_files fs i group rev); [|done].
  destruct (isfile fs fileName) eqn:Hfile; cbn [negb]; [done|].
  destruct (prune_files fs (S i) (list_remove group fileName) _) as [g' r'].
  destruct H as (Hsub & Hkeep & Hrev & Hsame).
  split_and!.
  - intros x Hx. eapply list_remove_elem. eauto.
  - intros x Hx Hex. apply Hkeep; [|done]. apply list_remove_other; [|done].
    intros ->. congruence.
  - intros x f Hx. apply Hrev in Hx.
    destruct (bool_decide _); [|done].
    by apply lookup_delete_Some in Hx as [_ ?].
  - intros x Hex. rewrite Hsame; [|done].
    destruct (bool_decide _); [|done].
    apply lookup_delete_ne. intros ->. congruence.
Qed.

(** Each removal moves the rest of the list one place down under the
    iterator, so the loop passes over the item after each one it removes: of
    [n] members at least [n/2] are left, whatever the disk holds. *)
Lemma prune_files_length fs i group rev :
  (i <= S (length group))%nat →
  (length group + i <= 2 * length (prune_files fs i group rev).1 + 1)%nat.
Proof.
  funelim (prune_files fs i group rev); intros Hle.
  - pose proof (lookup_lt_Some _ _ _ Hi) as Hlt.
    assert (fileName ∈ group) as Hin by (eapply list_elem_of_lookup_2; eauto).
    pose proof (list_remove_length group fileName Hin) as Hlen.
    destruct (isfile fs fileName); cbn [negb].
    + specialize (H0 ltac:(lia)). lia.
    + specialize (H ltac:(lia)). lia.
  - cbn. match goal with Hnone : group !! i = None |- _ =>
      pose proof (proj1 (lookup_ge_None group i) Hnone) end. lia.
Qed.

(** What the loop leaves of the group does not depend on the reverse
    mapping it is given. *)
Lemma prune_files_group fs i group rev1 rev2 :
  (prune_files fs i group rev1).1 = (prune_files fs i group rev2).1.
Proof.
  revert rev2. funelim (prune_files fs i group rev1); intros rev2;
    rewrite (prune_files_step fs i group rev2).
  - rewrite Hi. destruct (isfile fs fileName); cbn [negb]; eauto.
  - match goal with H : group !! i = None |- _ => by rewrite H end.
Qed.

(** A group whose every member is on the disk is left as it is, and so is
    the reverse mapping. *)
Lemma prune_files_all_exist fs i group rev :
  (∀ x, x ∈ group → isfile fs x = true) →
  prune_files fs i group rev = (group, rev).
Proof.
  intros Hall. funelim (prune_files fs i group rev); [|done].
  assert (fileName ∈ group) as Hin by (eapply list_elem_of_lookup_2; eauto).
  rewrite (Hall _ Hin). cbn [negb]. eauto.
Qed.

Lemma prune_files_emptied fs group rev :
  (prune_files fs 0 group rev).1 = [] ↔ emptied fs group = true.
Proof.
  destruct group as [|p [|q group]].
  - by rewrite prune_files_step.
  - rewrite prune_files_step. cbn [lookup list_lookup emptied].
    destruct (isfile fs p); cbn [negb].
    + by rewrite prune_files_step.
    + cbn [list_remove]. destruct (decide (p = p)); [|done].
      by rewrite prune_files_step.
  - pose proof (prune_files_length fs 0 (p :: q :: group) rev ltac:(lia)) as Hlen.
    cbn [emptied]. split; [|done]. intros H. rewrite H in Hlen. simpl in Hlen. lia.
Qed.

Lemma dict_del_length (l : Fingerprints) k v :
  (k, v) ∈ l → S (length (dict_del l k)) = length l.
Proof.
  induction l as [|[k' v'] l IH]; simpl.
  - intros H. by apply elem_of_nil in H.
  - intros H. destruct (decide (k = k')); [done|]. simpl. f_equal. apply IH.
    apply elem_of_cons in H as [?|?]; [congruence|done].
Qed.

Lemma dict_del_elem (l : Fingerprints) k e :
  e ∈ dict_del l k → e ∈ l.
Proof.
  induction l as [|[k' v'] l IH]; simpl; [done|].
  destruct (decide (k = k')); intros H; [by right|].
  apply elem_of_cons in H as [->|H]; [left|right; eauto].
Qed.

Lemma dict_del_other (l : Fingerprints) k k' v :
  k' ≠ k → (k', v) ∈ l → (k', v) ∈ dict_del l k.
Proof.
  intros Hne. induction l as [|[k0 v0] l IH]; simpl; [done|].
  intros H. apply elem_of_cons in H as [Heq|H].
  - injection Heq as <- <-. destruct (decide (k = k')); [congruence|left].
  - destruct (decide (k = k0)); [done|right; eauto].
Qed.

Lemma insert_middle (before rest : Fingerprints) e e' :
  <[length before := e']> (before ++ e :: rest) = before ++ e' :: rest.
Proof.
  rewrite insert_app_r_alt; [|lia]. by rewrite Nat.sub_diag.
Qed.

Lemma lookup_middle (before rest : Fingerprints) e :
  (before ++ e :: rest) !! length before = Some e.
Proof. by rewrite list_lookup_middle. Qed.

(** After a deletion the dictionary is one entry short, and the iterator's
    next step raises. *)
Lemma prune_groups_resized fs pos used d rev :
  length d ≠ used →
  prune_groups fs pos used d rev = (Raise RuntimeError, d, rev).
Proof.
  intros H. rewrite prune_groups_step. by destruct (decide (length d = used)).
Qed.

(** One turn of the outer loop, at the entry that follows [before]. *)
Lemma prune_groups_turn fs before f group rest rev :
  prune_groups fs (length before) (length (before ++ (f, group) :: rest))
               (before ++ (f, group) :: rest) rev =
    let '(group', rev') := prune_files fs 0 group rev in
    match group' with
    | [] => (Raise RuntimeError, dict_del (before ++ (f, []) :: rest) f, rev')
    | _ => prune_groups fs (length (before ++ [(f, group')]))
             (length ((before ++ [(f, group')]) ++ rest))
             ((before ++ [(f, group')]) ++ rest) rev'
    end.
Proof.
  rewrite prune_groups_step.
  destruct (decide _) as [_|Hne]; [|done].
  rewrite lookup_middle.
  destruct (prune_files fs 0 group rev) as [[|x group'] rev'] eqn:Hfiles.
  - rewrite insert_middle. apply prune_groups_resized.
    assert ((f, []) ∈ before ++ (f, []) :: rest) as Hin
      by (apply elem_of_app; right; left).
    pose proof (dict_del_length _ _ _ Hin) as Hlen.
    rewrite !length_app in *. simpl in *. lia.
  - rewrite insert_middle.
    rewrite <- (app_assoc before [(f, x :: group')] rest). simpl.
    f_equal; rewrite !length_app; simpl; lia.
Qed.

Lemma prune_groups_end fs before rev :
  prune_groups fs (length before) (length (before ++ [])) (before ++ []) rev
    = (Return tt, before ++ [], rev).
Proof.
  rewrite prune_groups_step. destruct (decide _) as [_|Hne]; [|done].
  rewrite app_nil_r. by rewrite lookup_ge_None_2.
Qed.

Lemma list_remove_nodup (l : list string) x :
  NoDup l → NoDup (list_remove l x) ∧ x ∉ list_remove l x.
Proof.
  induction 1 as [|z l Hz Hnd IH]; simpl.
  - split; [constructor|]. apply not_elem_of_nil.
  - destruct (decide (x = z)) as [->|Hne]; [done|].
    destruct IH as [IH1 IH2]. split.
    + constructor; [|done]. intros Hin. by apply list_remove_elem in Hin.
    + intros Hin. apply elem_of_cons in Hin as [?|?]; done.
Qed.

(** What the inner loop takes out of a group it takes out of the reverse
    mapping. *)
Lemma prune_files_removed fs i group rev :
  let '(group', rev') := prune_files fs i group rev in
  ∀ x, x ∈ group → x ∉ group' → rev' !! x = None.
Proof.
  funelim (prune_files fs i group rev); [|done].
  destruct (isfile fs fileName) eqn:Hfile; cbn [negb]; [done|].
  pose proof (prune_files_spec fs (S i) (list_remove group fileName)
    (if bool_decide (is_Some (rev !! fileName)) then delete fileName rev else rev)) as Hspec.
  destruct (prune_files fs (S i) (list_remove group fileName) _) as [g' r'].
  destruct Hspec as (_ & _ & Hrev & _).
  intros x Hin Hout.
  destruct (decide (x = fileName)) as [->|Hne].
  - destruct (r' !! fileName) as [f|] eqn:Hr; [|done].
    apply Hrev in Hr. case_bool_decide as Hsome.
    + by rewrite lookup_delete_eq in Hr.
    + destruct Hsome. by eexists.
  - apply H; [|done]. by apply list_remove_other.
Qed.

(** In a group without repetitions, a member the inner loop keeps keeps its
    entry of the reverse mapping; and the group stays without repetitions. *)
Lemma prune_files_kept fs i group rev :
  NoDup group →
  let '(group', rev') := prune_files fs i group rev in
  NoDup group' ∧ ∀ x, x ∈ group' → rev' !! x = rev !! x.
Proof.
  funelim (prune_files fs i group rev); intros Hnd; [|done].
  destruct (isfile fs fileName) eqn:Hfile; cbn [negb]; [by apply H0|].
  destruct (list_remove_nodup group fileName Hnd) as [Hnd' Hout].
  specialize (H Hnd').
  pose proof (prune_files_spec fs (S i) (list_remove group fileName)
    (if bool_decide (is_Some (rev !! fileName)) then delete fileName rev else rev)) as Hspec.
  destruct (prune_files fs (S i) (list_remove group fileName) _) as [g' r'].
  destruct Hspec as (Hsub & _).
  destruct H as [Hg' Hsame]. split; [done|].
  intros x Hx. rewrite (Hsame x Hx).
  assert (x ≠ fileName) as Hne by (intros ->; apply Hout; eauto).
  case_bool_decide; [|done]. by rewrite lookup_delete_ne.
Qed.

(** The inner loop changes the reverse mapping at members of the group
    only. *)
Lemma prune_files_elsewhere fs i group rev :
  ∀ x, x ∉ group → (prune_files fs i group rev).2 !! x = rev !! x.
Proof.
  funelim (prune_files fs i group rev); intros x Hx; [|done].
  assert (fileName ∈ group) as Hin by (eapply list_elem_of_lookup_2; eauto).
  destruct (isfile fs fileName) eqn:Hfile; cbn [negb]; [by apply H0|].
  rewrite H; [|intros Hin'; by apply list_remove_elem in Hin'].
  assert (x ≠ fileName) as Hne by (intros ->; done).
  case_bool_decide; [|done]. by rewrite lookup_delete_ne.
Qed.

(** ** The outer loop, from any entry on *)

Lemma nodup_keys_middle (before rest : Fingerprints) f g e :
  NoDup (map fst (before ++ (f, g) :: rest)) →
  e ∈ before ++ rest → e.1 ≠ f.
Proof.
  rewrite map_app. simpl. intros Hnd Hin Heq.
  apply NoDup_app in Hnd as (_ & Hdisj & Hnd).
  apply NoDup_cons in Hnd as [Hout _].
  apply elem_of_app in Hin as [Hin|Hin].
  - apply (Hdisj f); [|left]. rewrite <- Heq. by apply list_elem_of_fmap_2.
  - apply Hout. rewrite <- Heq. by apply list_elem_of_fmap_2.
Qed.

Lemma nodup_keys_replace (before rest : Fingerprints) f g g' :
  NoDup (map fst (before ++ (f, g) :: rest)) →
  NoDup (map fst ((before ++ [(f, g')]) ++ rest)).
Proof. by rewrite <- app_assoc, !map_app. Qed.

(** The loop returns exactly when it empties no group on its way, and then
    every group has been through the inner loop, in place. *)
Lemma prune_groups_outcome fs rest : ∀ before rev,
  let '(r, d', rev') :=
    prune_groups fs (length before) (length (before ++ rest)) (before ++ rest) rev in
  ((∀ e, e ∈ rest → emptied fs e.2 = false) →
     r = Return tt ∧ d' = before ++ map (λ e, (e.1, pruned_group fs e.2)) rest) ∧
  ((∃ e, e ∈ rest ∧ emptied fs e.2 = true) → r = Raise RuntimeError).
Proof.
  induction rest as [|[f g] rest IH]; intros before rev.
  - rewrite prune_groups_end. split; [done|].
    intros (e & He & _). by apply elem_of_nil in He.
  - rewrite prune_groups_turn.
    pose proof (prune_files_emptied fs g rev) as Hemp.
    pose proof (prune_files_group fs 0 g rev ∅) as Hgrp.
    destruct (prune_files fs 0 g rev) as [[|x g'] rev1]; simpl in Hemp, Hgrp.
    + split; [|done]. intros Hall.
      specialize (Hall (f, g) ltac:(left)). simpl in Hall.
      rewrite (proj1 Hemp eq_refl) in Hall. done.
    + specialize (IH (before ++ [(f, x :: g')]) rev1).
      destruct (prune_groups _ _ _ _ _) as [[r d'] rev'].
      destruct IH as [IHret IHraise].
      assert (emptied fs g = false) as Hg.
      { destruct (emptied fs g); [|done]. by pose proof (proj2 Hemp eq_refl). }
      split.
      * intros Hall. destruct IHret as [-> ->].
        { intros e He. apply Hall. by right. }
        split; [done|]. rewrite <- app_assoc. simpl. unfold pruned_group at 2.
        by rewrite <- Hgrp.
      * intros (e & He & Hbad). apply IHraise. exists e. split; [|done].
        apply elem_of_cons in He as [->|He]; [|done]. simpl in Hbad. congruence.
Qed.

(** Whether the loop returns or raises: entries it has passed stay, no member
    that is a file on the disk leaves its group, nothing is added, and the
    reverse mapping loses entries of missing files only. *)
Lemma prune_groups_frame fs rest : ∀ before rev,
  NoDup (map fst (before ++ rest)) →
  let '(r, d', rev') :=
    prune_groups fs (length before) (length (before ++ rest)) (before ++ rest) rev in
  (∀ e, e ∈ before → e ∈ d') ∧
  (∀ f g p, (f, g) ∈ rest → p ∈ g →
     listed_under d' p f ∨ (isfile fs p = false ∧ rev' !! p = None)) ∧
  (∀ p f, listed_under d' p f → listed_under (before ++ rest) p f) ∧
  (∀ p f, rev' !! p = Some f → rev !! p = Some f) ∧
  (∀ p, isfile fs p = true → rev' !! p = rev !! p).
Proof.
  induction rest as [|[f g] rest IH]; intros before rev Hnd.
  - rewrite prune_groups_end. rewrite app_nil_r. split_and!; try done.
    intros f g p Hin. by apply elem_of_nil in Hin.
  - rewrite prune_groups_turn.
    pose proof (prune_files_spec fs 0 g rev) as Hspec.
    pose proof (prune_files_removed fs 0 g rev) as Hrem.
    destruct (prune_files fs 0 g rev) as [g1 rev1].
    destruct Hspec as (Hsub & Hkeep & Hrev & Hsame).
    assert (∀ p, p ∈ g → p ∉ g1 → isfile fs p = false ∧ rev1 !! p = None) as Hgone.
    { intros p Hp Hout. split; [|by apply Hrem].
      destruct (isfile fs p) eqn:Hfile; [|done]. destruct Hout. by apply Hkeep. }
    destruct g1 as [|x g'].
    + split_and!; try done.
      * intros e He. destruct e as [k v]. apply dict_del_other.
        -- apply (nodup_keys_middle before rest f g (k, v) Hnd).
           apply elem_of_app. by left.
        -- apply elem_of_app. by left.
      * intros f0 g0 p Hin Hp. apply elem_of_cons in Hin as [Heq|Hin].
        -- injection Heq as -> ->. right. apply Hgone; [done|]. apply not_elem_of_nil.
        -- left. exists g0. split; [|done]. apply dict_del_other.
           ++ apply (nodup_keys_middle before rest f g (f0, g0) Hnd).
              apply elem_of_app. by right.
           ++ apply elem_of_app. right. by right.
      * intros p f0 (g0 & Hin & Hp). apply dict_del_elem in Hin.
        apply elem_of_app in Hin as [Hin|Hin].
        -- exists g0. split; [|done]. apply elem_of_app. by left.
        -- apply elem_of_cons in Hin as [Heq|Hin].
           ++ injection Heq as -> ->. by apply elem_of_nil in Hp.
           ++ exists g0. split; [|done]. apply elem_of_app. right. by right.
    + specialize (IH (before ++ [(f, x :: g')]) rev1
                    (nodup_keys_replace before rest f g (x :: g') Hnd)).
      destruct (prune_groups _ _ _ _ _) as [[r d'] rev'].
      destruct IH as (IHb & IHr & IHl & IHrev & IHsame).
      split_and!.
      * intros e He. apply IHb. apply elem_of_app. by left.
      * intros f0 g0 p Hin Hp. apply elem_of_cons in Hin as [Heq|Hin].
        -- injection Heq as -> ->.
           destruct (decide (p ∈ x :: g')) as [Hp'|Hp'].
           ++ left. exists (x :: g'). split; [|done].
              apply IHb. apply elem_of_app. right. left.
           ++ right. destruct (Hgone p Hp Hp') as [Hfile Hnone]. split; [done|].
              destruct (rev' !! p) as [f1|] eqn:Hr; [|done].
              apply IHrev in Hr. congruence.
        -- by apply IHr with g0.
      * intros p f0 Hl. apply IHl in Hl as (g0 & Hin & Hp).
        rewrite <- app_assoc in Hin. simpl in Hin.
        apply elem_of_app in Hin as [Hin|Hin].
        -- exists g0. split; [|done]. apply elem_of_app. by left.
        -- apply elem_of_cons in Hin as [Heq|Hin].
           ++ injection Heq as -> ->. exists g. split; [|by apply Hsub].
              apply elem_of_app. right. left.
           ++ exists g0. split; [|done]. apply elem_of_app. right. by right.
      * intros p f0 Hr. apply Hrev. by apply IHrev.
      * intros p Hfile. rewrite IHsame; [|done]. by apply Hsame.
Qed.

(** Under the hypotheses of an index: no path under two fingerprints, no group
    with a repetition.  A member the loop leaves listed keeps its entry of
    the reverse mapping. *)
Lemma prune_groups_listed_rev fs rest : ∀ before rev,
  NoDup (map fst (before ++ rest)) →
  (∀ e, e ∈ rest → NoDup e.2) →
  (∀ p f1 f2, listed_under (before ++ rest) p f1 →
              listed_under (before ++ rest) p f2 → f1 = f2) →
  let '(r, d', rev') :=
    prune_groups fs (length before) (length (before ++ rest)) (before ++ rest) rev in
  ∀ p f, listed_under d' p f → rev' !! p = rev !! p.
Proof.
  induction rest as [|[f g] rest IH]; intros before rev Hnd Hgroups Huniq.
  - by rewrite prune_groups_end.
  - pose proof (prune_groups_frame fs ((f, g) :: rest) before rev Hnd) as Hframe.
    revert Hframe. rewrite prune_groups_turn.
    pose proof (prune_files_spec fs 0 g rev) as Hspec.
    pose proof (prune_files_kept fs 0 g rev (Hgroups (f, g) ltac:(left))) as Hkept.
    pose proof (prune_files_elsewhere fs 0 g rev) as Helse.
    destruct (prune_files fs 0 g rev) as [g1 rev1]. simpl in Helse.
    destruct Hspec as (Hsub & _). destruct Hkept as [Hnd1 Hkept].
    assert (∀ p f0 g0, (f0, g0) ∈ before ++ rest → p ∈ g0 → rev1 !! p = rev !! p)
      as Hother.
    { intros p f0 g0 Hin Hp. apply Helse. intros Hpg.
      apply (nodup_keys_middle before rest f g (f0, g0) Hnd Hin). simpl.
      apply (Huniq p).
      - exists g0. split; [|done].
        apply elem_of_app in Hin as [Hin|Hin]; apply elem_of_app; [by left|right; by right].
      - exists g. split; [|done]. apply elem_of_app. right. left. }
    destruct g1 as [|x g'].
    + intros (_ & _ & Hl & _) p f0 Hlisted.
      destruct Hlisted as (g0 & Hin & Hp). apply dict_del_elem in Hin.
      apply elem_of_app in Hin as [Hin|Hin].
      * apply (Hother p f0 g0); [|done]. apply elem_of_app. by left.
      * apply elem_of_cons in Hin as [Heq|Hin].
        -- injection Heq as -> ->. by apply elem_of_nil in Hp.
        -- apply (Hother p f0 g0); [|done]. apply elem_of_app. by right.
    + pose proof (prune_groups_frame fs rest (before ++ [(f, x :: g')]) rev1
                    (nodup_keys_replace before rest f g (x :: g') Hnd)) as Hframe'.
      specialize (IH (before ++ [(f, x :: g')]) rev1
                    (nodup_keys_replace before rest f g (x :: g') Hnd)).
      destruct (prune_groups _ _ _ _ _) as [[r d'] rev'].
      intros _ p f0 Hlisted.
      assert (∀ p f0, listed_under ((before ++ [(f, x :: g')]) ++ rest) p f0 →
                      listed_under (before ++ (f, g) :: rest) p f0) as Hback.
      { intros q k (g0 & Hin & Hq). rewrite <- app_assoc in Hin. simpl in Hin.
        apply elem_of_app in Hin as [Hin|Hin].
        - exists g0. split; [|done]. apply elem_of_app. by left.
        - apply elem_of_cons in Hin as [Heq|Hin].
          + injection Heq as -> ->. exists g. split; [|by apply Hsub].
            apply elem_of_app. right. left.
          + exists g0. split; [|done]. apply elem_of_app. right. by right. }
      rewrite (IH ltac:(intros e He; apply Hgroups; by right)
                  ltac:(intros q k1 k2 H1 H2; apply (Huniq q); by apply Hback) p f0 Hlisted).
      destruct Hframe' as (_ & _ & Hl' & _).
      apply Hl' in Hlisted as (g0 & Hin & Hp).
      rewrite <- app_assoc in Hin. simpl in Hin.
      apply elem_of_app in Hin as [Hin|Hin].
      * apply (Hother p f0 g0); [|done]. apply elem_of_app. by left.
      * apply elem_of_cons in Hin as [Heq|Hin].
        -- injection Heq as -> ->. by apply Hkept.
        -- apply (Hother p f0 g0); [|done]. apply elem_of_app. by right.
Qed.

(** ** [pruneFingerprints], from its loop *)

(** The instance after [pruneFingerprints] holds what the loop left; the
    exception of the loop is the exception of the method; and when the loop
    returns, the method returns unless writing the cache raises. *)
Lemma pruneFingerprints_loop st :
  let s := self st in
  let '(r, d, rev) :=
    prune_groups (files (world st)) 0 (length (fingerprints s)) (fingerprints s)
                 (reverseFingerprints s) in
  self (pruneFingerprints st).2 = set_reverseFingerprints rev (set_fingerprints d s) ∧
  (∀ e, r = Raise e →
     pruneFingerprints st
       = (Raise e, mkState (set_reverseFingerprints rev (set_fingerprints d s)) (world st))) ∧
  (r = Return tt →
     (pruneFingerprints st).1 = Return tt ∨
     (pruneFingerprints st).1 = Raise FileExistsError ∨
     (pruneFingerprints st).1 = Raise FileNotFoundError ∨
     (pruneFingerprints st).1 = Raise IsADirectoryError).
Proof.
  unfold pruneFingerprints, bind, gets, ret. cbn zeta.
  destruct (prune_groups _ _ _ _ _) as [[[[]|e] d] rev].
  - cbn [self cacheEnabled set_reverseFingerprints set_fingerprints].
    set (st1 := mkState _ (world st)).
    destruct (cacheEnabled (self st)) eqn:Hc; cbn beta.
    + destruct (writeCache_spec st1) as (r & st' & Hw & Hself & _ & Hr).
      rewrite Hw. split_and!; [|done|].
      * destruct r; cbn; by rewrite Hself.
      * intros _. destruct Hr as [[-> _]|[[-> _]|[[-> _]| ->]]]; cbn; eauto.
    + split_and!; try done. by left.
  - split_and!; try done. by intros e' [= ->].
Qed.

Lemma emptied_somewhere fs (d : Fingerprints) :
  (∀ e, e ∈ d → emptied fs e.2 = false) ∨ (∃ e, e ∈ d ∧ emptied fs e.2 = true).
Proof.
  induction d as [|e d [IH|(e' & He' & Hbad)]].
  - left. intros e He. by apply elem_of_nil in He.
  - destruct (emptied fs e.2) eqn:He.
    + right. exists e. split; [left|done].
    + left. intros e' [->|He']%elem_of_cons; eauto.
  - right. exists e'. split; [by right|done].
Qed.

(** No two neighbours of a group are both missing from the disk. *)
Lemma list_remove_middle (pre suf : list string) x :
  x ∉ pre → list_remove (pre ++ x :: suf) x = pre ++ suf.
Proof.
  induction pre as [|z pre IH]; simpl; intros Hout.
  - by destruct (decide (x = x)).
  - destruct (decide (x = z)) as [->|Hne]; [destruct Hout; left|].
    f_equal. apply IH. intros Hin. apply Hout. by right.
Qed.

(** The inner loop on a group without repetitions in which no two neighbours
    are both missing: from any position on, what it leaves is the members
    that are files. *)
Lemma prune_files_no_neighbours fs n : ∀ suf pre rev,
  (length suf <= n)%nat →
  NoDup (pre ++ suf) →
  (∀ i x y, suf !! i = Some x → suf !! S i = Some y →
     isfile fs x = true ∨ isfile fs y = true) →
  (prune_files fs (length pre) (pre ++ suf) rev).1 = pre ++ List.filter (isfile fs) suf.
Proof.
  induction n as [|n IH]; intros suf pre rev Hlen Hnd Hnb.
  - destruct suf; [|simpl in Hlen; lia].
    simpl. rewrite prune_files_step, app_nil_r. by rewrite lookup_ge_None_2.
  - destruct suf as [|x suf].
    { simpl. rewrite prune_files_step, app_nil_r. by rewrite lookup_ge_None_2. }
    rewrite prune_files_step, list_lookup_middle; [|done].
    simpl in Hlen. simpl List.filter.
    destruct (isfile fs x) eqn:Hx; cbn [negb].
    + replace (pre ++ x :: suf) with ((pre ++ [x]) ++ suf) by by rewrite <- app_assoc.
      replace (S (length pre)) with (length (pre ++ [x])) by (rewrite length_app; simpl; lia).
      rewrite IH; [by rewrite <- app_assoc|lia|by rewrite <- app_assoc|].
      intros i a b Ha Hb. by apply (Hnb (S i)).
    + rewrite list_remove_middle.
      2:{ apply NoDup_app in Hnd as (_ & Hdisj & _). intros Hin.
          apply (Hdisj x Hin). left. }
      destruct suf as [|y suf].
      { simpl. rewrite prune_files_step, app_nil_r. rewrite lookup_ge_None_2; [done|lia]. }
      destruct (Hnb 0%nat x y eq_refl eq_refl) as [Hy|Hy]; [congruence|].
      simpl List.filter. rewrite Hy.
      replace (pre ++ y :: suf) with ((pre ++ [y]) ++ suf) by by rewrite <- app_assoc.
      replace (S (length pre)) with (length (pre ++ [y])) by (rewrite length_app; simpl; lia).
      simpl in Hlen.
      rewrite IH; [by rewrite <- app_assoc|lia| |].
      * rewrite <- app_assoc. simpl.
        apply NoDup_app in Hnd as (Hpre & Hdisj & Hsuf).
        apply NoDup_cons in Hsuf as [_ Hsuf].
        apply NoDup_app. split_and!; [done| |done].
        intros z Hz Hin. apply (Hdisj z Hz). by right.
      * intros i a b Ha Hb. by apply (Hnb (S (S i))).
Qed.

(** A dictionary every member of which is a file on the disk, no group
    empty, goes through the loop as it is. *)
Lemma prune_groups_clean fs rest : ∀ before rev,
  (∀ e, e ∈ rest → e.2 ≠ [] ∧ ∀ p, p ∈ e.2 → isfile fs p = true) →
  prune_groups fs (length before) (length (before ++ rest)) (before ++ rest) rev
    = (Return tt, before ++ rest, rev).
Proof.
  induction rest as [|[f g] rest IH]; intros before rev Hclean.
  - apply prune_groups_end.
  - rewrite prune_groups_turn.
    destruct (Hclean (f, g) ltac:(left)) as [Hne Hall]. simpl in Hne, Hall.
    rewrite (prune_files_all_exist fs 0 g rev Hall).
    destruct g as [|x g]; [done|].
    rewrite IH; [by rewrite <- app_assoc|].
    intros e He. apply Hclean. by right.
Qed.

Lemma emptied_iff fs g :
  emptied fs g = true ↔ g = [] ∨ ∃ p, g = [p] ∧ isfile fs p = false.
Proof.
  destruct g as [|p [|q g]]; cbn [emptied].
  - split; [by left|done].
  - destruct (isfile fs p) eqn:Hp; cbn [negb]; split; try done.
    + intros [?|(q & [= <-] & ?)]; [done|congruence].
    + intros _. right. by exists p.
  - split; [done|]. intros [?|(q' & ? & _)]; done.
Qed.

(* ================================================================== *)
(** * Pruning: what it removes, what it keeps, when it raises *)

(** [pruneFingerprints] raises [RuntimeError] exactly when the index holds a
    group with no member, or a group of one member that is not a file on the
    disk: that group is deleted from the dictionary under its iterator.  A
    group of two or more members never is.  When it raises, nothing has been
    written: the world is as it was. *)
Theorem prune_raises_iff_group_emptied (st : State) :
  ((pruneFingerprints st).1 = Raise RuntimeError ↔
     ∃ f g, (f, g) ∈ fingerprints (self st) ∧
            (g = [] ∨ ∃ p, g = [p] ∧ isfile (files (world st)) p = false)) ∧
  ((pruneFingerprints st).1 = Raise RuntimeError →
     world (pruneFingerprints st).2 = world st).
Proof.
  pose proof (pruneFingerprints_loop st) as Hloop.
  pose proof (prune_groups_outcome (files (world st)) (fingerprints (self st)) []
                (reverseFingerprints (self st))) as Hout.
  cbn zeta in Hloop. simpl in Hout.
  destruct (prune_groups _ _ _ _ _) as [[r d] rev].
  destruct Hloop as (_ & Hraise & Hret). destruct Hout as [Hgood Hbad].
  destruct (emptied_somewhere (files (world st)) (fingerprints (self st)))
    as [Hall|(e & He & Hemp)].
  - destruct (Hgood Hall) as [-> _].
    assert ((pruneFingerprints st).1 ≠ Raise RuntimeError) as Hne.
    { destruct (Hret eq_refl) as [H|[H|[H|H]]]; by rewrite H. }
    split; [split|]; [done| |done].
    intros (f & g & Hin & Hg). apply emptied_iff in Hg.
    specialize (Hall (f, g) Hin). simpl in Hall. congruence.
  - rewrite (Hraise RuntimeError (Hbad (ex_intro _ e (conj He Hemp)))). simpl.
    split; [split|]; [|done..].
    intros _. destruct e as [f g]. exists f, g. split; [done|]. by apply emptied_iff.
Qed.

(** Whether it returns or raises, [pruneFingerprints] takes out of the index
    only members that are not files on the disk: a listed path that is a
    file stays listed under its fingerprint and keeps its entry of the reverse
    mapping; nothing is listed that was not; and the reverse mapping gains no
    entry and changes none. *)
Theorem prune_removes_only_missing_files (st : State) :
  NoDup (map fst (fingerprints (self st))) →
  (∀ p f, listed_under (fingerprints (self st)) p f →
          isfile (files (world st)) p = true →
          listed_under (fingerprints (self (pruneFingerprints st).2)) p f) ∧
  (∀ p f, listed_under (fingerprints (self (pruneFingerprints st).2)) p f →
          listed_under (fingerprints (self st)) p f) ∧
  (∀ p, isfile (files (world st)) p = true →
        reverseFingerprints (self (pruneFingerprints st).2) !! p
          = reverseFingerprints (self st) !! p) ∧
  (∀ p f, reverseFingerprints (self (pruneFingerprints st).2) !! p = Some f →
          reverseFingerprints (self st) !! p = Some f).
Proof.
  intros Hnd.
  pose proof (pruneFingerprints_loop st) as Hloop.
  pose proof (prune_groups_frame (files (world st)) (fingerprints (self st)) []
                (reverseFingerprints (self st)) Hnd) as Hframe.
  cbn zeta in Hloop. simpl in Hframe.
  destruct (prune_groups _ _ _ _ _) as [[r d] rev].
  destruct Hloop as (-> & _). destruct Hframe as (_ & Hkeep & Hsub & Hrev & Hsame).
  cbn. split_and!; try done.
  intros p f (g & Hin & Hp) Hfile.
  destruct (Hkeep f g p Hin Hp) as [?|[? _]]; [done|congruence].
Qed.

Lemma prune_removes_only_missing_files_witness :
  (∀ p f, listed_under (fingerprints (self gap_state)) p f →
          isfile (files (world gap_state)) p = true →
          listed_under (fingerprints (self (pruneFingerprints gap_state).2)) p f) ∧
  (∀ p f, listed_under (fingerprints (self (pruneFingerprints gap_state).2)) p f →
          listed_under (fingerprints (self gap_state)) p f) ∧
  (∀ p, isfile (files (world gap_state)) p = true →
        reverseFingerprints (self (pruneFingerprints gap_state).2) !! p
          = reverseFingerprints (self gap_state) !! p) ∧
  (∀ p f, reverseFingerprints (self (pruneFingerprints gap_state).2) !! p = Some f →
          reverseFingerprints (self gap_state) !! p = Some f).
Proof.
  apply (prune_removes_only_missing_files gap_state).
  apply (bool_decide_unpack _). vm_compute. exact I.
Defined.

(** [pruneFingerprints] keeps the two mappings in step: where fingerprints
    are listed once and no group lists a path twice, an index that satisfies
    the invariant before the call satisfies it after, whether the call returns
    or raises.  The members it fails to remove stay in both mappings. *)
Theorem prune_keeps_index_invariant (st : State) :
  NoDup (map fst (fingerprints (self st))) →
  (∀ f g, (f, g) ∈ fingerprints (self st) → NoDup g) →
  index_invariant (fingerprints (self st)) (reverseFingerprints (self st)) →
  index_invariant (fingerprints (self (pruneFingerprints st).2))
                  (reverseFingerprints (self (pruneFingerprints st).2)).
Proof.
  intros Hnd Hgroups [Hfwd Hbwd].
  pose proof (pruneFingerprints_loop st) as Hloop.
  pose proof (prune_groups_frame (files (world st)) (fingerprints (self st)) []
                (reverseFingerprints (self st)) Hnd) as Hframe.
  pose proof (prune_groups_listed_rev (files (world st)) (fingerprints (self st)) []
                (reverseFingerprints (self st)) Hnd) as Hlisted.
  cbn zeta in Hloop. simpl in Hframe, Hlisted.
  destruct (prune_groups _ _ _ _ _) as [[r d] rev].
  destruct Hloop as (-> & _). destruct Hframe as (_ & Hkeep & Hsub & Hrev & Hsame).
  cbn. split.
  - intros f p Hl.
    rewrite (Hlisted ltac:(intros [k g] He; by apply (Hgroups k g))
               ltac:(intros q f1 f2 H1 H2; apply Hfwd in H1, H2; congruence) p f Hl).
    apply Hfwd. by apply Hsub.
  - intros p f Hr. pose proof (Hrev p f Hr) as Hr0.
    destruct (Hbwd p f Hr0) as (g & Hg & Hp).
    destruct (Hkeep f g p Hg Hp) as [?|[_ Hnone]]; [done|congruence].
Qed.

Lemma prune_keeps_index_invariant_witness :
  index_invariant (fingerprints (self (pruneFingerprints gap_state).2))
                  (reverseFingerprints (self (pruneFingerprints gap_state).2)).
Proof.
  apply (prune_keeps_index_invariant gap_state).
  - apply (bool_decide_unpack _). vm_compute. exact I.
  - intros f g Hin. apply list_elem_of_In in Hin. simpl in Hin.
    destruct Hin as [[= <- <-]|[[= <- <-]|[]]];
      apply (bool_decide_unpack _); vm_compute; exact I.
  - apply reverse_of_inverse. intros p f f' (g & Hg & Hp) (g' & Hg' & Hp').
    apply list_elem_of_In in Hg, Hg'. simpl in Hg, Hg'.
    destruct Hg as [[= <- <-]|[[= <- <-]|[]]];
      destruct Hg' as [[= <- <-]|[[= <- <-]|[]]]; try done;
      apply list_elem_of_In in Hp, Hp'; simpl in Hp, Hp'; intuition congruence.
Defined.

(** When [pruneFingerprints] does not raise [RuntimeError], the index has the
    same fingerprints in the same order, each group has only lost members,
    and it has kept at least half of them, rounded down, however many of its
    files are gone: removing a member moves the next one under the list
    iterator, which steps over it. *)
Theorem prune_keeps_half_of_each_group (st : State) :
  (pruneFingerprints st).1 ≠ Raise RuntimeError →
  Forall2 (λ e e' : string * list string,
             e'.1 = e.1 ∧ (∀ p, p ∈ e'.2 → p ∈ e.2) ∧
             (length e.2 <= 2 * length e'.2 + 1)%nat)
          (fingerprints (self st)) (fingerprints (self (pruneFingerprints st).2)).
Proof.
  intros Hne.
  pose proof (pruneFingerprints_loop st) as Hloop.
  pose proof (prune_groups_outcome (files (world st)) (fingerprints (self st)) []
                (reverseFingerprints (self st))) as Hout.
  cbn zeta in Hloop. simpl in Hout.
  destruct (prune_groups _ _ _ _ _) as [[r d] rev].
  destruct Hloop as (-> & Hraise & _). destruct Hout as [Hgood Hbad].
  destruct (emptied_somewhere (files (world st)) (fingerprints (self st)))
    as [Hall|Hsome].
  - destruct (Hgood Hall) as [_ ->]. cbn.
    apply Forall2_fmap_r, Forall_Forall2_diag, Forall_forall.
    intros [f g] _. cbn. unfold pruned_group. split_and!; [done| |].
    + pose proof (prune_files_spec (files (world st)) 0 g ∅) as Hspec.
      destruct (prune_files _ _ _ _). by destruct Hspec as (? & _).
    + pose proof (prune_files_length (files (world st)) 0 g ∅ ltac:(lia)). lia.
  - destruct Hne. by rewrite (Hraise RuntimeError (Hbad Hsome)).
Qed.

Lemma prune_keeps_half_of_each_group_witness :
  Forall2 (λ e e' : string * list string,
             e'.1 = e.1 ∧ (∀ p, p ∈ e'.2 → p ∈ e.2) ∧
             (length e.2 <= 2 * length e'.2 + 1)%nat)
          (fingerprints (self gap_state))
          (fingerprints (self (pruneFingerprints gap_state).2)).
Proof.
  apply (prune_keeps_half_of_each_group gap_state).
  vm_compute. discriminate.
Defined.

(** On an index every member of which is a file on the disk, no group
    empty, [pruneFingerprints] changes nothing in the instance and does not
    raise [RuntimeError]; with the cache disabled it changes nothing at
    all. *)
Theorem prune_clean_index_unchanged (st : State) :
  (∀ f g, (f, g) ∈ fingerprints (self st) →
     g ≠ [] ∧ ∀ p, p ∈ g → isfile (files (world st)) p = true) →
  self (pruneFingerprints st).2 = self st ∧
  (pruneFingerprints st).1 ≠ Raise RuntimeError ∧
  (cacheEnabled (self st) = false → pruneFingerprints st = (Return tt, st)).
Proof.
  intros Hclean.
  pose proof (pruneFingerprints_loop st) as Hloop.
  pose proof (prune_groups_clean (files (world st)) (fingerprints (self st)) []
                (reverseFingerprints (self st))
                ltac:(intros [f g] He; by apply (Hclean f g))) as Heq.
  cbn zeta in Hloop. simpl in Heq. rewrite Heq in Hloop.
  destruct Hloop as (Hself & _ & Hret).
  rewrite set_fingerprints_id, set_reverse_id in Hself.
  split_and!; [done| |].
  - destruct (Hret eq_refl) as [H|[H|[H|H]]]; by rewrite H.
  - intros Hc. unfold pruneFingerprints, bind, gets, ret. rewrite Heq.
    cbn [self cacheEnabled set_reverseFingerprints set_fingerprints]. rewrite Hc.
    rewrite set_fingerprints_id, set_reverse_id. by destruct st.
Qed.

Lemma prune_clean_index_unchanged_witness :
  self (pruneFingerprints (pruneFingerprints gap_state).2).2
    = self (pruneFingerprints gap_state).2 ∧
  (pruneFingerprints (pruneFingerprints gap_state).2).1 ≠ Raise RuntimeError ∧
  (cacheEnabled (self (pruneFingerprints gap_state).2) = false →
   pruneFingerprints (pruneFingerprints gap_state).2
     = (Return tt, (pruneFingerprints gap_state).2)).
Proof.
  apply (prune_clean_index_unchanged (pruneFingerprints gap_state).2).
  intros f g Hin. apply list_elem_of_In in Hin. vm_compute in Hin.
  destruct Hin as [[= <- <-]|[[= <- <-]|[]]]; (split; [done|]);
    intros p Hp; apply list_elem_of_In in Hp; simpl in Hp;
    repeat (destruct Hp as [<-|Hp]; [vm_compute; reflexivity|]); destruct Hp.
Defined.

(** [pruneFingerprints] removes every missing file, and only those, under a
    condition on the index: fingerprints are listed once, no group lists a
    path twice, every group has a member that is a file on the disk, and no
    two neighbours in a group are both missing.  Then it does not raise
    [RuntimeError], each group is left with its members that are files, in
    their order, and no missing member keeps an entry of the reverse
    mapping. *)
Theorem prune_exact_without_missing_neighbours (st : State) :
  NoDup (map fst (fingerprints (self st))) →
  (∀ f g, (f, g) ∈ fingerprints (self st) →
     NoDup g ∧
     (∃ p, p ∈ g ∧ isfile (files (world st)) p = true) ∧
     (∀ i x y, g !! i = Some x → g !! S i = Some y →
        isfile (files (world st)) x = true ∨ isfile (files (world st)) y = true)) →
  (pruneFingerprints st).1 ≠ Raise RuntimeError ∧
  fingerprints (self (pruneFingerprints st).2)
    = map (λ e, (e.1, List.filter (isfile (files (world st))) e.2))
          (fingerprints (self st)) ∧
  (∀ p, listed (fingerprints (self st)) p → isfile (files (world st)) p = false →
        reverseFingerprints (self (pruneFingerprints st).2) !! p = None).
Proof.
  intros Hnd Hgroups.
  pose proof (pruneFingerprints_loop st) as Hloop.
  pose proof (prune_groups_outcome (files (world st)) (fingerprints (self st)) []
                (reverseFingerprints (self st))) as Hout.
  pose proof (prune_groups_frame (files (world st)) (fingerprints (self st)) []
                (reverseFingerprints (self st)) Hnd) as Hframe.
  cbn zeta in Hloop. simpl in Hout, Hframe.
  destruct (prune_groups _ _ _ _ _) as [[r d] rev].
  destruct Hloop as (-> & _ & Hret). destruct Hout as [Hgood _].
  destruct Hframe as (_ & Hkeep & _).
  assert (∀ e, e ∈ fingerprints (self st) → emptied (files (world st)) e.2 = false)
    as Hall.
  { intros [f g] He. destruct (Hgroups f g He) as (_ & (p & Hp & Hfile) & _). simpl.
    destruct (emptied (files (world st)) g) eqn:Hemp; [|done].
    apply emptied_iff in Hemp as [->|(q & -> & Hq)].
    - by apply elem_of_nil in Hp.
    - apply list_elem_of_singleton in Hp. congruence. }
  destruct (Hgood Hall) as [-> ->]. cbn.
  assert (map (λ e, (e.1, pruned_group (files (world st)) e.2)) (fingerprints (self st))
          = map (λ e, (e.1, List.filter (isfile (files (world st))) e.2))
                (fingerprints (self st))) as Hmap.
  { apply map_ext_in. intros [f g] He. apply list_elem_of_In in He.
    destruct (Hgroups f g He) as (Hg & _ & Hnb). cbn. f_equal.
    apply (prune_files_no_neighbours (files (world st)) (length g) g [] ∅);
      [lia|done|done]. }
  split_and!.
  - destruct (Hret eq_refl) as [H|[H|[H|H]]]; by rewrite H.
  - done.
  - intros p (f & g & Hin & Hp) Hmissing.
    destruct (Hkeep f g p Hin Hp) as [Hl|[_ Hnone]]; [|done].
    rewrite Hmap in Hl. destruct Hl as (g' & Hin' & Hp').
    apply list_elem_of_fmap in Hin' as ([f0 g0] & [= -> ->] & _).
    apply list_elem_of_In, filter_In in Hp' as [_ Hfile]. congruence.
Qed.

Lemma prune_exact_without_missing_neighbours_witness :
  (pruneFingerprints gap_state).1 ≠ Raise RuntimeError ∧
  fingerprints (self (pruneFingerprints gap_state).2)
    = map (λ e, (e.1, List.filter (isfile (files (world gap_state))) e.2))
          (fingerprints (self gap_state)) ∧
  (∀ p, listed (fingerprints (self gap_state)) p →
        isfile (files (world gap_state)) p = false →
        reverseFingerprints (self (pruneFingerprints gap_state).2) !! p = None).
Proof.
  apply (prune_exact_without_missing_neighbours gap_state).
  - apply (bool_decide_unpack _). vm_compute. exact I.
  - intros f g Hin. apply list_elem_of_In in Hin. simpl in Hin.
    destruct Hin as [[= <- <-]|[[= <- <-]|[]]]; split_and!.
    + apply (bool_decide_unpack _). vm_compute. exact I.
    + exists "/m/a.mp3". split; [left|vm_compute; reflexivity].
    + intros [|[|[|i]]] x y Hx Hy; simpl in Hx, Hy; try done;
        injection Hx as <-; injection Hy as <-; vm_compute; tauto.
    + apply (bool_decide_unpack _). vm_compute. exact I.
    + exists "/m/d.mp3". split; [left|vm_compute; reflexivity].
    + intros [|i] x y Hx Hy; simpl in Hx, Hy; done.
Defined.

(* ================================================================== *)
(** * What a pool returns, and for which files it runs the command *)

Section Answers.
Variable E : Env.

(** The answer of [scanFile] for a path is decided by the reverse mapping of
    the instance it runs on and by what the command does for the path. *)
Lemma scanFile_answer s0 fs r log p :
  (scanFile E p (worker_state s0 fs r log)).1 =
    Return match r !! p with
           | Some f => Some (mkScanResult p f true)
           | None =>
               match run_for E s0 fs p with
               | Exited rc (JsonObject (Some fp)) =>
                   if (rc =? 0)%Z then Some (mkScanResult p fp true) else None
               | _ => None
               end
           end.
Proof.
  unfold scanFile, bind, gets, ret, try_except, scanFile_try, bind, gets, in_world,
    popen, worker_state.
  cbn. destruct (r !! p) as [f|] eqn:Hr; [done|]. cbn.
  rewrite provider_argv_set_reverse. unfold run_for.
  destruct (run_cmd E fs (provider_argv s0 p) (fingerprintCmdTimeout s0))
    as [| |rc out]; simpl; try done.
  destruct (rc =? 0)%Z; simpl; by destruct out as [| |[fp|]].
Qed.

(** On such a copy [scanFile] answers as it does on the coordinator's
    instance. *)
Lemma scanFile_answer_copy s0 fs rev0 r log log0 p :
  copy_of E s0 fs rev0 r →
  (scanFile E p (worker_state s0 fs r log)).1
    = (scanFile E p (worker_state s0 fs rev0 log0)).1.
Proof.
  intros [Hgrow Hsound]. rewrite !scanFile_answer.
  destruct (r !! p) as [f|] eqn:Hr.
  - destruct (Hsound _ _ Hr) as [Hr'|Hr']; [by rewrite Hr'|].
    destruct (rev0 !! p) as [f0|] eqn:Hr0.
    + apply Hgrow in Hr0. congruence.
    + rewrite Hr'. done.
  - destruct (rev0 !! p) as [f0|] eqn:Hr0; [|done].
    apply Hgrow in Hr0. congruence.
Qed.

Lemma worker_task_answers s0 fs rev0 log0 chunk : ∀ r log,
  copy_of E s0 fs rev0 r →
  ∃ results r' new,
    mapM (scanFile E) chunk (worker_state s0 fs r log)
      = (Return results, worker_state s0 fs r' (log ++ new)) ∧
    copy_of E s0 fs rev0 r' ∧
    Forall2 (λ q res, (scanFile E q (worker_state s0 fs rev0 log0)).1 = Return res)
            chunk results ∧
    Forall (λ c, ∃ q, q ∈ chunk ∧ rev0 !! q = None ∧ c = provider_argv s0 q) new ∧
    (length new <= length chunk)%nat.
Proof.
  induction chunk as [|p chunk IH]; intros r log Hcopy.
  - exists [], r, []. rewrite app_nil_r. split_and!; done.
  - destruct (scanFile_step E s0 fs r log p)
      as (res & r1 & new1 & Hrun1 & Hgrow1 & Hsound1 & Hres1 & Hhit1 & Hmiss1).
    assert (copy_of E s0 fs rev0 r1) as Hcopy1.
    { destruct Hcopy as [Hgrow Hsound]. split; [eauto|].
      intros q f Hq. apply Hsound1 in Hq as [Hq|[-> Hq]]; [eauto|by right]. }
    destruct (IH r1 (log ++ new1) Hcopy1)
      as (results & r2 & new2 & Hrun2 & Hcopy2 & Hans2 & Hnew2 & Hlen2).
    exists (res :: results), r2, (new1 ++ new2). split_and!.
    + simpl. unfold bind at 1. rewrite Hrun1. unfold bind at 1. rewrite Hrun2.
      unfold ret. by rewrite app_assoc.
    + done.
    + constructor; [|done].
      rewrite <- (scanFile_answer_copy s0 fs rev0 r log log0 p Hcopy). by rewrite Hrun1.
    + apply Forall_app. split.
      * destruct (r !! p) as [f|] eqn:Hr.
        -- rewrite Hhit1; [constructor|done].
        -- rewrite Hmiss1; [|done]. constructor; [|constructor].
           exists p. split_and!; [left| |done].
           destruct (rev0 !! p) as [f0|] eqn:Hr0; [|done].
           apply Hcopy in Hr0. congruence.
      * eapply Forall_impl; [exact Hnew2|].
        intros c (q & Hq & ? & ?). exists q. split_and!; [by right|done|done].
    + rewrite length_app. simpl.
      assert (length new1 <= 1)%nat; [|lia].
      destruct (r !! p) as [f|] eqn:Hr.
      * rewrite Hhit1; [simpl; lia|done].
      * rewrite Hmiss1; [simpl; lia|done].
Qed.

Lemma copy_of_start s0 fs rev0 : copy_of E s0 fs rev0 rev0.
Proof. split; [done|]. intros q f Hq. by left. Qed.

Lemma pool_tasks_answers s0 fs log0 tasks : ∀ log,
  ∃ batches new,
    mapM (fun task => in_worker (mapM (scanFile E) task)) tasks
         (mkState s0 (mkWorld fs log))
      = (Return batches, mkState s0 (mkWorld fs (log ++ new))) ∧
    Forall2 (λ q res, (scanFile E q (mkState s0 (mkWorld fs log0))).1 = Return res)
            (concat tasks) (concat batches) ∧
    Forall (λ c, ∃ q, q ∈ concat tasks ∧ reverseFingerprints s0 !! q = None ∧
                      c = provider_argv s0 q) new ∧
    (length new <= length (concat tasks))%nat.
Proof.
  assert (∀ log, mkState s0 (mkWorld fs log)
                 = worker_state s0 fs (reverseFingerprints s0) log) as Hst
    by (intros; unfold worker_state; by rewrite set_reverse_id).
  induction tasks as [|task tasks IH]; intros log.
  - exists [], []. rewrite app_nil_r. split_and!; try done; constructor.
  - destruct (worker_task_answers s0 fs (reverseFingerprints s0) log0 task
                (reverseFingerprints s0) log (copy_of_start _ _ _))
      as (results & r' & new1 & Hrun1 & _ & Hans1 & Hnew1 & Hlen1).
    destruct (IH (log ++ new1)) as (batches & new2 & Hrun2 & Hans2 & Hnew2 & Hlen2).
    exists (results :: batches), (new1 ++ new2). split_and!.
    + simpl. unfold bind at 1, in_worker at 1.
      rewrite (Hst log), Hrun1. cbn [self world worker_state files spawned].
      rewrite set_reverse_id.
      unfold bind at 1. rewrite Hrun2. unfold ret. by rewrite app_assoc.
    + simpl. apply Forall2_app; [|done]. by rewrite (Hst log0).
    + simpl. apply Forall_app. split.
      * eapply Forall_impl; [exact Hnew1|].
        intros c (q & Hq & ? & ?). exists q. split_and!; [|done..].
        apply elem_of_app. by left.
      * eapply Forall_impl; [exact Hnew2|].
        intros c (q & Hq & ? & ?). exists q. split_and!; [|done..].
        apply elem_of_app. by right.
    + simpl. rewrite !length_app. lia.
Qed.

(** [pool.map(self.scanFile, paths)]: one answer for each path, in the order
    of the paths, the one [scanFile] gives on the coordinator's instance; the
    command is run only for paths that are not in the coordinator's reverse
    mapping, at most once for each occurrence of a path. *)
Lemma pool_map_answers st (paths : list string) :
  (1 <= concurrentProcesses (self st))%Z →
  ∃ results new,
    pool_map (concurrentProcesses (self st)) (scanFile E) paths st
      = (Return results,
         mkState (self st) (mkWorld (files (world st)) (spawned (world st) ++ new))) ∧
    Forall2 (λ q res, (scanFile E q st).1 = Return res) paths results ∧
    Forall (λ c, ∃ q, q ∈ paths ∧ reverseFingerprints (self st) !! q = None ∧
                      c = provider_argv (self st) q) new ∧
    (length new <= length paths)%nat.
Proof.
  intros Hproc. destruct st as [s0 [fs log]]. cbn [self world files spawned].
  set (tasks := get_tasks paths (chunksize (length paths) (concurrentProcesses s0))).
  destruct (pool_tasks_answers s0 fs log tasks log)
    as (batches & new & Hrun & Hans & Hnew & Hlen).
  assert (concat tasks = paths) as Hconcat.
  { unfold tasks. rewrite concat_get_tasks.
    destruct (chunksize _ _) eqn:Hc; [|done].
    destruct paths as [|q paths]; [done|].
    exfalso. revert Hc. by apply chunksize_pos. }
  rewrite Hconcat in Hans, Hnew, Hlen.
  exists (concat batches), new. split_and!; try done.
  unfold pool_map. fold tasks. unfold bind. by rewrite Hrun.
Qed.

End Answers.

(* ================================================================== *)
(** * Merging results: what is recorded, what is kept *)

Lemma dict_get_elem (d : Fingerprints) k v :
  dict_get d k = Some v → (k, v) ∈ d.
Proof.
  induction d as [|[k' v'] d IH]; simpl; [done|].
  destruct (decide (k = k')) as [->|Hne].
  - intros [= ->]. left.
  - intros H. right. by apply IH.
Qed.

Lemma dict_get_None (d : Fingerprints) k :
  dict_get d k = None → k ∉ map fst d.
Proof.
  induction d as [|[k' v'] d IH]; simpl; [intros _; apply not_elem_of_nil|].
  destruct (decide (k = k')) as [->|Hne]; [done|].
  intros H [?|Hin]%elem_of_cons; [done|]. by apply IH.
Qed.

Lemma dict_append_keys (d : Fingerprints) k x :
  map fst (dict_append d k x) = map fst d.
Proof.
  induction d as [|[k' v'] d IH]; simpl; [done|].
  destruct (decide (k = k')); simpl; [done|]. by rewrite IH.
Qed.

Lemma dict_setdefault_keys (d : Fingerprints) k :
  NoDup (map fst d) → NoDup (map fst (dict_setdefault d k)).
Proof.
  intros Hnd. unfold dict_setdefault. destruct (dict_get d k) eqn:Hget; [done|].
  rewrite map_app. simpl. apply NoDup_app. split_and!; [done| |apply NoDup_singleton].
  intros k' Hin ->%list_elem_of_singleton. by apply dict_get_None in Hget.
Qed.

Lemma dict_setdefault_groups (d : Fingerprints) k :
  Forall (λ e, NoDup e.2) d → Forall (λ e, NoDup e.2) (dict_setdefault d k).
Proof.
  intros H. unfold dict_setdefault. destruct (dict_get d k); [done|].
  apply Forall_app. split; [done|]. constructor; [constructor|constructor].
Qed.

Lemma dict_append_groups (d : Fingerprints) k x :
  (∀ v, dict_get d k = Some v → x ∉ v) →
  Forall (λ e, NoDup e.2) d → Forall (λ e, NoDup e.2) (dict_append d k x).
Proof.
  induction d as [|[k' v'] d IH]; simpl; [done|].
  intros Hout Hall. apply Forall_cons in Hall as [Hv Hall].
  destruct (decide (k = k')) as [->|Hne].
  - constructor; [|done]. simpl in *. apply NoDup_app. split_and!; [done| |apply NoDup_singleton].
    intros y Hy ->%list_elem_of_singleton. by apply (Hout v').
  - constructor; [done|]. by apply IH.
Qed.

Lemma listed_under_setdefault_mono d k p f :
  listed_under d p f → listed_under (dict_setdefault d k) p f.
Proof.
  unfold dict_setdefault. destruct (dict_get d k); [done|].
  intros (g & Hg & Hp). exists g. split; [|done]. apply elem_of_app. by left.
Qed.

Lemma listed_under_append_mono d k x p f :
  listed_under d p f → listed_under (dict_append d k x) p f.
Proof.
  induction d as [|[k' v] d IH]; simpl; [done|].
  intros (g & Hg & Hp). apply elem_of_cons in Hg as [Heq|Hg].
  - injection Heq as -> ->. destruct (decide (k = k')).
    + exists (v ++ [x]). split; [left|]. apply elem_of_app. by left.
    + exists v. split; [left|done].
  - destruct (decide (k = k')).
    + exists g. split; [by right|done].
    + destruct IH as (g' & Hg' & Hp'); [by exists g|].
      exists g'. split; [by right|done].
Qed.

(** Merging a result takes nothing out of the forward mapping. *)
Lemma merge_result_mono d res p f :
  listed_under d p f → listed_under (merge_result d res) p f.
Proof.
  intros H. destruct res as [x|]; simpl; [|done].
  destruct (success x); simpl; [|done].
  destruct (truthy (file x) && truthy (fingerprint x)); simpl; [|done].
  destruct (negb _).
  - by apply listed_under_append_mono, listed_under_setdefault_mono.
  - by apply listed_under_setdefault_mono.
Qed.

(** A successful result with a path and a fingerprint that are not empty is
    in the forward mapping once merged. *)
Lemma merge_result_recorded d x :
  success x = true → truthy (file x) = true → truthy (fingerprint x) = true →
  listed_under (merge_result d (Some x)) (file x) (fingerprint x).
Proof.
  intros Hs Hp Hf. unfold merge_result. rewrite Hs, Hp, Hf. cbn [negb andb].
  rewrite (dict_get_setdefault d (fingerprint x)). cbn [default from_option id].
  set (g := default [] (dict_get d (fingerprint x))).
  unfold list_contains. destruct (bool_decide (file x ∈ g)) eqn:Hin; cbn [negb].
  - apply bool_decide_eq_true_1 in Hin. exists g. split; [|done].
    apply dict_get_elem. by rewrite dict_get_setdefault.
  - exists (g ++ [file x]). split; [|apply elem_of_app; right; left].
    apply dict_get_elem. by rewrite dict_get_append, dict_get_setdefault.
Qed.

Lemma merge_result_keys d res :
  NoDup (map fst d) → NoDup (map fst (merge_result d res)).
Proof.
  intros H. destruct res as [x|]; simpl; [|done].
  destruct (success x); simpl; [|done].
  destruct (truthy (file x) && truthy (fingerprint x)); simpl; [|done].
  destruct (negb _).
  - rewrite dict_append_keys. by apply dict_setdefault_keys.
  - by apply dict_setdefault_keys.
Qed.

Lemma merge_result_groups d res :
  Forall (λ e, NoDup e.2) d → Forall (λ e, NoDup e.2) (merge_result d res).
Proof.
  intros H. destruct res as [x|]; simpl; [|done].
  destruct (success x); simpl; [|done].
  destruct (truthy (file x) && truthy (fingerprint x)); simpl; [|done].
  rewrite (dict_get_setdefault d (fingerprint x)). cbn [default from_option id].
  unfold list_contains.
  destruct (bool_decide (file x ∈ default [] (dict_get d (fingerprint x)))) eqn:Hin;
    cbn [negb].
  - by apply dict_setdefault_groups.
  - apply bool_decide_eq_false_1 in Hin.
    apply dict_append_groups; [|by apply dict_setdefault_groups].
    intros v Hv. rewrite dict_get_setdefault in Hv. by injection Hv as <-.
Qed.

Lemma merge_results_mono results : ∀ d p f,
  listed_under d p f → listed_under (fold_left merge_result results d) p f.
Proof.
  induction results as [|res results IH]; simpl; intros d p f H; [done|].
  by apply IH, merge_result_mono.
Qed.

Lemma merge_results_recorded results x : ∀ d,
  Some x ∈ results →
  success x = true → truthy (file x) = true → truthy (fingerprint x) = true →
  listed_under (fold_left merge_result results d) (file x) (fingerprint x).
Proof.
  induction results as [|res results IH]; simpl; intros d Hin Hs Hp Hf.
  - by apply elem_of_nil in Hin.
  - apply elem_of_cons in Hin as [<-|Hin]; [|by apply IH].
    by apply merge_results_mono, merge_result_recorded.
Qed.

Lemma merge_results_keys results : ∀ d,
  NoDup (map fst d) → NoDup (map fst (fold_left merge_result results d)).
Proof.
  induction results as [|res results IH]; simpl; intros d H; [done|].
  by apply IH, merge_result_keys.
Qed.

Lemma merge_results_groups results : ∀ d,
  Forall (λ e, NoDup e.2) d → Forall (λ e, NoDup e.2) (fold_left merge_result results d).
Proof.
  induction results as [|res results IH]; simpl; intros d H; [done|].
  by apply IH, merge_result_groups.
Qed.

(* ================================================================== *)
(** * A scan: what it records, what it keeps, what it runs, how it ends *)

Section ScanAnswers.
Variable E : Env.

(** A scan with a pool to run it: the forward mapping is the old one with
    the answers merged in, one answer for each candidate, and the commands
    spawned are those of the pool. *)
Lemma scan_answers st directory :
  (1 <= concurrentProcesses (self st))%Z →
  ∃ results new r st1,
    scan E directory st = (r, st1) ∧
    self st1 = set_fingerprints
                 (fold_left merge_result results (fingerprints (self st))) (self st) ∧
    spawned (world st1) = spawned (world st) ++ new ∧
    Forall2 (λ q res, (scanFile E q st).1 = Return res)
            (candidates E st directory) results ∧
    Forall (λ c, ∃ q, q ∈ candidates E st directory ∧
                      reverseFingerprints (self st) !! q = None ∧
                      c = provider_argv (self st) q) new ∧
    (length new <= length (candidates E st directory))%nat.
Proof.
  intros Hproc.
  destruct (pool_map_answers E st (candidates E st directory) Hproc)
    as (results & new & Hpool & Hans & Hnew & Hlen).
  set (merged := mkState
         (set_fingerprints (fold_left merge_result results (fingerprints (self st)))
                           (self st))
         (mkWorld (files (world st)) (spawned (world st) ++ new))).
  assert (scan E directory st
          = (if cacheEnabled (self st) then (_ <- writeCache ;; ret tt) else ret tt) merged)
    as Hscan.
  { unfold scan. unfold bind at 1, gets at 1.
    destruct (Z.ltb_spec (concurrentProcesses (self st)) 1); [lia|].
    unfold bind at 1. rewrite descend_candidates.
    unfold bind at 1. rewrite Hpool.
    unfold bind at 1, on_self, modify. done. }
  destruct (cacheEnabled (self st)) eqn:Hc.
  - destruct (writeCache_spec merged) as (r & st1 & Hw & Hself & Hlog & _).
    exists results, new,
      (match r with Return _ => Return tt | Raise e => Raise e end), st1.
    split_and!; try done.
    rewrite Hscan. unfold bind. rewrite Hw. by destruct r.
  - by exists results, new, (Return tt), merged.
Qed.

End ScanAnswers.

(** [pool.map(self.scanFile, paths)] on a pool of at least one worker
    returns one answer for each path, in the order of the paths, and each is
    the answer [scanFile] gives for that path on the coordinator's instance:
    cutting the work into tasks and running them on copies loses no path,
    repeats none and changes no answer.  The coordinator's instance and the
    files on the disk are what they were. *)
Theorem pool_map_answers_in_order (E : Env) (st : State) (paths : list string) :
  (1 <= concurrentProcesses (self st))%Z →
  ∃ results st',
    pool_map (concurrentProcesses (self st)) (scanFile E) paths st = (Return results, st') ∧
    self st' = self st ∧
    files (world st') = files (world st) ∧
    length results = length paths ∧
    ∀ i q, paths !! i = Some q →
      ∃ res, results !! i = Some res ∧ (scanFile E q st).1 = Return res.
Proof.
  intros Hproc.
  destruct (pool_map_answers E st paths Hproc) as (results & new & Hpool & Hans & _).
  eexists results, _. split_and!; [exact Hpool|done|done| |].
  - symmetry. by eapply Forall2_length.
  - intros i q Hq. destruct (Forall2_lookup_l _ _ _ _ _ Hans Hq) as (res & ? & ?).
    by exists res.
Qed.

Lemma pool_map_answers_in_order_witness :
  ∃ results st',
    pool_map (concurrentProcesses (self (demo_start false))) (scanFile demo_env)
             ["/m/a.mp3"; "/n/t.ogg"; "/m/a.mp3"] (demo_start false)
      = (Return results, st') ∧
    self st' = self (demo_start false) ∧
    files (world st') = files (world (demo_start false)) ∧
    length results = length ["/m/a.mp3"; "/n/t.ogg"; "/m/a.mp3"] ∧
    ∀ i q, ["/m/a.mp3"; "/n/t.ogg"; "/m/a.mp3"] !! i = Some q →
      ∃ res, results !! i = Some res ∧
             (scanFile demo_env q (demo_start false)).1 = Return res.
Proof.
  apply (pool_map_answers_in_order demo_env (demo_start false)
           ["/m/a.mp3"; "/n/t.ogg"; "/m/a.mp3"]).
  vm_compute. discriminate.
Defined.

(** A scan with a pool to run it records every candidate that has a
    fingerprint: a candidate, its path not empty, that the reverse mapping
    sends to a non-empty fingerprint, or that is not in the reverse mapping
    and for which the command exits 0 printing a non-empty fingerprint, is a
    member of that fingerprint's group after the scan, whether or not the
    cache could then be written. *)
Theorem scan_records_every_success (E : Env) (st : State) (directory p f : string) :
  (1 <= concurrentProcesses (self st))%Z →
  p ∈ candidates E st directory →
  truthy p = true →
  truthy f = true →
  reverseFingerprints (self st) !! p = Some f ∨
  (reverseFingerprints (self st) !! p = None ∧
   provider E st p = Exited 0 (JsonObject (Some f))) →
  listed_under (fingerprints (self (scan E directory st).2)) p f.
Proof.
  intros Hproc Hcand Hp Hf Hsrc.
  destruct (scan_answers E st directory Hproc)
    as (results & new & r & st1 & Hscan & Hself & _ & Hans & _).
  rewrite Hscan. cbn. rewrite Hself. cbn.
  apply list_elem_of_lookup in Hcand as [i Hi].
  destruct (Forall2_lookup_l _ _ _ _ _ Hans Hi) as (res & Hres & Hanswer).
  rewrite (worker_state_start st), scanFile_answer in Hanswer.
  injection Hanswer as Hanswer.
  assert (res = Some (mkScanResult p f true)) as ->.
  { destruct Hsrc as [Hr|[Hr Hrun]]; rewrite Hr in Hanswer; [done|].
    unfold provider in Hrun. rewrite Hrun in Hanswer. done. }
  apply (merge_results_recorded results (mkScanResult p f true)); try done.
  by eapply list_elem_of_lookup_2.
Qed.

Lemma scan_records_every_success_witness :
  listed_under (fingerprints (self (scan demo_env "/m" (demo_start false)).2))
               "/m/b.mp3" "X".
Proof.
  apply (scan_records_every_success demo_env (demo_start false) "/m" "/m/b.mp3" "X").
  - vm_compute. discriminate.
  - vm_compute. apply list_elem_of_In. simpl. tauto.
  - reflexivity.
  - reflexivity.
  - right. split; vm_compute; reflexivity.
Defined.

(** A scan only adds to the forward mapping, whatever its outcome: what was
    listed stays listed, under its fingerprint; fingerprints that were listed
    once are listed once; and a group that held no path twice holds none
    twice. *)
Theorem scan_only_adds (E : Env) (st : State) (directory : string) :
  (∀ p f, listed_under (fingerprints (self st)) p f →
          listed_under (fingerprints (self (scan E directory st).2)) p f) ∧
  (NoDup (map fst (fingerprints (self st))) →
   NoDup (map fst (fingerprints (self (scan E directory st).2)))) ∧
  (Forall (λ e, NoDup e.2) (fingerprints (self st)) →
   Forall (λ e, NoDup e.2) (fingerprints (self (scan E directory st).2))).
Proof.
  destruct (Z.ltb_spec (concurrentProcesses (self st)) 1) as [Hlt|Hge].
  - by rewrite scan_no_pool.
  - destruct (scan_answers E st directory Hge)
      as (results & new & r & st1 & Hscan & Hself & _).
    rewrite Hscan. cbn. rewrite Hself. cbn. split_and!.
    + intros p f. apply merge_results_mono.
    + apply merge_results_keys.
    + apply merge_results_groups.
Qed.

(** A scan runs the fingerprint command only for candidates that are not in
    the reverse mapping of the instance, and at most once for each place a
    candidate has in the walk: what it appends to the commands spawned is a
    list of such command lines, no longer than the list of candidates. *)
Theorem scan_runs_command_only_for_misses (E : Env) (st : State) (directory : string) :
  ∃ new,
    spawned (world (scan E directory st).2) = spawned (world st) ++ new ∧
    (∀ c, c ∈ new →
       ∃ q, q ∈ candidates E st directory ∧
            reverseFingerprints (self st) !! q = None ∧
            c = provider_argv (self st) q) ∧
    (length new <= length (candidates E st directory))%nat.
Proof.
  destruct (Z.ltb_spec (concurrentProcesses (self st)) 1) as [Hlt|Hge].
  - exists []. rewrite scan_no_pool; [|done]. rewrite app_nil_r. split_and!; [done| |simpl; lia].
    intros c Hc. by apply elem_of_nil in Hc.
  - destruct (scan_answers E st directory Hge)
      as (results & new & r & st1 & Hscan & _ & Hlog & _ & Hnew & Hlen).
    exists new. rewrite Hscan. split_and!; [done| |done].
    by apply Forall_forall.
Qed.

(** A scan with a pool to run it is the merge of the answers followed, when
    the cache is enabled, by [writeCache], on the disk as the scan found
    it. *)
Lemma scan_then_save (E : Env) (st : State) (directory : string) :
  (1 <= concurrentProcesses (self st))%Z →
  ∃ merged,
    files (world merged) = files (world st) ∧
    scan E directory st
      = (if cacheEnabled (self st) then (_ <- writeCache ;; ret tt) else ret tt) merged.
Proof.
  intros Hproc.
  destruct (pool_map_scanFile E st (candidates E st directory))
    as (results & new & Hpool & _).
  exists (mkState
            (set_fingerprints (fold_left merge_result results (fingerprints (self st)))
                              (self st))
            (mkWorld (files (world st)) (spawned (world st) ++ new))).
  split; [done|].
  unfold scan. unfold bind at 1, gets at 1.
  destruct (Z.ltb_spec (concurrentProcesses (self st)) 1); [lia|].
  unfold bind at 1. rewrite descend_candidates.
  unfold bind at 1. rewrite Hpool.
  unfold bind at 1, on_self, modify. done.
Qed.

(** How a scan ends, for an instance whose filter compiled and a command
    that fails or prints a string for a fingerprint.  With fewer than one
    process the scan raises [ValueError] and has changed nothing.  With a
    pool to run it and the cache disabled it returns, whatever the command
    does for each file.  With the cache enabled it ends as writing the cache
    ends: the answers merged, it calls [writeCache] on the disk as it found
    it, returns when that returns and raises what that raises. *)
Theorem scan_failure_modes (E : Env) (st : State) (directory : string) :
  ((concurrentProcesses (self st) < 1)%Z →
   scan E directory st = (Raise ValueError, st)) ∧
  ((1 <= concurrentProcesses (self st))%Z →
   cacheEnabled (self st) = false →
   (scan E directory st).1 = Return tt) ∧
  ((1 <= concurrentProcesses (self st))%Z →
   cacheEnabled (self st) = true →
   ∃ merged,
     files (world merged) = files (world st) ∧
     (scan E directory st).2 = (writeCache merged).2 ∧
     (scan E directory st).1
       = match (writeCache merged).1 with
         | Return _ => Return tt
         | Raise e => Raise e
         end).
Proof.
  split_and!.
  - apply scan_no_pool.
  - intros Hge Hc. destruct (scan_then_save E st directory Hge) as (merged & _ & ->).
    by rewrite Hc.
  - intros Hge Hc. destruct (scan_then_save E st directory Hge) as (merged & Hfiles & ->).
    exists merged. rewrite Hc. unfold bind, ret.
    by destruct (writeCache merged) as [[b|e] st'].
Qed.

(** [scanFile] never raises, whatever the command does.  It changes
    neither the forward mapping nor the disk, and in the reverse mapping at
    most the entry of the file it was given; an answer that is not [None]
    names that file, is marked successful, and carries the fingerprint the
    reverse mapping then holds for the file; with the answer [None] the
    reverse mapping is what it was. *)
Theorem scanFile_never_raises (E : Env) (p : string) (st : State) :
  ∃ res st',
    scanFile E p st = (Return res, st') ∧
    fingerprints (self st') = fingerprints (self st) ∧
    files (world st') = files (world st) ∧
    (∀ q, q ≠ p →
       reverseFingerprints (self st') !! q = reverseFingerprints (self st) !! q) ∧
    (∀ x, res = Some x →
       file x = p ∧ success x = true ∧
       reverseFingerprints (self st') !! p = Some (fingerprint x)) ∧
    (res = None → reverseFingerprints (self st') = reverseFingerprints (self st)).
Proof.
  pose proof (scanFile_answer E (self st) (files (world st))
                (reverseFingerprints (self st)) (spawned (world st)) p) as Hanswer.
  destruct (scanFile_step E (self st) (files (world st)) (reverseFingerprints (self st))
              (spawned (world st)) p)
    as (res & r' & new & Hrun & Hgrow & Hsound & Hres & _).
  rewrite <- worker_state_start in Hrun, Hanswer. rewrite Hrun in Hanswer.
  injection Hanswer as Hanswer.
  eexists res, _. split; [exact Hrun|]. cbn. split_and!; try done.
  - intros q Hq. destruct (r' !! q) as [f|] eqn:Hr'.
    + apply Hsound in Hr' as [?|[? _]]; done.
    + destruct (reverseFingerprints (self st) !! q) as [f|] eqn:Hr; [|done].
      apply Hgrow in Hr. congruence.
  - intros ->. apply map_eq. intros q.
    destruct (r' !! q) as [f|] eqn:Hr'.
    + apply Hsound in Hr' as [?|[-> Hok]]; [done|].
      destruct (reverseFingerprints (self st) !! p) as [f0|] eqn:Hr; [done|].
      unfold run_for in Hanswer, Hok. rewrite Hok in Hanswer. done.
    + destruct (reverseFingerprints (self st) !! q) as [f|] eqn:Hr; [|done].
      apply Hgrow in Hr. congruence.
Qed.

(* ================================================================== *)
(** * Construction, the reverse mapping, the cache file *)

Lemma reverse_of_app d1 d2 rev :
  reverse_of (d1 ++ d2) rev = reverse_of d2 (reverse_of d1 rev).
Proof. unfold reverse_of. by rewrite fold_left_app. Qed.

Lemma reverse_of_unlisted d : ∀ rev p,
  ¬ listed d p → reverse_of d rev !! p = rev !! p.
Proof.
  induction d as [|[k group] d IH]; intros rev p Hnot; [done|].
  cbn. fold (reverse_of d (reverse_of_group k group rev)). rewrite IH.
  - rewrite reverse_of_group_lookup. rewrite bool_decide_eq_false_2; [done|].
    intros Hin. apply Hnot. exists k, group. split; [left|done].
  - intros (f & g & Hg & Hp). apply Hnot. exists f, g. split; [by right|done].
Qed.

(** The instance [__init__] returns, by what sits at the cache path. *)
Lemma new_cases E a w :
  which E (arg_fingerprintCmd a) = true →
  AudioDedupe_new E a w = (Return (init_fields a), w) ∨
  (∃ doc, arg_cacheEnabled a = true ∧
          files w !! path_join (arg_cacheDir a) DEFAULT_CACHE_FILE_NAME
            = Some (RegularFile (JsonDocument doc)) ∧
          AudioDedupe_new E a w =
            (Return (set_reverseFingerprints (reverse_of doc ∅)
                       (set_fingerprints doc (init_fields a))), w)) ∨
  (arg_cacheEnabled a = true ∧
   files w !! path_join (arg_cacheDir a) DEFAULT_CACHE_FILE_NAME
     = Some (RegularFile Unparsable) ∧
   AudioDedupe_new E a w =
     (Return (init_fields a),
      mkWorld (delete (path_join (arg_cacheDir a) DEFAULT_CACHE_FILE_NAME) (files w))
              (spawned w))).
Proof.
  intros Hw. destruct (arg_cacheEnabled a) eqn:Hc.
  - destruct (files w !! path_join (arg_cacheDir a) DEFAULT_CACHE_FILE_NAME)
      as [[[doc|]|]|] eqn:Hf.
    + right. left. exists doc. split_and!; [done..|]. by apply new_with_cache.
    + right. right. split_and!; [done..|]. by apply new_unparsable_cache.
    + left. apply new_absent_cache; [done|]. unfold isfile. by rewrite Hf.
    + left. apply new_absent_cache; [done|]. unfold isfile. by rewrite Hf.
  - left. by apply new_without_cache.
Qed.

Lemma new_configured E a w s w' :
  AudioDedupe_new E a w = (Return s, w') → configured a s.
Proof.
  intros Hnew.
  assert (which E (arg_fingerprintCmd a) = true) as Hw.
  { revert Hnew. unfold AudioDedupe_new, init_rest, _fingerprintCmdExists, bind, gets,
      ret, raise. cbn. by destruct (which E (arg_fingerprintCmd a)). }
  destruct (new_cases E a w Hw) as [H|[(doc & _ & _ & H)|(_ & _ & H)]];
    rewrite H in Hnew; injection Hnew as <- <-; by repeat split.
Qed.

Lemma new_command_missing E a w :
  which E (arg_fingerprintCmd a) = false →
  AudioDedupe_new E a w = (Raise AudioDedupeException, w).
Proof.
  intros Hw. unfold AudioDedupe_new, init_rest, _fingerprintCmdExists, bind, gets,
    ret, raise. cbn. rewrite Hw. cbn. by destruct w.
Qed.

(** Constructing an instance fails exactly when the fingerprint command is
    not found: it then raises [AudioDedupeException] and has touched
    nothing.  Otherwise, with nothing at the cache path, or a directory, or
    a file that [json.load] rejects, or a file holding a mapping from
    fingerprints to lists of path names, it returns an instance configured as
    asked; it has run no command and changed nothing on the disk but, at
    most, the cache file; and the reverse mapping of the instance is the one
    derived from its forward mapping.  A cache file holding JSON of another
    shape is not among the contents a [World] has (see [FileContent]). *)
Theorem construction_outcomes (E : Env) (a : InitArgs) (w : World) :
  (which E (arg_fingerprintCmd a) = false →
   AudioDedupe_new E a w = (Raise AudioDedupeException, w)) ∧
  (which E (arg_fingerprintCmd a) = true →
   ∃ s w',
     AudioDedupe_new E a w = (Return s, w') ∧
     configured a s ∧
     spawned w' = spawned w ∧
     (∀ q, q ≠ cacheFile s → files w' !! q = files w !! q) ∧
     reverseFingerprints s = reverse_of (fingerprints s) ∅).
Proof.
  split; [apply new_command_missing|].
  - intros Hw.
    destruct (new_cases E a w Hw) as [H|[(doc & _ & _ & H)|(_ & _ & H)]];
      eexists _, _; (split; [exact H|]);
      (split; [by eapply new_configured|]); split_and!; try done.
    intros q Hq. cbn in *. by rewrite lookup_delete_ne.
Qed.

(** [_updateReverseFingerprints] sends every listed path to a fingerprint
    that lists it, and to the last one in the order of the dictionary when
    several do; entries of paths that are not listed stay as they are, so the
    method removes nothing.  It changes nothing else. *)
Theorem update_reverse_last_group_wins (st : State) :
  (∀ d1 f g d2 p,
     fingerprints (self st) = d1 ++ (f, g) :: d2 → p ∈ g → ¬ listed d2 p →
     reverseFingerprints (self (_updateReverseFingerprints st).2) !! p = Some f) ∧
  (∀ p, ¬ listed (fingerprints (self st)) p →
     reverseFingerprints (self (_updateReverseFingerprints st).2) !! p
       = reverseFingerprints (self st) !! p) ∧
  fingerprints (self (_updateReverseFingerprints st).2) = fingerprints (self st) ∧
  world (_updateReverseFingerprints st).2 = world st ∧
  (_updateReverseFingerprints st).1 = Return tt.
Proof.
  unfold _updateReverseFingerprints, on_self, modify. cbn. split_and!; try done.
  - intros d1 f g d2 p -> Hp Hnot.
    rewrite reverse_of_app. cbn.
    fold (reverse_of d2 (reverse_of_group f g
            (reverse_of d1 (reverseFingerprints (self st))))).
    rewrite reverse_of_unlisted; [|done].
    rewrite reverse_of_group_lookup. by rewrite bool_decide_eq_true_2.
  - intros p Hnot. by apply reverse_of_unlisted.
Qed.

(** [loadCache] does not raise.  It returns whether a regular file sat at
    the cache path.  It leaves the reverse mapping and every other file
    alone; the forward mapping changes only to what the cache file holds, and
    the cache file only by being removed when it cannot be read. *)
Theorem loadCache_effects (st : State) :
  ∃ st',
    loadCache st = (Return (isfile (files (world st)) (cacheFile (self st))), st') ∧
    reverseFingerprints (self st') = reverseFingerprints (self st) ∧
    spawned (world st') = spawned (world st) ∧
    (∀ q, q ≠ cacheFile (self st) → files (world st') !! q = files (world st) !! q) ∧
    ((∃ doc, files (world st) !! cacheFile (self st) = Some (RegularFile (JsonDocument doc)) ∧
             fingerprints (self st') = doc ∧ world st' = world st) ∨
     (files (world st) !! cacheFile (self st) = Some (RegularFile Unparsable) ∧
      fingerprints (self st') = fingerprints (self st) ∧
      files (world st') !! cacheFile (self st) = None) ∨
     (isfile (files (world st)) (cacheFile (self st)) = false ∧ st' = st)).
Proof.
  destruct (files (world st) !! cacheFile (self st)) as [[[doc|]|]|] eqn:Hf.
  - eexists. split_and!.
    + rewrite (loadCache_json st doc Hf). unfold isfile. by rewrite Hf.
    + done.
    + done.
    + done.
    + left. by exists doc.
  - eexists. split_and!.
    + rewrite (loadCache_unparsable st Hf). unfold isfile. by rewrite Hf.
    + done.
    + done.
    + intros q Hq. cbn. by rewrite lookup_delete_ne.
    + right. left. split_and!; [done|done|]. cbn. by rewrite lookup_delete_eq.
  - eexists. split_and!.
    + rewrite loadCache_absent; unfold isfile; by rewrite Hf.
    + done.
    + done.
    + done.
    + right. right. unfold isfile. by rewrite Hf.
  - eexists. split_and!.
    + rewrite loadCache_absent; unfold isfile; by rewrite Hf.
    + done.
    + done.
    + done.
    + right. right. unfold isfile. by rewrite Hf.
Qed.

(** [writeCache] raises [FileExistsError] exactly when a regular file sits
    at the path of the cache directory, and has then changed nothing.  In
    every case the instance is what it was and no command is run.  Nothing
    that was on the disk is changed or removed, the cache file apart; what
    appears on the disk besides the cache file is a directory.  When it
    returns, the cache file holds the forward mapping, and the cache
    directory is a directory. *)
Theorem writeCache_effects (st : State) :
  ((writeCache st).1 = Raise FileExistsError ↔
     isfile (files (world st)) (cacheDir (self st)) = true) ∧
  ((writeCache st).1 = Raise FileExistsError → (writeCache st).2 = st) ∧
  self (writeCache st).2 = self st ∧
  spawned (world (writeCache st).2) = spawned (world st) ∧
  (∀ q, is_Some (files (world st) !! q) → q ≠ cacheFile (self st) →
     files (world (writeCache st).2) !! q = files (world st) !! q) ∧
  (∀ q, files (world st) !! q = None → q ≠ cacheFile (self st) →
     files (world (writeCache st).2) !! q = None ∨
     files (world (writeCache st).2) !! q = Some Directory) ∧
  ((writeCache st).1 = Return true →
     files (world (writeCache st).2) !! cacheFile (self st)
       = Some (RegularFile (JsonDocument (fingerprints (self st)))) ∧
     (cacheDir (self st) ≠ cacheFile (self st) →
      isdir (files (world (writeCache st).2)) (cacheDir (self st)) = true)).
Proof.
  destruct st as [s [fs log]].
  unfold writeCache, bind, gets, ret, in_world, os_makedirs, write_json, isdir, isfile.
  cbn.
  destruct (fs !! cacheDir s) as [[c|]|] eqn:Hd; cbn.
  - rewrite Hd. cbn. split_and!; try done. intros q Hq _. by left.
  - destruct (fs !! cacheFile s) as [[c|]|] eqn:Hf; cbn; split_and!; try done;
      try (intros q Hq1 Hq2; by rewrite lookup_insert_ne);
      try (intros q Hq1 Hq2; left; by rewrite ?lookup_insert_ne);
      try (intros _; split; [by rewrite lookup_insert_eq|];
           intros Hne; by rewrite lookup_insert_ne, Hd).
  - rewrite Hd. cbn.
    assert (∀ q, is_Some (fs !! q) → q ≠ cacheDir s) as Hold.
    { intros q [n Hq] ->. congruence. }
    assert (∀ q, fs !! q = None →
              <[cacheDir s:=Directory]> fs !! q = None ∨
              <[cacheDir s:=Directory]> fs !! q = Some Directory) as Hnew.
    { intros q Hq. destruct (decide (q = cacheDir s)) as [->|Hne].
      - right. by rewrite lookup_insert_eq.
      - left. by rewrite lookup_insert_ne. }
    destruct (truthy (cacheDir s)); cbn.
    + destruct (<[cacheDir s:=Directory]> fs !! cacheFile s) as [[c|]|] eqn:Hf; cbn;
        split_and!; try done;
        try (intros q Hq1 Hq2; rewrite ?(lookup_insert_ne _ (cacheFile s)); [|done];
             rewrite lookup_insert_ne; [done|]; intros <-; by apply (Hold _ Hq1));
        try (intros q Hq1 Hq2; rewrite ?(lookup_insert_ne _ (cacheFile s)); [|done];
             by apply Hnew);
        try (intros q Hq1 Hq2; rewrite lookup_insert_ne; [done|];
             intros <-; by apply (Hold _ Hq1));
        try (intros q Hq1 Hq2; by apply Hnew);
        try (intros _; split; [by rewrite lookup_insert_eq|];
             intros Hne; by rewrite lookup_insert_ne, lookup_insert_eq).
    + split_and!; try done. intros q Hq _. by left.
Qed.

(* ================================================================== *)
(** * The report *)














(* ================================================================== *)
(** * The main block *)

Lemma apply_options_reset_cache given : ∀ ns,
  reset_cache (fold_left apply_option given ns)
    = reset_cache ns || reset_cache_given given.
Proof.
  induction given as [|o given IH]; intros ns; simpl.
  - by rewrite orb_false_r.
  - rewrite IH. destruct o; simpl; try done.
    by rewrite orb_true_r.
Qed.

Lemma apply_options_cmd_args given : ∀ ns,
  fingerprint_cmd_args (fold_left apply_option given ns)
    = fingerprint_cmd_args ns ++ fingerprint_cmd_args_given given.
Proof.
  induction given as [|o given IH]; intros ns; simpl.
  - by rewrite app_nil_r.
  - rewrite IH. destruct o; simpl; try done.
    by rewrite <- app_assoc.
Qed.

(** [if args.reset_cache: ...] does not raise; it removes the cache file
    when the flag is set and a regular file is there, and nothing else. *)
Lemma reset_cache_file_returns args w :
  ∃ w', reset_cache_file args w = (Return tt, w') ∧
        spawned w' = spawned w ∧
        (reset_cache args = false → w' = w) ∧
        (reset_cache args = true →
           isfile (files w') (path_join (cache_dir args) DEFAULT_CACHE_FILE_NAME) = false) ∧
        (∀ q, q ≠ path_join (cache_dir args) DEFAULT_CACHE_FILE_NAME →
           files w' !! q = files w !! q).
Proof.
  unfold reset_cache_file. destruct (reset_cache args).
  - unfold isfile, os_remove.
    destruct (files w !! path_join (cache_dir args) DEFAULT_CACHE_FILE_NAME)
      as [[c|]|] eqn:Hf.
    + eexists. split_and!; [done|done|done| |].
      * intros _. cbn. by rewrite lookup_delete_eq.
      * intros q Hq. cbn. by rewrite lookup_delete_ne.
    + eexists. split_and!; [done|done|done| |done]. intros _. by rewrite Hf.
    + eexists. split_and!; [done|done|done| |done]. intros _. by rewrite Hf.
  - exists w. by split_and!.
Qed.

(** With [--reset-cache] the program starts from nothing: whatever the
    cache file held, the instance the main block constructs has an empty
    forward mapping and an empty reverse mapping, no regular file is left at
    the cache path, no other path has changed, and no command has run. *)
Theorem reset_cache_starts_empty (E : Env) (given : list CliOption)
    (positional : list string) (w w' : World) (s : AudioDedupe) :
  reset_cache_given given = true →
  main_instance E given positional w = (Return s, w') →
  fingerprints s = [] ∧
  reverseFingerprints s = ∅ ∧
  isfile (files w') (cacheFile s) = false ∧
  (∀ q, q ≠ cacheFile s → files w' !! q = files w !! q) ∧
  spawned w' = spawned w.
Proof.
  intros Hgiven. unfold main_instance. set (args := parse_args E given positional).
  assert (reset_cache args = true) as Hreset.
  { unfold args, parse_args. rewrite apply_options_reset_cache, Hgiven.
    by rewrite orb_true_r. }
  destruct (reset_cache_file_returns args w) as (w1 & -> & Hlog & _ & Hgone & Hframe).
  specialize (Hgone Hreset). intros Hnew.
  assert (which E (arg_fingerprintCmd (adArgs args)) = true) as Hwhich.
  { revert Hnew. unfold AudioDedupe_new, init_rest, _fingerprintCmdExists, bind, gets,
      ret, raise. cbn. by destruct (which E (fingerprint_cmd args)). }
  rewrite (new_absent_cache E (adArgs args) w1 Hwhich Hgone) in Hnew.
  injection Hnew as <- <-. by split_and!.
Qed.

Lemma reset_cache_starts_empty_witness :
  fingerprints (init_fields (adArgs (parse_args demo_env
                  [opt_cache_dir "/c"; opt_reset_cache] ["/m"]))) = [] ∧
  reverseFingerprints (init_fields (adArgs (parse_args demo_env
                  [opt_cache_dir "/c"; opt_reset_cache] ["/m"]))) = ∅ ∧
  isfile (files (mkWorld (delete "/c/audiodedupe_cache.json" (files stale_world)) []))
         (cacheFile (init_fields (adArgs (parse_args demo_env
                  [opt_cache_dir "/c"; opt_reset_cache] ["/m"])))) = false ∧
  (∀ q, q ≠ cacheFile (init_fields (adArgs (parse_args demo_env
                  [opt_cache_dir "/c"; opt_reset_cache] ["/m"]))) →
        files (mkWorld (delete "/c/audiodedupe_cache.json" (files stale_world)) []) !! q
          = files stale_world !! q) ∧
  spawned (mkWorld (delete "/c/audiodedupe_cache.json" (files stale_world)) [])
    = spawned stale_world.
Proof.
  apply (reset_cache_starts_empty demo_env [opt_cache_dir "/c"; opt_reset_cache] ["/m"]
           stale_world).
  - reflexivity.
  - vm_compute. reflexivity.
Defined.

(** The command line the program runs for a file is the command, then
    [-json], then the values given with [--fingerprint-cmd-args] in the order
    given, then the file: the option adds to the default argument and never
    replaces it. *)
Theorem cmd_args_follow_json (E : Env) (given : list CliOption)
    (positional : list string) (w w' : World) (s : AudioDedupe) (fileName : string) :
  main_instance E given positional w = (Return s, w') →
  provider_argv s fileName
    = [fingerprintCmd s] ++ ["-json"] ++ fingerprint_cmd_args_given given ++ [fileName].
Proof.
  unfold main_instance. set (args := parse_args E given positional).
  destruct (reset_cache_file args w) as [[u|e] w1]; [|done].
  intros Hnew. apply new_configured in Hnew as (_ & _ & _ & _ & _ & Hargs & _).
  unfold provider_argv. rewrite Hargs. cbn [adArgs arg_fingerprintCmdArgs].
  unfold args, parse_args. rewrite apply_options_cmd_args. by rewrite <- app_assoc.
Qed.

Lemma cmd_args_follow_json_witness :
  provider_argv
    (init_fields (adArgs (parse_args demo_env
       [opt_fingerprint_cmd_args "-length"; opt_disable_cache;
        opt_fingerprint_cmd_args "30"] ["/m"])))
    "/m/a.mp3"
  = [fingerprintCmd (init_fields (adArgs (parse_args demo_env
       [opt_fingerprint_cmd_args "-length"; opt_disable_cache;
        opt_fingerprint_cmd_args "30"] ["/m"])))] ++ ["-json"] ++
    fingerprint_cmd_args_given
      [opt_fingerprint_cmd_args "-length"; opt_disable_cache;
       opt_fingerprint_cmd_args "30"] ++ ["/m/a.mp3"].
Proof.
  apply (cmd_args_follow_json demo_env
           [opt_fingerprint_cmd_args "-length"; opt_disable_cache;
            opt_fingerprint_cmd_args "30"] ["/m"] demo_world demo_world).
  vm_compute. reflexivity.
Defined.






(* ================================================================== *)
(** * The names the default filter lets through *)

(** Appending to a string reduces on the string's first character. *)
Local Arguments String.append !s1 s2 : simpl nomatch.

Lemma str_app_assoc (a b c : string) : (a +:+ b) +:+ c = a +:+ (b +:+ c).
Proof. induction a as [|x a IH]; simpl; [done|]. by rewrite IH. Qed.

Lemma str_app_nil_r (a : string) : a +:+ "" = a.
Proof. induction a as [|x a IH]; simpl; [done|]. by rewrite IH. Qed.

Lemma str_app_nil (a b : string) : a +:+ b = "" → a = "" ∧ b = "".
Proof. by destruct a. Qed.

Lemma match_from_unfold ic first r s :
  match_from ic first r s =
    nullable first s r ||
    match s with
    | EmptyString => false
    | String c rest => match_from ic false (deriv ic first c rest r) rest
    end.
Proof. by destruct s. Qed.

Section Derivatives.
Variable ic : bool.

Lemma matches_nullable first r u rest :
  Matches ic first r u rest → u = "" → nullable first rest r = true.
Proof.
  induction 1 as [first rest|first a c rest Hlit|first c rest Hc|rest|first rest Hend
                  |first r1 r2 u1 u2 rest H1 IH1 H2 IH2
                  |first r1 r2 u rest H1 IH1|first r1 r2 u rest H2 IH2
                  |first r rest|first r c u1 u2 rest H1 IH1 H2 IH2];
    intros Hu; simpl; try done.
  - apply str_app_nil in Hu as [-> ->]. simpl in *.
    rewrite andb_true_r in IH2. by rewrite IH1, IH2.
  - by rewrite IH1.
  - rewrite IH2; [|done]. by rewrite orb_true_r.
Qed.

Lemma nullable_matches r : ∀ first rest,
  nullable first rest r = true → Matches ic first r "" rest.
Proof.
  induction r as [| | | | | |r1 IH1 r2 IH2|r1 IH1 r2 IH2|r IH]; intros first rest H;
    simpl in H; try done.
  - constructor.
  - subst first. constructor.
  - by constructor.
  - apply andb_true_iff in H as [H1 H2].
    apply (M_Cat ic first r1 r2 "" "" rest); simpl.
    + by apply IH1.
    + rewrite andb_true_r. by apply IH2.
  - apply orb_true_iff in H as [H|H]; [apply M_AltL|apply M_AltR]; eauto.
  - constructor.
Qed.

(** Taking the derivative by [c] is consuming [c]. *)
Lemma matches_deriv first r w rest :
  Matches ic first r w rest →
  ∀ c u, w = String c u →
    Matches ic false (deriv ic first c (u +:+ rest) r) u rest.
Proof.
  induction 1 as [first rest|first a c0 rest Hlit|first c0 rest Hc|rest|first rest Hend
                  |first r1 r2 u1 u2 rest H1 IH1 H2 IH2
                  |first r1 r2 u0 rest H1 IH1|first r1 r2 u0 rest H2 IH2
                  |first r rest|first r c0 u1 u2 rest H1 IH1 H2 IH2];
    intros c u Hw; simpl; try done.
  - injection Hw as <- <-. rewrite Hlit. constructor.
  - injection Hw as <- <-. rewrite Hc. constructor.
  - destruct u1 as [|c1 u1]; simpl in Hw.
    + subst u2. simpl in *. rewrite andb_true_r in IH2.
      rewrite (matches_nullable first r1 "" _ H1 eq_refl).
      apply M_AltR. by apply IH2.
    + injection Hw as -> <-. apply M_AltL.
      apply M_Cat.
      * rewrite str_app_assoc. by apply IH1.
      * simpl in H2. rewrite andb_false_r in H2. done.
  - apply M_AltL. by apply IH1.
  - apply M_AltR. by apply IH2.
  - simpl in Hw. injection Hw as -> <-.
    apply M_Cat; [|done].
    rewrite str_app_assoc. by apply IH1.
Qed.

Lemma deriv_matches r : ∀ first c u rest,
  Matches ic false (deriv ic first c (u +:+ rest) r) u rest →
  Matches ic first r (String c u) rest.
Proof.
  induction r as [| | a | | | |r1 IH1 r2 IH2|r1 IH1 r2 IH2|r IH];
    intros first c u rest H; simpl in H.
  - inversion H.
  - inversion H.
  - destruct (lit_matches ic a c) eqn:Hlit; inversion H; subst. by constructor.
  - destruct (ascii_eqb c newline) eqn:Hc; inversion H; subst. by constructor.
  - inversion H.
  - inversion H.
  - inversion H as [| | | | | |? ? ? ? ? HL|? ? ? ? ? HR| |]; subst.
    + inversion HL as [| | | | |? ? ? u1 u2 ? Hd1 Hd2| | | |]; subst.
      rewrite str_app_assoc in Hd1. apply IH1 in Hd1. simpl in Hd2.
      apply (M_Cat ic first r1 r2 (String c u1) u2 rest); [done|].
      simpl. by rewrite andb_false_r.
    + destruct (nullable first (String c (u +:+ rest)) r1) eqn:Hnull; [|inversion HR].
      apply IH2 in HR. apply nullable_matches in Hnull.
      apply (M_Cat ic first r1 r2 "" (String c u) rest); [done|].
      simpl. by rewrite andb_true_r.
  - inversion H; subst; [apply M_AltL|apply M_AltR]; eauto.
  - inversion H as [| | | | |? ? ? u1 u2 ? Hd1 Hd2| | | |]; subst.
    rewrite str_app_assoc in Hd1. apply IH in Hd1. simpl in Hd2.
    by apply (M_StarCons ic first r c u1 u2 rest).
Qed.

(** [match_from] finds a match exactly when some prefix of the name is
    matched. *)
Lemma match_from_matches s : ∀ first r,
  match_from ic first r s = true ↔ ∃ u v, s = u +:+ v ∧ Matches ic first r u v.
Proof.
  induction s as [|c s IH]; intros first r; rewrite match_from_unfold.
  - rewrite orb_false_r. split.
    + intros H. exists "", "". split; [done|]. by apply nullable_matches.
    + intros (u & v & Heq & H). symmetry in Heq. apply str_app_nil in Heq as [-> ->].
      by eapply matches_nullable.
  - rewrite orb_true_iff, IH. split.
    + intros [H|(u & v & -> & H)].
      * exists "", (String c s). split; [done|]. by apply nullable_matches.
      * exists (String c u), v. split; [done|]. by apply deriv_matches.
    + intros (u & v & Heq & H). destruct u as [|c' u]; simpl in Heq.
      * left. subst v. by eapply matches_nullable.
      * injection Heq as <- ->. right. exists u, v. split; [done|].
        by eapply matches_deriv.
Qed.

End Derivatives.

Lemma star_dot_matches ic stem : ∀ first rest,
  no_newline stem = true → Matches ic first (Star Dot) stem rest.
Proof.
  induction stem as [|c stem IH]; intros first rest H; simpl in H; [constructor|].
  apply andb_true_iff in H as [Hc Hs]. apply negb_true_iff in Hc.
  apply (M_StarCons ic first Dot c "" stem rest); [by constructor|by apply IH].
Qed.

Lemma star_dot_inv ic first r u rest :
  Matches ic first r u rest → r = Star Dot → no_newline u = true.
Proof.
  induction 1 as [| | | | | | | | |first r c u1 u2 rest H1 IH1 H2 IH2]; intros Hr;
    try done.
  injection Hr as ->. inversion H1; subst. simpl.
  match goal with Hc : ascii_eqb c newline = false |- _ => rewrite Hc end.
  simpl. by apply IH2.
Qed.

Lemma word_matches w : ∀ e first rest,
  lowercase e = lowercase w → Matches true first (word w) e rest.
Proof.
  induction w as [|a w IH]; intros e first rest H; destruct e as [|c e]; simpl in H;
    try done.
  - constructor.
  - injection H as Hc He.
    apply (M_Cat true first (Lit a) (word w) (String c "") e rest).
    + constructor. unfold lit_matches, ascii_eqb. by rewrite bool_decide_eq_true_2.
    + by apply IH.
Qed.

Lemma word_inv w : ∀ e first rest,
  Matches true first (word w) e rest → lowercase e = lowercase w.
Proof.
  induction w as [|a w IH]; intros e first rest H; simpl in H.
  - by inversion H.
  - inversion H as [| | | | |? ? ? u1 u2 ? H1 H2| | | |]; subst.
    inversion H1 as [|? ? c ? Hlit| | | | | | | |]; subst. simpl.
    unfold lit_matches, ascii_eqb in Hlit. apply bool_decide_eq_true_1 in Hlit.
    rewrite <- Hlit. f_equal. by eapply IH.
Qed.

Lemma at_end_cases v : at_end v = true ↔ v = "" ∨ v = String newline "".
Proof.
  destruct v as [|c [|c' v]]; simpl; split; try done; try by left.
  - intros H. right. unfold ascii_eqb in H. apply bool_decide_eq_true_1 in H. by subst.
  - intros [?|[= ->]]; [done|]. unfold ascii_eqb. by rewrite bool_decide_eq_true_2.
  - intros [?|?]; done.
Qed.

(** The default filter lets through exactly the names made of a stem without
    a newline, a dot, and [mp3], [ogg] or [wav] in any letter case, with
    nothing after the extension but, possibly, one newline.  So [a.MP3] and
    [.ogg] are candidates of a scan, and [a.mp3.bak], [a.flac] and [amp3] are
    not. *)
Theorem default_filter_matches_audio_extensions (name : string) :
  re_match DEFAULT_FILES_FILTER name = true ↔
  ∃ stem ext tail,
    name = stem +:+ "." +:+ ext +:+ tail ∧
    no_newline stem = true ∧
    lowercase ext ∈ ["mp3"; "ogg"; "wav"] ∧
    (tail = "" ∨ tail = String newline "").
Proof.
  unfold re_match, DEFAULT_FILES_FILTER. cbn [ignorecase body].
  rewrite match_from_matches. split.
  - intros (u & v & -> & H).
    inversion H as [| | | | |? ? ? u0 u1 ? Hbol H1| | | |]; subst. clear H.
    inversion Hbol; subst. simpl in H1. clear Hbol.
    inversion H1 as [| | | | |? ? ? stem u2 ? Hstar H2| | | |]; subst. clear H1.
    inversion H2 as [| | | | |? ? ? dot u3 ? Hdot H3| | | |]; subst. clear H2.
    inversion Hdot as [|? ? c ? Hlit| | | | | | | |]; subst. clear Hdot.
    inversion H3 as [| | | | |? ? ? ext u4 ? Hext H4| | | |]; subst. clear H3.
    inversion H4 as [| | | |? ? Hend| | | | |]; subst. clear H4.
    exists stem, ext, v. split_and!.
    + unfold lit_matches, ascii_eqb in Hlit. apply bool_decide_eq_true_1 in Hlit.
      assert (c = "."%char) as ->.
      { revert Hlit. unfold lower. clear.
        destruct c as [[] [] [] [] [] [] [] []]; vm_compute; congruence. }
      rewrite str_app_nil_r. simpl. rewrite !str_app_assoc. simpl. done.
    + by eapply star_dot_inv.
    + inversion Hext as [| | | | | |? ? ? ? ? HL|? ? ? ? ? HR| |]; subst.
      * apply (word_inv "mp3") in HL. rewrite HL. left.
      * inversion HR as [| | | | | |? ? ? ? ? HL'|? ? ? ? ? HR'| |]; subst.
        -- apply (word_inv "ogg") in HL'. rewrite HL'. right. left.
        -- apply (word_inv "wav") in HR'. rewrite HR'. right. right. left.
    + by apply at_end_cases.
  - intros (stem & ext & tail & -> & Hstem & Hext & Htail).
    exists (stem +:+ "." +:+ ext), tail. split.
    { by rewrite str_app_assoc. }
    apply (M_Cat true true Bol _ "" (stem +:+ "." +:+ ext) tail); [constructor|].
    apply (M_Cat true _ (Star Dot) _ stem ("." +:+ ext) tail);
      [by apply star_dot_matches|].
    apply (M_Cat true _ (Lit ".") _ "." ext tail); [by constructor|].
    rewrite <- (str_app_nil_r ext).
    apply (M_Cat true _ _ Eol ext "" tail).
    + apply elem_of_cons in Hext as [Hext|Hext];
        [by apply M_AltL, (word_matches "mp3")|].
      apply elem_of_cons in Hext as [Hext|Hext];
        [by apply M_AltR, M_AltL, (word_matches "ogg")|].
      apply list_elem_of_singleton in Hext.
      by apply M_AltR, M_AltR, (word_matches "wav").
    + constructor. by apply at_end_cases.
Qed.
